(** * Slack search and thread reconstruction (services/slackService.ts)

    A shallow embedding of the search engine of the repository:
    [slackFetch] (the retrying request client), [generateQueryVariations],
    [performSearch] (the paginated executor) and [searchMessages] (fan-out,
    merge, thread fetch and reassembly), followed by the properties that the
    specification states about them.

    Conventions of the embedding.
    - A JavaScript string is the list of its UTF-16 code units.
    - A JavaScript [Map] or [Set] is an association list in insertion order
      (the order [Array.from] enumerates it in).
    - An [async] function is a function of its start time (milliseconds on a
      virtual clock) to its settlement: the outcome, the time at which the
      promise settles and the requests and timers issued on the way.
    - Each call of [slackFetch] faces a server of its own, chosen by what is
      requested: the replies to its successive attempts and their latencies.
    - A loop without a bound in the source takes a [fuel] argument and
      returns [None] when the fuel does not reach its end.
    - [parseFloat] yields the exact rational value of the decimal numeral it
      reads; rounding to binary64 is outside the model. *)

From Stdlib Require Import String Ascii.
From Stdlib Require Import List Bool Arith ZArith NArith QArith Lia.
From Stdlib Require Import Permutation Sorted.
Import ListNotations.
Close Scope Q_scope.

Set Implicit Arguments.

(* ================================================================== *)
(** * JavaScript strings *)
(* ================================================================== *)

Module JS.

Definition jsstring := list N.

(** A literal: one code unit per character of an ASCII constant. *)
Definition lit (s : string) : jsstring :=
map N_of_ascii (list_ascii_of_string s).

Definition jsstring_eq_dec : forall a b : jsstring, {a = b} + {a <> b} :=
list_eq_dec N.eq_dec.

Definition opt_jsstring_eq_dec :
forall a b : option jsstring, {a = b} + {a <> b}.
Proof. decide equality; apply jsstring_eq_dec. Defined.

(** [ToBoolean] of a string: every string but the empty one is truthy. *)
Definition truthy (s : jsstring) : bool :=
match s with [] => false | _ :: _ => true end.

(** [x || d] where [x] is a string that may be [undefined] or [null]. *)
Definition or_else (x : option jsstring) (d : jsstring) : jsstring :=
match x with
| Some s => if truthy s then s else d
| None => d
end.

(** The class [\s] of regular expressions, which is also the white space
  that [parseInt] and [parseFloat] skip: WhiteSpace and LineTerminator. *)
Definition is_ws (c : N) : bool :=
((9 <=? c) && (c <=? 13) || (c =? 32) || (c =? 160) || (c =? 5760)
 || (8192 <=? c) && (c <=? 8202) || (c =? 8232) || (c =? 8233)
 || (c =? 8239) || (c =? 8287) || (c =? 12288) || (c =? 65279))%N.

Definition space : N := 32%N.

(** [s.split(/\s+/)]: the pieces between the maximal runs of white space.
  [prev_ws] says that the previous code unit belonged to a separator. *)
Fixpoint split_go (prev_ws : bool) (s : jsstring) : list jsstring :=
match s with
| [] => [[]]
| c :: s' =>
    if is_ws c then
      if prev_ws then split_go true s' else [] :: split_go true s'
    else
      match split_go false s' with
      | p :: ps => (c :: p) :: ps
      | [] => [[c]]
      end
end.

Definition split_ws (s : jsstring) : list jsstring := split_go false s.

(** 32-bit integer operators. *)
Definition to_int32 (z : Z) : Z := ((z + 2 ^ 31) mod 2 ^ 32 - 2 ^ 31)%Z.

(** [a << b] *)
Definition shl32 (a b : Z) : Z :=
to_int32 (Z.shiftl (to_int32 a) (b mod 32)).

(** [a >> b] *)
Definition sar32 (a b : Z) : Z := Z.shiftr (to_int32 a) (b mod 32).

(** [a & b] *)
Definition and32 (a b : Z) : Z := to_int32 (Z.land (to_int32 a) (to_int32 b)).

(** [set.add(x)] on a [Set] kept in insertion order. *)
Definition Set_add (x : jsstring) (s : list jsstring) : list jsstring :=
if in_dec jsstring_eq_dec x s then s else s ++ [x].

End JS.

Import JS.

(* ================================================================== *)
(** * generateQueryVariations *)
(* ================================================================== *)

(** [keyword.split(/\s+/).filter(Boolean)] *)
Definition words_of (keyword : jsstring) : list jsstring :=
  filter truthy (split_ws keyword).

(** The body of the outer loop for one bitmask [i]: start from [words[0]],
    and for [j = 0 .. numSpaces-1] append a space when bit [j] of [i] is set,
    then [words[j+1]]. *)
Definition variation_of (words : list jsstring) (numSpaces : nat) (i : Z)
  : jsstring :=
  fold_left
    (fun currentVariation j =>
       (if (and32 (sar32 i (Z.of_nat j)) 1 =? 0)%Z
        then currentVariation
        else currentVariation ++ [space])
       ++ nth (j + 1) words [])
    (seq 0 numSpaces)
    (nth 0 words []).

Definition generateQueryVariations (keyword : jsstring) : list jsstring :=
  let words := words_of keyword in
  if (length words <=? 1)%nat then [keyword]
  else
    let numSpaces := (length words - 1)%nat in
    fold_left
      (fun variations i => Set_add (variation_of words numSpaces i) variations)
      (map Z.of_nat (seq 0 (Z.to_nat (shl32 1 (Z.of_nat numSpaces)))))
      [].

(** The spacing permutation the specification describes for a choice of
    separators: [bits] has one entry per gap, [true] for a space. *)
Fixpoint join_with (w : jsstring) (rest : list jsstring) (bits : list bool)
  : jsstring :=
  match rest, bits with
  | r :: rest', b :: bits' =>
      w ++ (if b then [space] else []) ++ join_with r rest' bits'
  | _, _ => w
  end.

Definition spacing_permutation (words : list jsstring) (bits : list bool)
  : jsstring :=
  match words with
  | [] => []
  | w :: rest => join_with w rest bits
  end.

(** The low [k] bits of [i], lowest first. *)
Definition bits_of (i : Z) (k : nat) : list bool :=
  map (fun j => Z.testbit i (Z.of_nat j)) (seq 0 k).

(** A keyword with at most one word: white space, a run of other code
    units (possibly empty), white space. *)
Definition at_most_one_word (keyword : jsstring) : Prop :=
  exists pre w post,
    keyword = pre ++ w ++ post /\
    forallb is_ws pre = true /\
    forallb (fun c => negb (is_ws c)) w = true /\
    forallb is_ws post = true.


(* ================================================================== *)
(** * Numbers read from strings *)
(* ================================================================== *)

Module Num.

(** Leading white space, as [parseInt] and [parseFloat] skip it. *)
Fixpoint skip_ws (s : jsstring) : jsstring :=
match s with
| c :: s' => if is_ws c then skip_ws s' else s
| [] => []
end.

Definition digit_val (c : N) : option Z :=
if ((48 <=? c) && (c <=? 57))%N then Some (Z.of_N (c - 48)) else None.

(** The longest prefix of decimal digits and what follows it. *)
Fixpoint read_digits (s : jsstring) : list Z * jsstring :=
match s with
| c :: s' =>
    match digit_val c with
    | Some d => let (ds, rest) := read_digits s' in (d :: ds, rest)
    | None => ([], s)
    end
| [] => ([], [])
end.

Definition digits_value (ds : list Z) : Z :=
fold_left (fun acc d => 10 * acc + d)%Z ds 0%Z.

(** An optional sign: [true] for a minus. *)
Definition read_sign (s : jsstring) : bool * jsstring :=
match s with
| 45%N :: r => (true, r)
| 43%N :: r => (false, r)
| _ => (false, s)
end.

(** [parseInt(s, 10)]; [None] is [NaN]. *)
Definition parseInt (s : jsstring) : option Z :=
let (neg, s2) := read_sign (skip_ws s) in
match fst (read_digits s2) with
| [] => None
| ds => Some (if neg then - digits_value ds else digits_value ds)%Z
end.

(** A JavaScript number, up to rounding. *)
Inductive number :=
| NaN
| Infinity (negative : bool)
| Finite (q : Q).

Fixpoint is_prefix (p s : jsstring) : bool :=
match p, s with
| [], _ => true
| a :: p', b :: s' => (a =? b)%N && is_prefix p' s'
| _ :: _, [] => false
end.

(** [s.indexOf(p) !== -1] *)
Fixpoint includes (s p : jsstring) : bool :=
is_prefix p s ||
match s with
| [] => false
| _ :: s' => includes s' p
end.

(** [parseFloat(s)]: the longest prefix that is a decimal literal, after
  leading white space. *)
Definition parseFloat (s : jsstring) : number :=
let (neg, s2) := read_sign (skip_ws s) in
if is_prefix (lit "Infinity") s2 then Infinity neg
else
  let (ip, s3) := read_digits s2 in
  let (fp, s4) :=
    match s3 with
    | 46%N :: r => read_digits r
    | _ => ([], s3)
    end in
  match ip ++ fp with
  | [] => NaN
  | ds =>
      let ex :=
        match s4 with
        | c :: r =>
            if ((c =? 101) || (c =? 69))%N then
              let (eneg, r') := read_sign r in
              match fst (read_digits r') with
              | [] => 0%Z
              | ed => (if eneg then - digits_value ed else digits_value ed)%Z
              end
            else 0%Z
        | [] => 0%Z
        end in
      let m := (inject_Z (digits_value ds)
                * Qpower (inject_Z 10) (ex - Z.of_nat (length fp)))%Q in
      Finite (if neg then Qopp m else m)
  end.

(** [a - b] *)
Definition sub (a b : number) : number :=
match a, b with
| NaN, _ | _, NaN => NaN
| Finite x, Finite y => Finite (x - y)
| Infinity n, Infinity n' => if Bool.eqb n n' then NaN else Infinity n
| Infinity n, Finite _ => Infinity n
| Finite _, Infinity n => Infinity (negb n)
end.

(** [v > 0] *)
Definition positive (v : number) : bool :=
match v with
| NaN => false
| Infinity n => negb n
| Finite q => negb (Qle_bool q 0)
end.

(** [v > 0] for a number that may be [undefined]. *)
Definition gt0 (v : option Z) : bool :=
match v with
| Some z => (0 <? z)%Z
| None => false
end.

End Num.

(** [array.sort(compare)]: the sort is stable, so for a consistent comparator
    its result is the one that inserting each element after its
    predecessors computes; [compare x y > 0] puts [y] first. *)
Section Sort.
Context {A : Type}.
Variable compare : A -> A -> Num.number.

Fixpoint sort_insert (x : A) (l : list A) : list A :=
  match l with
  | [] => [x]
  | y :: l' =>
      if Num.positive (compare x y) then y :: sort_insert x l'
      else x :: l
  end.

Fixpoint Array_sort (l : list A) : list A :=
  match l with
  | [] => []
  | x :: l' => sort_insert x (Array_sort l')
  end.
End Sort.

(** [Map] in insertion order. *)
Section JSMap.
Context {K V : Type}.
Variable K_eq_dec : forall a b : K, {a = b} + {a <> b}.

(** [m.set(k, v)]: a key that is present keeps its position. *)
Fixpoint Map_set (k : K) (v : V) (m : list (K * V)) : list (K * V) :=
  match m with
  | [] => [(k, v)]
  | (k', v') :: m' =>
      if K_eq_dec k k' then (k, v) :: m' else (k', v') :: Map_set k v m'
  end.

Fixpoint Map_get (k : K) (m : list (K * V)) : option V :=
  match m with
  | [] => None
  | (k', v') :: m' => if K_eq_dec k k' then Some v' else Map_get k m'
  end.

Definition Map_has (k : K) (m : list (K * V)) : bool :=
  match Map_get k m with Some _ => true | None => false end.

(** [new Map(entries)] *)
Definition Map_of (entries : list (K * V)) : list (K * V) :=
  fold_left (fun m e => Map_set (fst e) (snd e) m) entries [].

(** [Array.from(m.values())] *)
Definition Map_values (m : list (K * V)) : list V := map snd m.
End JSMap.


(* ================================================================== *)
(** * Promises on a virtual clock *)
(* ================================================================== *)

(** What a rejected promise carries. *)
Inductive Error :=
  | AbortError                              (* fetch aborted by the signal *)
  | FetchFailed                             (* fetch rejected: no response *)
  | SlackApiError (code : option jsstring)  (* [Slack API error: <code>] *)
  | NonJsonResponse                         (* content type is not JSON *)
  | JsonSyntaxError                         (* [response.json()] rejected *)
  | RetriesFailed                           (* the throw after the loop *)
  | TypeError.                              (* property of [undefined] *)

(** The error that exhausted retries raise: the same message as an upstream
    rejection with Slack's code [ratelimited]. *)
Definition Ratelimited : Error := SlackApiError (Some (lit "ratelimited")).

Inductive Result (A : Type) :=
  | Ok (a : A)
  | Err (e : Error).
Arguments Ok {A} a.
Arguments Err {A} e.

Inductive Method := GET | POST.

(** A value of the [body] object of a request. *)
Inductive Param :=
  | PStr (s : jsstring)
  | PNum (n : Z).

(** What [fetch] is called with: the endpoint the URL ends in, the query
    string of a GET and the form of a POST. *)
Record HttpRequest := {
  endpoint : jsstring;
  method : Method;
  query : list (jsstring * Param);
  form : option (list (jsstring * Param))
}.

Inductive Event :=
  | Called (endpoint : jsstring) (body : list (jsstring * Param)) (t : N)
  | Fetched (r : HttpRequest) (t : N)
  | SetTimeout (ms : option Z) (t : N).

(** A settled promise: how, when, and what was issued before. *)
Record Settled (A : Type) := {
  outcome : Result A;
  at_time : N;
  log : list Event
}.

Definition prepend {A} (evs : list Event) (s : Settled A) : Settled A :=
  {| outcome := outcome s; at_time := at_time s; log := evs ++ log s |}.

(** The JSON object of a response: Slack's [ok] flag and [error] code, and
    the rest of the object. *)
Record Envelope (A : Type) := {
  ok : bool;
  error : option jsstring;
  data : A
}.

Record Response (A : Type) := {
  status : Z;
  retry_after : option jsstring;      (* headers.get('Retry-After') *)
  content_type : option jsstring;     (* headers.get("content-type") *)
  json : option (Envelope A)          (* [None]: the body does not parse *)
}.

Inductive Reply (A : Type) :=
  | Responds (r : Response A)
  | Unreachable.
Arguments Unreachable {A}.

(** The upstream as one call of [slackFetch] sees it: the reply to its
    n-th [fetch] and the time that reply takes. *)
Record Server (A : Type) := {
  latency : nat -> N;
  reply : nat -> Reply A
}.

(** The delay of [setTimeout(f, ms)]: none for [NaN] and negative values
    (delays beyond the 32-bit range of a timer are not modelled). *)
Definition timer_delay (ms : option Z) : N :=
  match ms with
  | Some z => Z.to_N z
  | None => 0%N
  end.

(** [Promise.all]: fulfilled when all are, at the time of the last one;
    rejected with the earliest rejection. *)
Fixpoint first_rejection {A} (ps : list (Settled A)) : option (Error * N) :=
  match ps with
  | [] => None
  | p :: ps' =>
      match outcome p, first_rejection ps' with
      | Err e, Some (e', t') =>
          if (t' <? at_time p)%N then Some (e', t') else Some (e, at_time p)
      | Err e, None => Some (e, at_time p)
      | Ok _, r => r
      end
  end.

Fixpoint fulfilled {A} (ps : list (Settled A)) : list A :=
  match ps with
  | [] => []
  | p :: ps' =>
      match outcome p with
      | Ok a => a :: fulfilled ps'
      | Err _ => fulfilled ps'
      end
  end.

Definition Promise_all {A} (now : N) (ps : list (Settled A))
  : Settled (list A) :=
  match first_rejection ps with
  | Some (e, t) =>
      {| outcome := Err e; at_time := t; log := concat (map (@log A) ps) |}
  | None =>
      {| outcome := Ok (fulfilled ps);
         at_time := fold_left N.max (map (@at_time A) ps) now;
         log := concat (map (@log A) ps) |}
  end.

(** [p.then(f)] for a synchronous [f]. *)
Definition then_ {A B} (f : A -> B) (p : Settled A) : Settled B :=
  {| outcome := match outcome p with Ok a => Ok (f a) | Err e => Err e end;
     at_time := at_time p;
     log := log p |}.

(** All of a list of runs that may have run out of fuel. *)
Fixpoint all_some {A} (l : list (option A)) : option (list A) :=
  match l with
  | [] => Some []
  | Some a :: l' =>
      match all_some l' with Some r => Some (a :: r) | None => None end
  | None :: _ => None
  end.

(* ================================================================== *)
(** * slackFetch *)
(* ================================================================== *)

(** [parseInt(header || '1', 10) * 1000] for the [Retry-After] header. *)
Definition retryAfterMs (header : option jsstring) : option Z :=
  match Num.parseInt (or_else header (lit "1")) with
  | Some retryAfterSeconds => Some (retryAfterSeconds * 1000)%Z
  | None => None
  end.

Section SlackFetch.
Context {A : Type}.
Variable srv : Server A.
(** The abort signal: the time at which it fires, if it does. *)
Variable signal : option N.

(** [await fetch(url, {method, headers, body, signal})], the [attempt]-th
    of this call, issued at [now]: rejected at once when the signal has
    fired, rejected when it fires before the reply, else settled by the
    reply. *)
Definition fetch (attempt : nat) (now : N) : Result (Response A) * N :=
  let arrival := (now + latency srv attempt)%N in
  let answer :=
    match reply srv attempt with
    | Responds r => Ok r
    | Unreachable => Err FetchFailed
    end in
  match signal with
  | Some fired =>
      if (fired <=? now)%N then (Err AbortError, now)
      else if (fired <? arrival)%N then (Err AbortError, fired)
      else (answer, arrival)
  | None => (answer, arrival)
  end.

(** [contentType && contentType.indexOf("application/json") !== -1] *)
Definition is_json (response : Response A) : bool :=
  match content_type response with
  | Some contentType =>
      truthy contentType && Num.includes contentType (lit "application/json")
  | None => false
  end.

Variable request : HttpRequest.

(** The [while (retries > 0)] loop. *)
Fixpoint slackFetch_loop (retries attempt : nat) (now : N)
  : Settled (Envelope A) :=
  match retries with
  | O => {| outcome := Err RetriesFailed; at_time := now; log := [] |}
  | S retries' =>
      let (fetched, t) := fetch attempt now in
      match fetched with
      | Err e =>
          {| outcome := Err e; at_time := t; log := [Fetched request now] |}
      | Ok response =>
          if (status response =? 429)%Z then
            match retries' with
            | O =>
                {| outcome := Err Ratelimited; at_time := t;
                   log := [Fetched request now] |}
            | S _ =>
                let ms := retryAfterMs (retry_after response) in
                prepend [Fetched request now; SetTimeout ms t]
                  (slackFetch_loop retries' (S attempt)
                     (t + timer_delay ms)%N)
            end
          else if is_json response then
            match json response with
            | Some data =>
                {| outcome := if ok data then Ok data
                              else Err (SlackApiError (error data));
                   at_time := t; log := [Fetched request now] |}
            | None =>
                {| outcome := Err JsonSyntaxError; at_time := t;
                   log := [Fetched request now] |}
            end
          else
            {| outcome := Err NonJsonResponse; at_time := t;
               log := [Fetched request now] |}
      end
  end.
End SlackFetch.

(** The request that [slackFetch] builds from [endpoint], [method] and
    [body]: the body goes to the query string of a GET (when it has keys)
    and to the form of a POST. *)
Definition build_request (endpoint : jsstring) (method : Method)
    (body : list (jsstring * Param)) : HttpRequest :=
  match method with
  | GET => {| endpoint := endpoint; method := GET; query := body;
              form := None |}
  | POST => {| endpoint := endpoint; method := POST; query := [];
               form := Some body |}
  end.

(** [slackFetch(endpoint, token, method, body, signal)], started at [now],
    against the server that answers this request. The token only fills the
    [Authorization] header. *)
Definition slackFetch {A} (srv : Server A) (signal : option N)
    (endpoint : jsstring) (method : Method) (body : list (jsstring * Param))
    (now : N) : Settled (Envelope A) :=
  prepend [Called endpoint body now]
    (slackFetch_loop srv signal (build_request endpoint method body) 5 0 now).

(** The requests and the timers of a log. *)
Definition fetches (l : list Event) : list Event :=
  filter (fun e => match e with Fetched _ _ => true | _ => false end) l.

Definition timeouts (l : list Event) : list (option Z) :=
  flat_map (fun e => match e with SetTimeout ms _ => [ms] | _ => [] end) l.

Definition calls (l : list Event) : list (jsstring * list (jsstring * Param)) :=
  flat_map (fun e => match e with Called ep b _ => [(ep, b)] | _ => [] end) l.

(** A server that answers the successive attempts with the replies of a
    list, each after [lat] milliseconds, and is unreachable afterwards. *)
Definition scripted {A} (lat : N) (replies : list (Reply A)) : Server A :=
  {| latency := fun _ => lat;
     reply := fun n => nth n replies Unreachable |}.

Definition rate_limited {A} (retry_after : option jsstring) : Reply A :=
  Responds {| status := 429; retry_after := retry_after;
              content_type := None; json := None |}.

Definition success {A} (payload : A) : Reply A :=
  Responds {| status := 200; retry_after := None;
              content_type := Some (lit "application/json; charset=utf-8");
              json := Some {| ok := true; error := None; data := payload |} |}.

(** The first replies of [srv] are rate-limited, with the [Retry-After]
    headers [hs] in turn. *)
Definition rate_limits {A} (srv : Server A) (hs : list (option jsstring))
  : Prop :=
  forall i, (i < length hs)%nat ->
    exists r, reply srv i = Responds r /\ status r = 429%Z /\
              retry_after r = nth i hs None.

(** The decimal numeral with the digits [ds]. *)
Definition numeral (ds : list Z) : jsstring :=
  map (fun d => (48 + Z.to_N d)%N) ds.

Definition is_digit (d : Z) : Prop := (0 <= d <= 9)%Z.


(* ================================================================== *)
(** * Messages and the payloads of the two endpoints *)
(* ================================================================== *)

(** A message as [search.messages] and [conversations.replies] return it:
    the fields that the engine reads. *)
Record Msg := {
  permalink : option jsstring;
  ts : jsstring;
  thread_ts : option jsstring;
  reply_count : option Z;
  channel_id : jsstring;            (* msg.channel.id *)
  user : jsstring;
  text : jsstring
}.

(** [msg.thread_ts] where it is truthy. *)
Definition truthy_thread_ts (msg : Msg) : option jsstring :=
  match thread_ts msg with
  | Some t => if truthy t then Some t else None
  | None => None
  end.

(** [msg.thread_ts] as a condition. *)
Definition has_thread_ts (msg : Msg) : bool :=
  match truthy_thread_ts msg with
  | Some _ => true
  | None => false
  end.

(** [msg.thread_ts || msg.ts] *)
Definition threadKey (msg : Msg) : jsstring := or_else (thread_ts msg) (ts msg).

Module Search.
Record Paging := { pages : option Z }.
Record Messages := {
  matches : option (list Msg);
  paging : option Paging
}.
(** The object of a [search.messages] response, without [ok]/[error]. *)
Record Data := { messages : option Messages }.
End Search.

Module Replies.
(** The object of a [conversations.replies] response. *)
Record Data := { messages : option (list Msg) }.
End Replies.

(** The upstream: a server for every page of every query and for every
    thread of every channel. *)
Record World := {
  search_messages : jsstring -> Z -> Server Search.Data;
  conversations_replies : jsstring -> jsstring -> Server Replies.Data
}.

(** The parent message with its [replies] property set. *)
Record Conversation := {
  parent : Msg;
  replies : list Msg
}.

Definition members (c : Conversation) : list Msg := parent c :: replies c.

(* ================================================================== *)
(** * performSearch *)
(* ================================================================== *)

Section PerformSearch.
Variable w : World.
Variable signal : option N.
Variable query : jsstring.

Definition search_params (page : Z) : list (jsstring * Param) :=
  [ (lit "query", PStr query);
    (lit "sort", PStr (lit "timestamp"));
    (lit "sort_dir", PStr (lit "asc"));
    (lit "count", PNum 100);
    (lit "page", PNum page) ].

(** [allMessages] after a page. *)
Definition accumulate (allMessages : list Msg) (d : Search.Data) : list Msg :=
  match Search.messages d with
  | Some m =>
      match Search.matches m with
      | Some found => allMessages ++ found
      | None => allMessages
      end
  | None => allMessages
  end.

(** [data.messages?.paging ? page < data.messages.paging.pages : false] *)
Definition hasMore (page : Z) (d : Search.Data) : bool :=
  match Search.messages d with
  | Some m =>
      match Search.paging m with
      | Some pg =>
          match Search.pages pg with
          | Some total => (page <? total)%Z
          | None => false
          end
      | None => false
      end
  | None => false
  end.

(** The [while (hasMore)] loop; [None] when [fuel] iterations do not
    reach its end. *)
Fixpoint performSearch_loop (fuel : nat) (allMessages : list Msg)
    (page : Z) (now : N) : option (Settled (list Msg)) :=
  match fuel with
  | O => None
  | S fuel' =>
      let r := slackFetch (search_messages w query page) signal
                 (lit "search.messages") POST (search_params page) now in
      match outcome r with
      | Err e =>
          Some {| outcome := Err e; at_time := at_time r; log := log r |}
      | Ok response =>
          let allMessages' := accumulate allMessages (data response) in
          if hasMore page (data response) then
            option_map (prepend (log r))
              (performSearch_loop fuel' allMessages' (page + 1)
                 (at_time r))
          else
            Some {| outcome := Ok allMessages'; at_time := at_time r;
                    log := log r |}
      end
  end.

Definition performSearch (fuel : nat) (now : N)
  : option (Settled (list Msg)) :=
  performSearch_loop fuel [] 1 now.
End PerformSearch.

(** What the call for a page settles with when no signal fires. *)
Definition page_result (w : World) (query : jsstring) (page : Z)
  : Result (Envelope Search.Data) :=
  outcome (slackFetch (search_messages w query page) None
             (lit "search.messages") POST (search_params query page) 0).

(** The stop rule in the words of the specification: the page count is
    reached, or the page has no matches. *)
Definition specified_stop (page : Z) (d : Search.Data) : bool :=
  negb (hasMore page d) ||
  match Search.messages d with
  | Some m =>
      match Search.matches m with
      | Some (_ :: _) => false
      | _ => true
      end
  | None => true
  end.

(** A run that follows that rule requests no page after one that it stops
    at. *)
Definition stops_when_specified (w : World) (query : jsstring)
    (r : Settled (list Msg)) : Prop :=
  forall page env,
    In (lit "search.messages", search_params query page) (calls (log r)) ->
    page_result w query page = Ok env ->
    specified_stop page (data env) = true ->
    ~ In (lit "search.messages", search_params query (page + 1))
         (calls (log r)).

(** A page of matches with the page count. *)
Definition page_of (found : list Msg) (total : Z) : Reply Search.Data :=
  success
    {| Search.messages :=
         Some {| Search.matches := Some found;
                 Search.paging := Some {| Search.pages := Some total |} |} |}.

(* ================================================================== *)
(** * searchMessages *)
(* ================================================================== *)

Record SearchParams := {
  keyword : jsstring;
  startDate : jsstring;
  endDate : jsstring;
  channels : list jsstring
}.

(** [Array.from(new Map(all.map(msg => [key(msg), msg])).values())] *)
Definition dedup_by {K} (dec : forall a b : K, {a = b} + {a <> b})
    (key : Msg -> K) (l : list Msg) : list Msg :=
  Map_values (Map_of dec (map (fun msg => (key msg, msg)) l)).

(** [Array.from(new Map(all.map(msg => [msg.permalink, msg])).values())] *)
Definition uniqueMessages (allSearchResults : list Msg) : list Msg :=
  Map_values
    (Map_of opt_jsstring_eq_dec
       (map (fun msg => (permalink msg, msg)) allSearchResults)).

(** The [forEach] that fills [threadTsToFetch], a map from thread timestamp
    to channel id. *)
Definition threadTsToFetch (uniqueMessages : list Msg)
  : list (jsstring * jsstring) :=
  fold_left
    (fun m msg =>
       match truthy_thread_ts msg with
       | Some thread => Map_set jsstring_eq_dec thread (channel_id msg) m
       | None =>
           if Num.gt0 (reply_count msg) then
             Map_set jsstring_eq_dec (ts msg) (channel_id msg) m
           else m
       end)
    uniqueMessages [].

(** The thread key of a thread-bearing match: its thread timestamp if it
    has one, else its own timestamp if it has replies. *)
Definition fetch_key (msg : Msg) : option jsstring :=
  match truthy_thread_ts msg with
  | Some thread => Some thread
  | None => if Num.gt0 (reply_count msg) then Some (ts msg) else None
  end.

(** The entry that a match adds to [threadTsToFetch]. *)
Definition fetch_entry (msg : Msg) : list (jsstring * jsstring) :=
  match fetch_key msg with
  | Some k => [(k, channel_id msg)]
  | None => []
  end.

Definition pair_eq_dec :
  forall a b : jsstring * jsstring, {a = b} + {a <> b}.
Proof. decide equality; apply jsstring_eq_dec. Defined.

(** The distinct pairs of thread key and channel among the thread-bearing
    matches. *)
Definition thread_pairs (uniqueMessages : list Msg)
  : list (jsstring * jsstring) :=
  nodup pair_eq_dec (flat_map fetch_entry uniqueMessages).

(** [uniqueMessages.filter(msg => !msg.thread_ts && !(msg.reply_count > 0))] *)
Definition standaloneMessages (uniqueMessages : list Msg) : list Msg :=
  filter
    (fun msg => negb (has_thread_ts msg) && negb (Num.gt0 (reply_count msg)))
    uniqueMessages.

(** [Array.from(new Map(all.map(msg => [msg.ts, msg])).values())] *)
Definition finalUniqueMessages (allMessages : list Msg) : list Msg :=
  Map_values
    (Map_of jsstring_eq_dec (map (fun msg => (ts msg, msg)) allMessages)).

(** The body of the [forEach] that groups the messages by thread key:
    create the array of the key if there is none, then push the message. *)
Definition thread_push (m : list (jsstring * list Msg)) (msg : Msg)
  : list (jsstring * list Msg) :=
  let k := threadKey msg in
  let m' := if Map_has jsstring_eq_dec k m then m
            else Map_set jsstring_eq_dec k [] m in
  match Map_get jsstring_eq_dec k m' with
  | Some threadMessages =>
      Map_set jsstring_eq_dec k (threadMessages ++ [msg]) m'
  | None => m'
  end.

Definition threads (finalUniqueMessages : list Msg)
  : list (jsstring * list Msg) :=
  fold_left thread_push finalUniqueMessages [].

(** The messages of [l] whose thread key is [k]. *)
Definition with_key (k : jsstring) (l : list Msg) : list Msg :=
  filter (fun m => if jsstring_eq_dec (threadKey m) k then true else false) l.

(** [(a, b) => parseFloat(a.ts) - parseFloat(b.ts)] *)
Definition by_ts (a b : Msg) : Num.number :=
  Num.sub (Num.parseFloat (ts a)) (Num.parseFloat (ts b)).

(** A timestamp that is a decimal numeral, and its value. *)
Definition finite_ts (m : Msg) : Prop :=
  exists q, Num.parseFloat (ts m) = Num.Finite q.

Definition ts_value (m : Msg) : Q :=
  match Num.parseFloat (ts m) with
  | Num.Finite q => q
  | _ => 0
  end.

(** A comparator that orders the elements of [l] by a rational key. *)
Definition by_key_on {A} (compare : A -> A -> Num.number) (key : A -> Q)
    (l : list A) : Prop :=
  forall x y, In x l -> In y l ->
    (Num.positive (compare x y) = true <-> (key y < key x)%Q).

Definition key_le {A} (key : A -> Q) (x y : A) : Prop := (key x <= key y)%Q.

(** The callback that turns the messages of a thread into the parent with
    its replies; [parent.replies = ...] on an empty array throws. *)
Definition to_conversation (threadMessages : list Msg) : Result Conversation :=
  match Array_sort by_ts threadMessages with
  | parent :: rest => Ok {| parent := parent; replies := rest |}
  | [] => Err TypeError
  end.

Fixpoint map_result {A B} (f : A -> Result B) (l : list A) : Result (list B) :=
  match l with
  | [] => Ok []
  | x :: l' =>
      match f x with
      | Err e => Err e
      | Ok y =>
          match map_result f l' with
          | Ok ys => Ok (y :: ys)
          | Err e => Err e
          end
      end
  end.

(** From [allMessages] to the returned array: deduplicate by timestamp,
    group, order each thread, order the threads by their parents. *)
Definition conversations (allMessages : list Msg) : Result (list Conversation) :=
  match map_result to_conversation
          (Map_values (threads (finalUniqueMessages allMessages))) with
  | Ok cs => Ok (Array_sort (fun a b => by_ts (parent a) (parent b)) cs)
  | Err e => Err e
  end.

Section SearchMessages.
Variable w : World.
Variable signal : option N.
Variable fuel : nat.

(** One element of [variationSearchPromises]. *)
Definition variationSearch (params : SearchParams) (now : N)
    (variation : jsstring) : option (Settled (list Msg)) :=
  let baseQuery :=
    variation ++ lit " after:" ++ startDate params
      ++ lit " before:" ++ endDate params in
  match channels params with
  | _ :: _ =>
      let channelSearchPromises :=
        map (fun channelId =>
               performSearch w signal (baseQuery ++ lit " in:" ++ channelId)
                 fuel now)
            (channels params) in
      option_map
        (fun ps => then_ (@concat Msg) (Promise_all now ps))
        (all_some channelSearchPromises)
  | [] => performSearch w signal baseQuery fuel now
  end.

(** The searches up to [uniqueMessages]. *)
Definition searchPhase (params : SearchParams) (now : N)
  : option (Settled (list Msg)) :=
  let queryVariations := generateQueryVariations (keyword params) in
  option_map
    (fun ps =>
       then_ (fun resultsByVariation => uniqueMessages (concat resultsByVariation))
         (Promise_all now ps))
    (all_some (map (variationSearch params now) queryVariations)).

(** One element of [threadFetchPromises]: the messages of the thread, an
    empty array for any error but an abort. *)
Definition threadFetch (now : N) (entry : jsstring * jsstring)
  : Settled (list Msg) :=
  let (ts, channelId) := entry in
  let r := slackFetch (conversations_replies w channelId ts) signal
             (lit "conversations.replies") GET
             [(lit "channel", PStr channelId); (lit "ts", PStr ts)] now in
  {| outcome :=
       match outcome r with
       | Ok response =>
           Ok (match Replies.messages (data response) with
               | Some found => found
               | None => []
               end)
       | Err AbortError => Err AbortError
       | Err _ => Ok []
       end;
     at_time := at_time r;
     log := log r |}.

(** From [uniqueMessages] to the result. *)
Definition threadPhase (uniqueMessages : list Msg) (now : N)
  : Settled (list Conversation) :=
  let joined := Promise_all now
                  (map (threadFetch now) (threadTsToFetch uniqueMessages)) in
  match outcome joined with
  | Err e => {| outcome := Err e; at_time := at_time joined;
                log := log joined |}
  | Ok results =>
      let fetchedThreads := concat results in
      let allMessages := standaloneMessages uniqueMessages ++ fetchedThreads in
      {| outcome := conversations allMessages; at_time := at_time joined;
         log := log joined |}
  end.

Definition searchMessages (params : SearchParams) (now : N)
  : option (Settled (list Conversation)) :=
  match searchPhase params now with
  | None => None
  | Some found =>
      match outcome found with
      | Err e => Some {| outcome := Err e; at_time := at_time found;
                         log := log found |}
      | Ok uniqueMessages =>
          Some (prepend (log found)
                  (threadPhase uniqueMessages (at_time found)))
      end
  end.
End SearchMessages.

(** What the fetch of a thread settles with. *)
Definition thread_result (w : World) (signal : option N) (now : N)
    (ts channelId : jsstring) : Result (Envelope Replies.Data) :=
  outcome (slackFetch (conversations_replies w channelId ts) signal
             (lit "conversations.replies") GET
             [(lit "channel", PStr channelId); (lit "ts", PStr ts)] now).

(** The call of [conversations.replies] for an entry of [threadTsToFetch]. *)
Definition replies_call (entry : jsstring * jsstring)
  : jsstring * list (jsstring * Param) :=
  (lit "conversations.replies",
   [(lit "channel", PStr (snd entry)); (lit "ts", PStr (fst entry))]).

(** One fetch for every distinct pair of thread key and channel, as the
    specification has it. *)
Definition fetches_every_pair (uniqueMessages : list Msg)
    (r : Settled (list Conversation)) : Prop :=
  forall pair, In pair (thread_pairs uniqueMessages) ->
    In (replies_call pair) (calls (log r)).

(** Thread fetches that only return messages of the thread and the channel
    asked for, the root among them. *)
Definition faithful_replies (w : World) (signal : option N) (now : N)
    (entries : list (jsstring * jsstring)) : Prop :=
  forall thread channelId response found,
    In (thread, channelId) entries ->
    thread_result w signal now thread channelId = Ok response ->
    Replies.messages (data response) = Some found ->
    (forall m, In m found -> channel_id m = channelId /\ threadKey m = thread) /\
    (found <> [] -> exists m, In m found /\ ts m = thread).

(** A message that a thread fetch of the run returned. *)
Definition fetched_message (w : World) (signal : option N) (now : N)
    (entries : list (jsstring * jsstring)) (m : Msg) : Prop :=
  exists thread channelId response found,
    In (thread, channelId) entries /\
    thread_result w signal now thread channelId = Ok response /\
    Replies.messages (data response) = Some found /\
    In m found.

(* ================================================================== *)
(** * Further definitions *)
(* ================================================================== *)

(** A string without its white space. *)
Definition strip_ws (s : jsstring) : jsstring :=
  filter (fun c => negb (is_ws c)) s.

(** [words.join(' ')] *)
Fixpoint join_space (words : list jsstring) : jsstring :=
  match words with
  | [] => []
  | [w] => w
  | w :: rest => w ++ space :: join_space rest
  end.

(** The queries that [searchMessages] sends a search for on behalf of one
    variation: the base query, or one query for each channel. *)
Definition variation_queries (params : SearchParams) (variation : jsstring)
  : list jsstring :=
  let baseQuery :=
    variation ++ lit " after:" ++ startDate params
      ++ lit " before:" ++ endDate params in
  match channels params with
  | _ :: _ =>
      map (fun channelId => baseQuery ++ lit " in:" ++ channelId)
        (channels params)
  | [] => [baseQuery]
  end.

Definition planned_queries (params : SearchParams) : list jsstring :=
  flat_map (variation_queries params)
    (generateQueryVariations (keyword params)).

(** The query of a call that asks for the first page of a search. *)
Definition first_page_query (c : jsstring * list (jsstring * Param))
  : list jsstring :=
  match snd c with
  | [(_, PStr q); _; _; _; (_, PNum 1%Z)] => [q]
  | _ => []
  end.

Definition first_page_queries (l : list Event) : list jsstring :=
  flat_map first_page_query (calls l).


(* ================================================================== *)
(** * getPublicChannels *)
(* ================================================================== *)

Module Channels.
(** A channel as the application keeps it. *)
Record Channel := { id : jsstring; name : jsstring }.
Record Metadata := { next_cursor : option jsstring }.
(** The object of a [conversations.list] response, without [ok]/[error]. *)
Record Data := {
  channels : option (list Channel);
  response_metadata : option Metadata
}.
End Channels.

(** [data.response_metadata?.next_cursor] *)
Definition next_cursor_of (d : Channels.Data) : option jsstring :=
  match Channels.response_metadata d with
  | Some metadata => Channels.next_cursor metadata
  | None => None
  end.

(** A cursor as a condition. *)
Definition truthy_cursor (cursor : option jsstring) : bool :=
  match cursor with
  | Some c => truthy c
  | None => false
  end.

(** The [params] object of an iteration; [exclude_archived] is [true],
    which is sent as the string [true]. *)
Definition list_params (cursor : option jsstring)
  : list (jsstring * Param) :=
  [ (lit "limit", PNum 200);
    (lit "exclude_archived", PStr (lit "true"));
    (lit "types", PStr (lit "public_channel")) ]
  ++ match cursor with
     | Some c => if truthy c then [(lit "cursor", PStr c)] else []
     | None => []
     end.

Section GetPublicChannels.
(** The upstream: a server for the request with each cursor. *)
Variable conversations_list : option jsstring -> Server Channels.Data.
(** [a.localeCompare(b)], which the locale of the browser determines. *)
Variable localeCompare : jsstring -> jsstring -> Z.

(** The [do ... while (cursor)] loop; [None] when [fuel] iterations do not
    reach its end. [data.channels.map] throws when there is no array. *)
Fixpoint getPublicChannels_loop (fuel : nat)
    (allChannels : list Channels.Channel) (cursor : option jsstring)
    (now : N) : option (Settled (list Channels.Channel)) :=
  match fuel with
  | O => None
  | S fuel' =>
      let r := slackFetch (conversations_list cursor) None
                 (lit "conversations.list") GET (list_params cursor) now in
      match outcome r with
      | Err e =>
          Some {| outcome := Err e; at_time := at_time r; log := log r |}
      | Ok response =>
          match Channels.channels (data response) with
          | None =>
              Some {| outcome := Err TypeError; at_time := at_time r;
                      log := log r |}
          | Some listed =>
              let channels :=
                map (fun c => {| Channels.id := Channels.id c;
                                 Channels.name := Channels.name c |})
                    listed in
              let allChannels' := allChannels ++ channels in
              let cursor' := next_cursor_of (data response) in
              if truthy_cursor cursor' then
                option_map (prepend (log r))
                  (getPublicChannels_loop fuel' allChannels' cursor'
                     (at_time r))
              else
                Some {| outcome := Ok allChannels'; at_time := at_time r;
                        log := log r |}
          end
      end
  end.

(** [(a, b) => a.name.localeCompare(b.name)] *)
Definition by_name (a b : Channels.Channel) : Num.number :=
  Num.Finite
    (inject_Z (localeCompare (Channels.name a) (Channels.name b))).

Definition getPublicChannels (fuel : nat) (now : N)
  : option (Settled (list Channels.Channel)) :=
  option_map (then_ (Array_sort by_name))
    (getPublicChannels_loop fuel [] None now).

(** What the request with a cursor settles with. *)
Definition list_result (cursor : option jsstring)
  : Result (Envelope Channels.Data) :=
  outcome (slackFetch (conversations_list cursor) None
             (lit "conversations.list") GET (list_params cursor) 0).

(** The channels of a page. *)
Definition listed_channels (d : Channels.Data) : list Channels.Channel :=
  match Channels.channels d with
  | Some listed => listed
  | None => []
  end.

(** The pages [ds] are what the requests from [cursor] on are answered
    with, each with an array of channels and a cursor for a further page,
    the last of which is [final]. *)
Fixpoint pages_read (cursor : option jsstring) (ds : list Channels.Data)
    (final : option jsstring) : Prop :=
  match ds with
  | [] => final = cursor
  | d :: ds' =>
      (exists env, list_result cursor = Ok env /\ data env = d) /\
      Channels.channels d <> None /\
      truthy_cursor (next_cursor_of d) = true /\
      pages_read (next_cursor_of d) ds' final
  end.

(** The call of [conversations.list] with a cursor. *)
Definition list_call (cursor : option jsstring)
  : jsstring * list (jsstring * Param) :=
  (lit "conversations.list", list_params cursor).

(** [a] is not after [b] in the order of the names. *)
Definition name_le (a b : Channels.Channel) : Prop :=
  (localeCompare (Channels.name a) (Channels.name b) <= 0)%Z.
End GetPublicChannels.

(* ================================================================== *)
(** * withTimeout and verifyToken *)
(* ================================================================== *)

(** What the promises of this part are rejected with: an error that
    [slackFetch] throws, or the error of the timer of [withTimeout]. *)
Inductive Failure :=
  | Thrown (e : Error)
  | TimeoutError.

Record Timed (A : Type) := {
  verdict : A + Failure;
  settled_at : N;
  events : list Event
}.

(** [withTimeout(promise, ms, errorMessage)], called at [now]: the race of
    the promise with a timer of [ms] milliseconds. Nothing stops the work
    behind the promise when the timer wins. A promise that settles in the
    very millisecond of the timer is taken to win. *)
Definition withTimeout {A} (promise : Settled A) (ms : Z) (now : N)
  : Timed A :=
  let deadline := (now + timer_delay (Some ms))%N in
  let evs := log promise ++ [SetTimeout (Some ms) now] in
  if (at_time promise <=? deadline)%N then
    {| verdict := match outcome promise with
                  | Ok a => inl a
                  | Err e => inr (Thrown e)
                  end;
       settled_at := at_time promise;
       events := evs |}
  else
    {| verdict := inr TimeoutError; settled_at := deadline; events := evs |}.

Module Auth.
(** The object of an [auth.test] response, without [ok]/[error]. *)
Record Data := { team_id : jsstring; team : jsstring }.
End Auth.

Module Team.
Record Icon := { image_132 : option jsstring }.
Record Info := { icon : option Icon }.
(** The object of a [team.info] response, without [ok]/[error]. *)
Record Data := { team : option Info }.
End Team.

Module Workspace.
Record t := {
  id : jsstring;
  name : jsstring;
  teamIcon : jsstring;
  scopes : list jsstring
}.
End Workspace.

(** The upstream as the calls of [verifyToken] see it, one server for
    each of them; [team.info] is called twice. *)
Record Upstream := {
  auth_test : Server Auth.Data;
  team_info : jsstring -> Server Team.Data;
  conversations_list_any : Server Channels.Data;
  search_messages_check : Server Search.Data;
  conversations_list_public : Server Channels.Data;
  conversations_history : jsstring -> Server unit;
  team_info_icon : jsstring -> Server Team.Data
}.

(** [promise.then(() => scope).catch(() => null)] *)
Definition scope_check {A} (scope : jsstring) (promise : Settled A)
  : Settled (option jsstring) :=
  {| outcome := Ok (match outcome promise with
                    | Ok _ => Some scope
                    | Err _ => None
                    end);
     at_time := at_time promise;
     log := log promise |}.

(** [array.includes(x)] for an array of strings. *)
Definition Array_includes (x : jsstring) (l : list jsstring) : bool :=
  existsb (fun y => if jsstring_eq_dec y x then true else false) l.

(** [results.filter(scope => scope !== null)] *)
Definition non_null (results : list (option jsstring)) : list jsstring :=
  flat_map (fun scope => match scope with Some s => [s] | None => [] end)
    results.

Section VerifyToken.
Variable u : Upstream.

Definition auth_call (now : N) : Settled (Envelope Auth.Data) :=
  slackFetch (auth_test u) None (lit "auth.test") POST [] now.

Definition team_info_call (team_id : jsstring) (now : N)
  : Settled (Envelope Team.Data) :=
  slackFetch (team_info u team_id) None (lit "team.info") GET
    [(lit "team", PStr team_id)] now.

Definition list_any_call (now : N) : Settled (Envelope Channels.Data) :=
  slackFetch (conversations_list_any u) None (lit "conversations.list") GET
    [(lit "limit", PNum 1)] now.

Definition search_check_call (now : N) : Settled (Envelope Search.Data) :=
  slackFetch (search_messages_check u) None (lit "search.messages") POST
    [(lit "query", PStr (lit "permission-check")); (lit "count", PNum 1)] now.

Definition list_public_call (now : N) : Settled (Envelope Channels.Data) :=
  slackFetch (conversations_list_public u) None (lit "conversations.list")
    GET [(lit "limit", PNum 1); (lit "types", PStr (lit "public_channel"))]
    now.

Definition history_call (channelId : jsstring) (now : N)
  : Settled (Envelope unit) :=
  slackFetch (conversations_history u channelId) None
    (lit "conversations.history") GET
    [(lit "channel", PStr channelId); (lit "limit", PNum 1)] now.

Definition team_icon_call (team_id : jsstring) (now : N)
  : Settled (Envelope Team.Data) :=
  slackFetch (team_info_icon u team_id) None (lit "team.info") GET
    [(lit "team", PStr team_id)] now.

(** The check of [channels:history]: list one public channel and read its
    history; [null] when there is no public channel or a call fails. *)
Definition history_check (now : N) : Settled (option jsstring) :=
  let listed := list_public_call now in
  match outcome listed with
  | Err _ =>
      {| outcome := Ok None; at_time := at_time listed; log := log listed |}
  | Ok channelsData =>
      match Channels.channels (data channelsData) with
      | Some (first :: _) =>
          let channelId := Channels.id first in
          let read := history_call channelId (at_time listed) in
          {| outcome := Ok (match outcome read with
                            | Ok _ => Some (lit "channels:history")
                            | Err _ => None
                            end);
             at_time := at_time read;
             log := log listed ++ log read |}
      | _ =>
          {| outcome := Ok None; at_time := at_time listed;
             log := log listed |}
      end
  end.

Definition scopeCheckPromises (team_id : jsstring) (now : N)
  : list (Settled (option jsstring)) :=
  [ scope_check (lit "team:read") (team_info_call team_id now);
    scope_check (lit "channels:read") (list_any_call now);
    scope_check (lit "search:read") (search_check_call now);
    history_check now ].

(** [teamInfoResponse.team?.icon?.image_132 || ''] *)
Definition icon_of (d : Team.Data) : jsstring :=
  or_else
    match Team.team d with
    | Some info =>
        match Team.icon info with
        | Some icon => Team.image_132 icon
        | None => None
        end
    | None => None
    end
    [].

Definition verifyToken (now : N) : Timed Workspace.t :=
  let auth := withTimeout (auth_call now) 20000 now in
  match verdict auth with
  | inr failure =>
      {| verdict := inr failure; settled_at := settled_at auth;
         events := events auth |}
  | inl authData =>
      let team_id := Auth.team_id (data authData) in
      let team := Auth.team (data authData) in
      let checks :=
        Promise_all (settled_at auth)
          (scopeCheckPromises team_id (settled_at auth)) in
      match outcome checks with
      | Err e =>
          {| verdict := inr (Thrown e); settled_at := at_time checks;
             events := events auth ++ log checks |}
      | Ok results =>
          let grantedScopes := non_null results in
          if Array_includes (lit "team:read") grantedScopes then
            let teamInfoResponse := team_icon_call team_id (at_time checks) in
            {| verdict :=
                 match outcome teamInfoResponse with
                 | Ok response =>
                     inl {| Workspace.id := team_id;
                            Workspace.name := team;
                            Workspace.teamIcon := icon_of (data response);
                            Workspace.scopes := grantedScopes |}
                 | Err e => inr (Thrown e)
                 end;
               settled_at := at_time teamInfoResponse;
               events := events auth ++ log checks ++ log teamInfoResponse |}
          else
            {| verdict :=
                 inl {| Workspace.id := team_id;
                        Workspace.name := team;
                        Workspace.teamIcon := [];
                        Workspace.scopes := grantedScopes |};
               settled_at := at_time checks;
               events := events auth ++ log checks |}
      end
  end.

(** Whether a call succeeds, which does not depend on when it starts. *)
Definition succeeds {A} (call : N -> Settled A) : bool :=
  match outcome (call 0%N) with Ok _ => true | Err _ => false end.

(** The public channel that the check of [channels:history] reads. *)
Definition first_public_channel : option jsstring :=
  match outcome (list_public_call 0) with
  | Ok channelsData =>
      match Channels.channels (data channelsData) with
      | Some (first :: _) => Some (Channels.id first)
      | _ => None
      end
  | Err _ => None
  end.

(** The scopes whose checks succeed, in the order of the checks. *)
Definition checked_scopes (team_id : jsstring) : list jsstring :=
  (if succeeds (team_info_call team_id) then [lit "team:read"] else [])
  ++ (if succeeds list_any_call then [lit "channels:read"] else [])
  ++ (if succeeds search_check_call then [lit "search:read"] else [])
  ++ match first_public_channel with
     | Some channelId =>
         if succeeds (history_call channelId) then [lit "channels:history"]
         else []
     | None => []
     end.
End VerifyToken.

(** The check of the permissions in [handleConnect]. *)
Definition REQUIRED_SCOPES : list jsstring :=
  [lit "search:read"; lit "channels:history"; lit "channels:read";
   lit "team:read"].

(** [new Set(scopes)] and [set.has(x)] *)
Definition Set_of (l : list jsstring) : list jsstring :=
  fold_left (fun s x => Set_add x s) l [].

Definition Set_has (x : jsstring) (s : list jsstring) : bool :=
  if in_dec jsstring_eq_dec x s then true else false.

Definition allPermissionsMet (scopes : list jsstring) : bool :=
  let userScopes := Set_of scopes in
  forallb (fun scope => Set_has scope userScopes) REQUIRED_SCOPES.
(* ================================================================== *)
(** * Scenarios *)
(* ================================================================== *)

(** Thirty-two one-letter words. *)
Definition keyword_32_words : jsstring :=
  lit "a b c d e f g h i j k l m n o p q r s t u v w x y z A B C D E F".

(** A server that rate-limits the first request for thirty seconds. *)
Definition backoff_server : Server unit :=
  scripted 100 [rate_limited (Some (lit "30")); success tt].

(** Three rate-limited replies, then a payload. *)
Definition three_429_server : Server nat :=
  scripted 100 [rate_limited (Some (lit "2")); rate_limited None;
                rate_limited (Some (lit "3")); success 7%nat].

Definition five_429_server : Server nat :=
  scripted 100 [rate_limited (Some (lit "1")); rate_limited (Some (lit "1"));
                rate_limited (Some (lit "1")); rate_limited (Some (lit "1"));
                rate_limited (Some (lit "1")); success 7%nat].

(** Messages of the scenarios. *)
Definition message (permalink ts : string) (thread_ts : option string)
    (reply_count : option Z) (channel text : string) : Msg :=
  {| permalink := Some (lit permalink); ts := lit ts;
     thread_ts := option_map lit thread_ts; reply_count := reply_count;
     channel_id := lit channel; user := lit "U1"; text := lit text |}.

(** Three pages, the first of which is empty. *)
Definition empty_first_page : World :=
  {| search_messages := fun _ page =>
       scripted 50
         [ if (page =? 1)%Z then page_of [] 3
           else if (page =? 2)%Z then
             page_of [message "p2" "2.0" None None "C1" "second"] 3
           else page_of [message "p3" "3.0" None None "C1" "third"] 3 ];
     conversations_replies := fun _ _ => scripted 50 [] |}.

(** Three pages of one match each. *)
Definition three_pages : World :=
  {| search_messages := fun _ page =>
       scripted 50
         [ if (page =? 1)%Z then
             page_of [message "p1" "1.0" None None "C1" "first"] 3
           else if (page =? 2)%Z then
             page_of [message "p2" "2.0" None None "C1" "second"] 3
           else page_of [message "p3" "3.0" None None "C1" "third"] 3 ];
     conversations_replies := fun _ _ => scripted 50 [] |}.

Definition deploy_query : SearchParams :=
  {| keyword := lit "deploy"; startDate := lit "2024-01-01";
     endDate := lit "2024-02-01"; channels := [] |}.

(** Replies of two threads that have the same timestamp in two channels. *)
Definition hit_C1 : Msg :=
  message "pA" "101.0" (Some "100.0"%string) None "C1" "reply in C1".

Definition hit_C2 : Msg :=
  message "pB" "102.0" (Some "100.0"%string) None "C2" "reply in C2".

Definition two_channels : World :=
  {| search_messages := fun _ _ => scripted 50 [page_of [hit_C1; hit_C2] 1];
     conversations_replies := fun channelId thread =>
       scripted 50
         [ success
             {| Replies.messages :=
                  Some [ {| permalink := None; ts := thread;
                            thread_ts := Some thread; reply_count := Some 1%Z;
                            channel_id := channelId; user := lit "U1";
                            text := lit "root" |} ] |} ] |}.

(** The same message found by two searches. *)
Definition found_twice : list (list Msg) :=
  [ [ message "p1" "1.0" None None "C1" "first";
      message "p2" "2.0" None None "C1" "second" ];
    [ message "p2" "2.0" None None "C1" "second" ] ].

(** A root with replies, a reply of another thread and a message without
    thread; the fetch of the first thread fails, the second succeeds. *)
Definition root_one : Msg :=
  message "p1" "1.5" (Some "1.5"%string) (Some 2%Z) "C1" "root one".

Definition reply_two : Msg :=
  message "p2" "10.25" (Some "9.5"%string) None "C1" "reply two".

Definition alone : Msg := message "p3" "7" None None "C1" "alone".

Definition root_two : Msg :=
  message "p4" "9.5" (Some "9.5"%string) (Some 1%Z) "C1" "root two".

Definition server_error {A} : Reply A :=
  Responds {| status := 500; retry_after := None;
              content_type := Some (lit "text/html"); json := None |}.

Definition one_thread_fails : World :=
  {| search_messages := fun _ _ =>
       scripted 50 [page_of [root_one; reply_two; alone] 1];
     conversations_replies := fun _ thread =>
       if jsstring_eq_dec thread (lit "1.5") then scripted 20 [server_error]
       else scripted 30
              [success {| Replies.messages := Some [root_two; reply_two] |}] |}.

(** The same upstream with both fetches answered. *)
Definition both_threads : World :=
  {| search_messages := fun _ _ =>
       scripted 50 [page_of [root_one; reply_two; alone] 1];
     conversations_replies := fun _ thread =>
       if jsstring_eq_dec thread (lit "1.5") then
         scripted 20 [success {| Replies.messages := Some [root_one] |}]
       else scripted 30
              [success {| Replies.messages := Some [root_two; reply_two] |}] |}.

(** A thread fetch that lists a message of another channel. *)
Definition stray : Msg :=
  message "p9" "9.75" (Some "9.5"%string) None "C9" "from elsewhere".

Definition mixed_channels : World :=
  {| search_messages := fun _ _ => scripted 50 [page_of [reply_two] 1];
     conversations_replies := fun _ _ =>
       scripted 30
         [success {| Replies.messages := Some [root_two; stray; reply_two] |}] |}.


(** A rate-limited reply whose [Retry-After] is a date, then a payload. *)
Definition dated_retry_server : Server nat :=
  scripted 100
    [rate_limited (Some (lit "Wed, 21 Oct 2015 07:28:00 GMT")); success 7%nat].

(** A reply that Slack rejects. *)
Definition rejected_server : Server nat :=
  scripted 100
    [Responds {| status := 200; retry_after := None;
                 content_type := Some (lit "application/json");
                 json := Some {| ok := false;
                                 error := Some (lit "missing_scope");
                                 data := 0%nat |} |}].

(** Two pages and a third request that is rejected. *)
Definition third_page_fails : World :=
  {| search_messages := fun _ page =>
       scripted 50
         [ if (page =? 1)%Z then
             page_of [message "p1" "1.0" None None "C1" "first"] 3
           else if (page =? 2)%Z then
             page_of [message "p2" "2.0" None None "C1" "second"] 3
           else server_error ];
     conversations_replies := fun _ _ => scripted 50 [] |}.

(** An upstream that always reports one more page. *)
Definition endless_pages : World :=
  {| search_messages := fun _ page => scripted 50 [page_of [] (page + 1)];
     conversations_replies := fun _ _ => scripted 50 [] |}.

(** A search in two channels for a keyword of two words. *)
Definition two_by_two : SearchParams :=
  {| keyword := lit "shot band"; startDate := lit "2024-01-01";
     endDate := lit "2024-02-01"; channels := [lit "C1"; lit "C2"] |}.

(** A search for thirty-two words. *)
Definition long_query : SearchParams :=
  {| keyword := keyword_32_words; startDate := lit "2024-01-01";
     endDate := lit "2024-02-01"; channels := [] |}.

(** An upstream without matches. *)
Definition nothing_found : World :=
  {| search_messages := fun _ _ => scripted 50 [page_of [] 1];
     conversations_replies := fun _ _ => scripted 50 [] |}.


(** Two pages of channels, the second of which ends the listing with an
    empty cursor. *)
Definition channel (id name : string) : Channels.Channel :=
  {| Channels.id := lit id; Channels.name := lit name |}.

Definition channel_page (listed : list Channels.Channel)
    (cursor : option string) : Channels.Data :=
  {| Channels.channels := Some listed;
     Channels.response_metadata :=
       Some {| Channels.next_cursor := option_map lit cursor |} |}.

Definition two_channel_pages (cursor : option jsstring)
  : Server Channels.Data :=
  match cursor with
  | None =>
      scripted 40
        [success (channel_page [channel "C2" "random"; channel "C1" "general"]
                    (Some "next"%string))]
  | Some _ =>
      scripted 40
        [success {| Channels.channels := Some [channel "C3" "dev"];
                    Channels.response_metadata :=
                      Some {| Channels.next_cursor := Some [] |} |}]
  end.

(** A second page that Slack rejects. *)
Definition second_list_fails (cursor : option jsstring)
  : Server Channels.Data :=
  match cursor with
  | None =>
      scripted 40
        [success (channel_page [channel "C2" "random"] (Some "next"%string))]
  | Some _ => scripted 40 [server_error]
  end.

(** A comparison of names by their first code units. *)
Definition by_first_unit (a b : jsstring) : Z :=
  (Z.of_N (hd 0%N a) - Z.of_N (hd 0%N b))%Z.

(** A workspace whose token has every scope. *)
Definition acme_auth : Auth.Data :=
  {| Auth.team_id := lit "T1"; Auth.team := lit "Acme" |}.

Definition acme_team : Team.Data :=
  {| Team.team :=
       Some {| Team.icon :=
                 Some {| Team.image_132 := Some (lit "icon.png") |} |} |}.

Definition no_matches : Search.Data := {| Search.messages := None |}.

Definition full_access : Upstream :=
  {| auth_test := scripted 100 [success acme_auth];
     team_info := fun _ => scripted 30 [success acme_team];
     conversations_list_any :=
       scripted 20 [success (channel_page [channel "C1" "general"] None)];
     search_messages_check := scripted 60 [success no_matches];
     conversations_list_public :=
       scripted 20 [success (channel_page [channel "C1" "general"] None)];
     conversations_history := fun _ => scripted 25 [success tt];
     team_info_icon := fun _ => scripted 30 [success acme_team] |}.

(** The same workspace without a public channel. *)
Definition no_public_channel : Upstream :=
  {| auth_test := auth_test full_access;
     team_info := team_info full_access;
     conversations_list_any := conversations_list_any full_access;
     search_messages_check := search_messages_check full_access;
     conversations_list_public := scripted 20 [success (channel_page [] None)];
     conversations_history := conversations_history full_access;
     team_info_icon := team_info_icon full_access |}.

(** The same workspace when the second [team.info] is not answered. *)
Definition icon_unreachable : Upstream :=
  {| auth_test := auth_test full_access;
     team_info := team_info full_access;
     conversations_list_any := conversations_list_any full_access;
     search_messages_check := search_messages_check full_access;
     conversations_list_public := conversations_list_public full_access;
     conversations_history := conversations_history full_access;
     team_info_icon := fun _ => scripted 30 [] |}.

(** An [auth.test] that is rate-limited for thirty seconds. *)
Definition slow_auth : Upstream :=
  {| auth_test :=
       scripted 100 [rate_limited (Some (lit "30")); success acme_auth];
     team_info := team_info full_access;
     conversations_list_any := conversations_list_any full_access;
     search_messages_check := search_messages_check full_access;
     conversations_list_public := conversations_list_public full_access;
     conversations_history := conversations_history full_access;
     team_info_icon := team_info_icon full_access |}.
Unset Implicit Arguments.

(* ================================================================== *)
(** * Properties of generateQueryVariations *)
(* ================================================================== *)

Lemma split_go_nonempty b s : split_go b s <> [].
Proof.
  revert b; induction s as [|c s IH]; intros b; simpl; [discriminate|].
  destruct (is_ws c).
  - destruct b; [apply IH | discriminate].
  - destruct (split_go false s); discriminate.
Qed.

(** Empty pieces are the only trace of where a separator started. *)
Lemma words_split_go b s :
  filter truthy (split_go b s) = filter truthy (split_go false s).
Proof.
  destruct s as [|c s]; simpl; [reflexivity|].
  destruct (is_ws c); [destruct b; reflexivity | reflexivity].
Qed.

Lemma words_of_ws_prefix pre s :
  forallb is_ws pre = true -> words_of (pre ++ s) = words_of s.
Proof.
  unfold words_of, split_ws.
  induction pre as [|c pre IH]; simpl; intros H; [reflexivity|].
  apply andb_true_iff in H as [Hc Hpre]. rewrite Hc. simpl.
  rewrite words_split_go. auto.
Qed.

Lemma split_go_ws_only b s :
  forallb is_ws s = true -> filter truthy (split_go b s) = [].
Proof.
  revert b; induction s as [|c s IH]; intros b H; simpl; [reflexivity|].
  simpl in H. apply andb_true_iff in H as [Hc Hs]. rewrite Hc.
  destruct b; simpl; auto.
Qed.

Lemma split_go_word w post :
  forallb (fun c => negb (is_ws c)) w = true ->
  forallb is_ws post = true ->
  w <> [] ->
  filter truthy (split_go false (w ++ post)) = [w].
Proof.
  induction w as [|c w IH]; intros Hw Hpost Hne; [congruence|].
  simpl in Hw. apply andb_true_iff in Hw as [Hc Hw].
  apply negb_true_iff in Hc. simpl. rewrite Hc.
  destruct w as [|c' w].
  - simpl. pose proof (split_go_ws_only false post Hpost) as E.
    destruct (split_go false post) as [|p ps] eqn:S0;
      [exfalso; eapply split_go_nonempty; eauto|].
    destruct post as [|d post]; simpl in S0.
    + inversion S0; subst. reflexivity.
    + simpl in Hpost. apply andb_true_iff in Hpost as [Hd _].
      rewrite Hd in S0. inversion S0; subst. simpl in E. simpl. rewrite E.
      reflexivity.
  - assert (IH' := IH Hw Hpost ltac:(discriminate)).
    destruct (split_go false ((c' :: w) ++ post)) as [|p ps] eqn:S0;
      [exfalso; eapply split_go_nonempty; eauto|].
    simpl in IH'. simpl.
    destruct p as [|x p]; simpl in IH'.
    + exfalso. simpl in S0. simpl in Hw.
      apply andb_true_iff in Hw as [Hc' _]. apply negb_true_iff in Hc'.
      rewrite Hc' in S0. destruct (split_go false (w ++ post)); discriminate.
    + inversion IH'; subst. reflexivity.
Qed.

Lemma at_most_one_word_words keyword :
  at_most_one_word keyword -> (length (words_of keyword) <= 1)%nat.
Proof.
  intros (pre & w & post & -> & Hpre & Hw & Hpost).
  rewrite words_of_ws_prefix by assumption.
  unfold words_of, split_ws. destruct w as [|c w].
  - simpl. rewrite split_go_ws_only by assumption. simpl; lia.
  - rewrite split_go_word by (assumption || discriminate). simpl; lia.
Qed.

(** C10. A keyword with at most one word, be it empty or made of white
    space only, is returned as the only variation, exactly as it was given;
    the list of variations is then not empty. *)
Theorem generateQueryVariations_at_most_one_word (keyword : jsstring) :
  (length (words_of keyword) <= 1)%nat \/ at_most_one_word keyword ->
  generateQueryVariations keyword = [keyword] /\
  generateQueryVariations keyword <> [].
Proof.
  intros H.
  assert (Hlen : (length (words_of keyword) <= 1)%nat).
  { destruct H as [H|H]; [exact H | apply at_most_one_word_words, H]. }
  assert (E : generateQueryVariations keyword = [keyword]).
  { unfold generateQueryVariations.
    apply Nat.leb_le in Hlen. rewrite Hlen. reflexivity. }
  split; [exact E | rewrite E; discriminate].
Qed.

Lemma generateQueryVariations_at_most_one_word_witness :
  generateQueryVariations [] = [[]] /\
  generateQueryVariations (lit "   ") = [lit "   "] /\
  generateQueryVariations (lit "  deploy ") = [lit "  deploy "].
Proof.
  split; [|split].
  - apply (generateQueryVariations_at_most_one_word []).
    left. vm_compute. lia.
  - apply (generateQueryVariations_at_most_one_word (lit "   ")).
    right. exists (lit "   "), [], []. repeat split; reflexivity.
  - apply (generateQueryVariations_at_most_one_word (lit "  deploy ")).
    right. exists (lit "  "), (lit "deploy"), (lit " ").
    repeat split; reflexivity.
Defined.

(** C8, at a keyword of thirty-two words. [1 << 31] is negative as a 32-bit
    integer, so the loop over the bitmasks does not run and no variation is
    returned, although the keyword itself is one of the spacing
    permutations of its words. *)
Theorem generateQueryVariations_32_words :
  length (words_of keyword_32_words) = 32%nat /\
  shl32 1 31 = (- 2 ^ 31)%Z /\
  generateQueryVariations keyword_32_words = [] /\
  spacing_permutation (words_of keyword_32_words) (repeat true 31)
    = keyword_32_words.
Proof. repeat split; vm_compute; reflexivity. Qed.

(** ** Keywords of two to thirty-one words *)

Lemma fold_Set_add {I} (f : I -> jsstring) (L : list I) (init : list jsstring) :
  let R := fold_left (fun v i => Set_add (f i) v) L init in
  (forall x, In x R <-> In x init \/ In x (map f L)) /\
  (NoDup init -> NoDup R) /\
  (length R <= length init + length L)%nat.
Proof.
  revert init; induction L as [|i L IH]; intros init; simpl.
  - repeat split; auto; try tauto; lia.
  - specialize (IH (Set_add (f i) init)). simpl in IH.
    destruct IH as (IHin & IHnd & IHlen).
    assert (Hadd : forall x, In x (Set_add (f i) init) <-> In x init \/ x = f i).
    { intros x. unfold Set_add. destruct (in_dec jsstring_eq_dec (f i) init).
      - split; [auto | intros [H| ->]; auto].
      - rewrite in_app_iff. simpl. intuition. }
    repeat split.
    + intros H. apply IHin in H. rewrite Hadd in H.
      destruct H as [[H|H]|H]; auto.
    + intros H. apply IHin. rewrite Hadd. destruct H as [H|[H|H]]; auto.
    + intros Hnd. apply IHnd. unfold Set_add.
      destruct (in_dec jsstring_eq_dec (f i) init); [assumption|].
      apply NoDup_app; [assumption | repeat constructor; simpl; tauto|].
      intros x Hx [<-|[]]. contradiction.
    + etransitivity; [exact IHlen|]. unfold Set_add.
      destruct (in_dec jsstring_eq_dec (f i) init);
        [|rewrite length_app; simpl]; lia.
Qed.

Lemma to_int32_small z : (- 2 ^ 31 <= z < 2 ^ 31)%Z -> to_int32 z = z.
Proof. intros H. unfold to_int32. rewrite Z.mod_small; lia. Qed.

Lemma shl32_one k : (0 <= k <= 30)%Z -> shl32 1 k = (2 ^ k)%Z.
Proof.
  intros H. unfold shl32. rewrite (to_int32_small 1) by lia.
  rewrite Z.mod_small by lia. rewrite Z.shiftl_1_l.
  apply to_int32_small.
  assert (2 ^ k <= 2 ^ 30)%Z by (apply Z.pow_le_mono_r; lia).
  assert (0 < 2 ^ k)%Z by (apply Z.pow_pos_nonneg; lia). lia.
Qed.

(** [(i >> j) & 1] reads bit [j] of [i]. *)
Lemma mask_bit i j :
  (0 <= i < 2 ^ 31)%Z -> (0 <= j < 32)%Z ->
  (and32 (sar32 i j) 1 =? 0)%Z = negb (Z.testbit i j).
Proof.
  intros Hi Hj. unfold and32, sar32.
  rewrite (to_int32_small i) by lia. rewrite (Z.mod_small j) by lia.
  assert (Hs : (0 <= Z.shiftr i j < 2 ^ 31)%Z).
  { rewrite Z.shiftr_div_pow2 by lia.
    assert (0 < 2 ^ j)%Z by (apply Z.pow_pos_nonneg; lia).
    split; [apply Z.div_pos; lia|].
    apply Z.div_lt_upper_bound; nia. }
  rewrite (to_int32_small (Z.shiftr i j)) by lia.
  rewrite (to_int32_small 1) by lia.
  change 1%Z with (Z.ones 1) at 1. rewrite Z.land_ones by lia.
  change (2 ^ 1)%Z with 2%Z.
  assert (Hm : (0 <= Z.shiftr i j mod 2 < 2)%Z) by (apply Z.mod_pos_bound; lia).
  rewrite to_int32_small by lia.
  rewrite Zmod_odd. rewrite <- Z.bit0_odd, Z.shiftr_spec by lia.
  rewrite Z.add_0_l. destruct (Z.testbit i j); reflexivity.
Qed.

Lemma join_with_snoc w rs bs r b :
  length rs = length bs ->
  join_with w (rs ++ [r]) (bs ++ [b])
  = join_with w rs bs ++ (if b then [space] else []) ++ r.
Proof.
  revert w bs; induction rs as [|r0 rs IH]; intros w [|b0 bs] H;
    simpl in *; try discriminate.
  - reflexivity.
  - rewrite IH by lia. rewrite <- !app_assoc. reflexivity.
Qed.

Lemma variation_of_join w0 rest i k :
  (0 <= i < 2 ^ 31)%Z -> (k <= length rest)%nat -> (k <= 32)%nat ->
  variation_of (w0 :: rest) k i = join_with w0 (firstn k rest) (bits_of i k).
Proof.
  intros Hi. unfold variation_of, bits_of. simpl nth.
  induction k as [|k IH]; intros Hk Hk'; [reflexivity|].
  rewrite seq_S, fold_left_app, IH by lia. simpl fold_left.
  rewrite map_app. simpl map.
  assert (Hf : firstn (S k) rest = firstn k rest ++ [nth k rest []]).
  { clear -Hk. revert k Hk; induction rest as [|r rest IH]; intros k Hk;
      simpl in *; [lia|].
    destruct k; simpl; [reflexivity|]. f_equal. apply IH. lia. }
  rewrite Hf, join_with_snoc
    by (rewrite length_firstn, length_map, length_seq; lia).
  rewrite mask_bit by lia. replace (k + 1)%nat with (S k) by lia. simpl nth.
  destruct (Z.testbit i (Z.of_nat k)); simpl;
    rewrite <- ?app_assoc; reflexivity.
Qed.

Lemma bits_of_surjective (bits : list bool) :
  exists i, (0 <= i < 2 ^ Z.of_nat (length bits))%Z /\
            bits_of i (length bits) = bits.
Proof.
  induction bits as [|b bits (i & Hi & E)].
  - exists 0%Z. split; [simpl; lia | reflexivity].
  - exists (2 * i + Z.b2z b)%Z. split.
    + simpl length. rewrite Nat2Z.inj_succ, Z.pow_succ_r by lia.
      destruct b; simpl Z.b2z; lia.
    + unfold bits_of in *. simpl length. rewrite <- cons_seq, <- seq_shift.
      rewrite map_cons, map_map. change (Z.of_nat 0) with 0%Z.
      rewrite Z.testbit_0_r. f_equal.
      rewrite <- E at 2. apply map_ext. intros j.
      rewrite Nat2Z.inj_succ. apply Z.testbit_succ_r. lia.
Qed.

(** For two to thirty-one words the result is the set of the spacing
    permutations: each occurs once, and there are at most
    [2 ^ (words.length - 1)] of them. *)
Lemma generateQueryVariations_permutations (keyword : jsstring) :
  let words := words_of keyword in
  (2 <= length words <= 31)%nat ->
  (forall v, In v (generateQueryVariations keyword) <->
             exists bits, length bits = (length words - 1)%nat /\
                          v = spacing_permutation words bits) /\
  NoDup (generateQueryVariations keyword) /\
  (length (generateQueryVariations keyword) <= 2 ^ (length words - 1))%nat.
Proof.
  intros words Hlen. unfold generateQueryVariations. fold words.
  destruct (length words <=? 1)%nat eqn:E; [apply Nat.leb_le in E; lia|].
  destruct words as [|w0 rest] eqn:Ew; [simpl in Hlen; lia|].
  cbv zeta.
  replace (length (w0 :: rest) - 1)%nat with (length rest) by (simpl; lia).
  simpl length in *.
  rewrite shl32_one by lia.
  set (k := length rest).
  pose proof (fold_Set_add (variation_of (w0 :: rest) k)
                (map Z.of_nat (seq 0 (Z.to_nat (2 ^ Z.of_nat k)))) [])
    as (Hin & Hnd & Hl).
  assert (Hpow : (0 < 2 ^ Z.of_nat k <= 2 ^ 30)%Z).
  { split; [apply Z.pow_pos_nonneg; lia | apply Z.pow_le_mono_r; lia]. }
  repeat split.
  - intros H. apply Hin in H as [[]|H].
    apply in_map_iff in H as (i & <- & Hi).
    apply in_map_iff in Hi as (n & <- & Hn). apply in_seq in Hn.
    exists (bits_of (Z.of_nat n) k). split.
    + unfold bits_of. rewrite length_map, length_seq. reflexivity.
    + rewrite variation_of_join by (unfold k; lia).
      unfold k. rewrite firstn_all. reflexivity.
  - intros (bits & Hb & ->). apply Hin. right.
    destruct (bits_of_surjective bits) as (i & Hi & Ei).
    rewrite Hb in Hi, Ei. fold k in Hi, Ei.
    apply in_map_iff. exists i. split.
    + rewrite variation_of_join by (unfold k; lia).
      unfold k at 1. rewrite firstn_all, Ei. reflexivity.
    + apply in_map_iff. exists (Z.to_nat i). split; [lia|].
      apply in_seq. lia.
  - apply Hnd. constructor.
  - etransitivity; [exact Hl|]. simpl. rewrite length_map, length_seq.
    apply Nat2Z.inj_le. rewrite Z2Nat.id by lia.
    rewrite Nat2Z.inj_pow. simpl Z.of_nat. lia.
Qed.

Lemma generateQueryVariations_three_words :
  generateQueryVariations (lit "a b c")
  = [lit "abc"; lit "a bc"; lit "ab c"; lit "a b c"].
Proof. reflexivity. Qed.

(* ================================================================== *)
(** * Properties of slackFetch *)
(* ================================================================== *)

Lemma digit_cases d : is_digit d ->
  In d [0; 1; 2; 3; 4; 5; 6; 7; 8; 9]%Z.
Proof. unfold is_digit. simpl. lia. Qed.

Lemma read_digits_numeral ds :
  Forall is_digit ds -> Num.read_digits (numeral ds) = (ds, []).
Proof.
  induction 1 as [|d ds Hd _ IH]; [reflexivity|].
  simpl. rewrite IH.
  apply digit_cases in Hd. simpl in Hd.
  repeat (destruct Hd as [<-|Hd]; [reflexivity|]). destruct Hd.
Qed.

Lemma parseInt_numeral d ds :
  Forall is_digit (d :: ds) ->
  Num.parseInt (numeral (d :: ds)) = Some (Num.digits_value (d :: ds)).
Proof.
  intros H. pose proof (read_digits_numeral _ H) as E.
  inversion H as [|? ? Hd Hds]; subst.
  unfold Num.parseInt.
  assert (Hs : Num.read_sign (Num.skip_ws (numeral (d :: ds)))
               = (false, numeral (d :: ds))).
  { apply digit_cases in Hd. simpl in Hd.
    repeat (destruct Hd as [<-|Hd]; [reflexivity|]). destruct Hd. }
  rewrite Hs, E. reflexivity.
Qed.

Lemma retryAfterMs_numeral d ds :
  Forall is_digit (d :: ds) ->
  retryAfterMs (Some (numeral (d :: ds)))
  = Some (Num.digits_value (d :: ds) * 1000)%Z.
Proof.
  intros H. unfold retryAfterMs.
  assert (E : or_else (Some (numeral (d :: ds))) (lit "1") = numeral (d :: ds))
    by reflexivity.
  rewrite E, parseInt_numeral by assumption. reflexivity.
Qed.

Lemma prepend_prepend {A} (a b : list Event) (s : Settled A) :
  prepend a (prepend b s) = prepend (a ++ b) s.
Proof. unfold prepend. simpl. rewrite app_assoc. reflexivity. Qed.

Lemma fetches_app a b : fetches (a ++ b) = fetches a ++ fetches b.
Proof. apply filter_app. Qed.

Lemma timeouts_app a b : timeouts (a ++ b) = timeouts a ++ timeouts b.
Proof. apply flat_map_app. Qed.

Lemma calls_app a b : calls (a ++ b) = calls a ++ calls b.
Proof. apply flat_map_app. Qed.

Section SlackFetchFacts.
Context {A : Type}.
Variable srv : Server A.
Variable request : HttpRequest.

(** Each iteration of the loop that fetches uses up one of the retries,
    and a timer is only set between two fetches. *)
Lemma slackFetch_loop_bound signal retries attempt now :
  let r := slackFetch_loop srv signal request retries attempt now in
  (length (fetches (log r)) <= retries)%nat /\
  (length (timeouts (log r)) < Nat.max 1 (length (fetches (log r))))%nat /\
  (0 < retries -> 0 < length (fetches (log r)))%nat /\
  calls (log r) = [].
Proof.
  revert attempt now.
  induction retries as [|retries IH]; intros attempt now.
  - simpl. repeat split; simpl; lia.
  - cbn [slackFetch_loop].
    destruct (fetch srv signal attempt now) as [[response|e] t];
      [|simpl; repeat split; lia].
    destruct (status response =? 429)%Z.
    + specialize (IH (S attempt)
                    (t + timer_delay (retryAfterMs (retry_after response)))%N).
      remember (slackFetch_loop srv signal request retries (S attempt)
                  (t + timer_delay (retryAfterMs (retry_after response))))
        as rest eqn:Erest.
      clear Erest. cbv zeta in IH. destruct IH as (IH1 & IH2 & IH4 & IH3).
      destruct retries as [|retries']; [simpl; repeat split; lia|].
      unfold prepend. cbn [log].
      rewrite fetches_app, timeouts_app, calls_app, IH3. simpl.
      repeat split; lia.
    + destruct (is_json response);
        [destruct (json response)|]; simpl; repeat split; lia.
Qed.

(** Without a signal, what a call settles with does not depend on when it
    starts. *)
Lemma slackFetch_loop_outcome_time retries attempt now now' :
  outcome (slackFetch_loop srv None request retries attempt now)
  = outcome (slackFetch_loop srv None request retries attempt now').
Proof.
  revert attempt now now'.
  induction retries as [|retries IH]; intros attempt now now';
    [reflexivity|].
  cbn [slackFetch_loop fetch].
  destruct (reply srv attempt) as [response|]; [|reflexivity].
  destruct (status response =? 429)%Z.
  - destruct retries; [reflexivity|]. unfold prepend. cbn [outcome].
    apply IH.
  - destruct (is_json response);
      [destruct (json response)|]; reflexivity.
Qed.

(** One rate-limited reply with retries left. *)
Lemma slackFetch_loop_429 retries attempt now r :
  reply srv attempt = Responds r -> status r = 429%Z ->
  slackFetch_loop srv None request (S (S retries)) attempt now
  = prepend [Fetched request now;
             SetTimeout (retryAfterMs (retry_after r))
               (now + latency srv attempt)%N]
      (slackFetch_loop srv None request (S retries) (S attempt)
         (now + latency srv attempt
          + timer_delay (retryAfterMs (retry_after r)))%N).
Proof.
  intros Er Es. remember (S retries) as k eqn:Ek.
  cbn [slackFetch_loop fetch]. rewrite Er, Es. cbn [Z.eqb Pos.eqb].
  destruct k; [discriminate | reflexivity].
Qed.

(** A run of rate-limited replies: each is followed by its timer and the
    next attempt, as long as retries remain. *)
Lemma slackFetch_loop_429s hs : forall retries attempt now,
  (forall i, (i < length hs)%nat ->
     exists r, reply srv (attempt + i) = Responds r /\
               status r = 429%Z /\ retry_after r = nth i hs None) ->
  (length hs < retries)%nat ->
  exists evs now',
    slackFetch_loop srv None request retries attempt now
    = prepend evs
        (slackFetch_loop srv None request (retries - length hs)
           (attempt + length hs) now') /\
    timeouts evs = map retryAfterMs hs /\
    length (fetches evs) = length hs.
Proof.
  induction hs as [|h hs IH]; intros retries attempt now Hr Hlen.
  - exists [], now. simpl. rewrite Nat.sub_0_r, Nat.add_0_r.
    split; [|auto]. unfold prepend.
    destruct (slackFetch_loop srv None request retries attempt now);
      reflexivity.
  - simpl in Hlen.
    destruct retries as [|[|retries]]; [lia | lia |].
    destruct (Hr 0%nat ltac:(simpl; lia)) as (r & Er & Es & Eh).
    rewrite Nat.add_0_r in Er. simpl in Eh.
    destruct (IH (S retries) (S attempt)
                (now + latency srv attempt
                 + timer_delay (retryAfterMs (retry_after r)))%N)
      as (evs & now' & E & Et & Ef).
    { intros i Hi. destruct (Hr (S i) ltac:(simpl; lia)) as (r' & ? & ? & ?).
      exists r'. rewrite Nat.add_succ_comm. auto. }
    { lia. }
    exists ([Fetched request now;
             SetTimeout (retryAfterMs (retry_after r))
               (now + latency srv attempt)%N] ++ evs), now'.
    split; [|split].
    + rewrite (slackFetch_loop_429 _ _ _ r Er Es), E, prepend_prepend.
      replace (S (S retries) - length (h :: hs))%nat
        with (S retries - length hs)%nat by (simpl; lia).
      replace (attempt + length (h :: hs))%nat
        with (S attempt + length hs)%nat by (simpl; lia).
      reflexivity.
    + rewrite timeouts_app, Et, Eh. reflexivity.
    + rewrite fetches_app, length_app, Ef. reflexivity.
Qed.
End SlackFetchFacts.

Lemma rate_limits_firstn {A} (srv : Server A) hs n :
  rate_limits srv hs -> rate_limits srv (firstn n hs).
Proof.
  intros H i Hi. rewrite length_firstn in Hi.
  destruct (H i ltac:(lia)) as (r & ? & ? & E). exists r.
  repeat split; auto. rewrite E.
  rewrite <- (firstn_skipn n hs) at 1.
  rewrite app_nth1 by (rewrite length_firstn; lia). reflexivity.
Qed.

(** A call that is rate-limited [length hs] times, at most four, and then
    answered. *)
Lemma slackFetch_retries_then_success {A} (srv : Server A) hs payload
    endpoint method body now :
  rate_limits srv hs -> (length hs <= 4)%nat ->
  reply srv (length hs) = success payload ->
  let r := slackFetch srv None endpoint method body now in
  outcome r = Ok {| ok := true; error := None; data := payload |} /\
  timeouts (log r) = map retryAfterMs hs /\
  length (fetches (log r)) = S (length hs).
Proof.
  intros Hrl Hlen Hok. unfold slackFetch.
  destruct (slackFetch_loop_429s srv (build_request endpoint method body)
              hs 5 0 now) as (evs & now' & E & Et & Ef);
    [exact Hrl | lia |].
  rewrite E. simpl Nat.add.
  destruct (5 - length hs)%nat as [|k] eqn:Ek; [lia|].
  cbn [slackFetch_loop fetch]. rewrite Hok. unfold success.
  cbn -[fetches timeouts].
  unfold fetches, timeouts in *. cbn [filter flat_map app].
  rewrite filter_app, flat_map_app, Et, length_app, Ef. simpl.
  rewrite app_nil_r. repeat split; lia.
Qed.

(** A call that is rate-limited five times. *)
Lemma slackFetch_retries_exhausted {A} (srv : Server A) hs
    endpoint method body now :
  rate_limits srv hs -> (5 <= length hs)%nat ->
  let r := slackFetch srv None endpoint method body now in
  outcome r = Err Ratelimited /\
  timeouts (log r) = map retryAfterMs (firstn 4 hs) /\
  length (fetches (log r)) = 5%nat.
Proof.
  intros Hrl Hlen. unfold slackFetch.
  assert (L4 : length (firstn 4 hs) = 4%nat) by (rewrite length_firstn; lia).
  destruct (slackFetch_loop_429s srv (build_request endpoint method body)
              (firstn 4 hs) 5 0 now) as (evs & now' & E & Et & Ef);
    [apply rate_limits_firstn, Hrl | lia |].
  rewrite E, L4. simpl Nat.add. simpl Nat.sub.
  destruct (Hrl 4%nat ltac:(lia)) as (r & Er & Es & _).
  cbn [slackFetch_loop fetch]. rewrite Er, Es.
  cbn -[fetches timeouts Ratelimited].
  unfold fetches, timeouts in *. cbn [filter flat_map app].
  rewrite filter_app, flat_map_app, Et, length_app, Ef, L4. simpl.
  rewrite app_nil_r. repeat split; lia.
Qed.



(** ** Cancellation *)

(** The signal firing while the request is in flight rejects the call at
    that moment. *)
Lemma slackFetch_abort_in_flight {A} (srv : Server A) fired
    endpoint method body now :
  (now < fired < now + latency srv 0)%N ->
  let r := slackFetch srv (Some fired) endpoint method body now in
  outcome r = Err AbortError /\ at_time r = fired.
Proof.
  intros H. unfold slackFetch. cbn [slackFetch_loop fetch].
  destruct (fired <=? now)%N eqn:E1; [apply N.leb_le in E1; lia|].
  destruct (fired <? now + latency srv 0)%N eqn:E2;
    [|apply N.ltb_ge in E2; lia].
  split; reflexivity.
Qed.

(** The signal firing during the backoff does not end the timer: the call
    is rejected when the timer has run out and the next request finds the
    signal aborted. *)
Lemma slackFetch_abort_in_backoff {A} (srv : Server A) r fired
    endpoint method body now :
  reply srv 0 = Responds r -> status r = 429%Z ->
  let arrival := (now + latency srv 0)%N in
  let wake := (arrival + timer_delay (retryAfterMs (retry_after r)))%N in
  (now < fired)%N -> (arrival <= fired <= wake)%N ->
  let s := slackFetch srv (Some fired) endpoint method body now in
  outcome s = Err AbortError /\ at_time s = wake.
Proof.
  intros Er Es arrival wake Hnow H. unfold slackFetch.
  assert (E1 : (fired <=? now)%N = false) by (apply N.leb_gt; lia).
  assert (E2 : (fired <? arrival)%N = false) by (apply N.ltb_ge; lia).
  assert (E3 : (fired <=? wake)%N = true) by (apply N.leb_le; lia).
  unfold wake, arrival in *.
  cbn [slackFetch_loop fetch]. rewrite E1, E2, Er, Es.
  cbn [Z.eqb Pos.eqb prepend outcome at_time]. rewrite E3.
  split; reflexivity.
Qed.

(** C7, at a call whose first request is answered after 100 ms by a 429
    with [Retry-After: 30], the signal firing at 1000 ms. The timer of
    30000 ms set at 100 ms runs to its end, and the call is only rejected
    at 30100 ms, by the request that follows it. *)
Theorem slackFetch_backoff_outlasts_abort :
  let r := slackFetch backoff_server (Some 1000%N)
             (lit "search.messages") POST [] 0 in
  outcome r = Err AbortError /\
  at_time r = 30100%N /\
  log r = [ Called (lit "search.messages") [] 0;
            Fetched (build_request (lit "search.messages") POST []) 0;
            SetTimeout (Some 30000%Z) 100;
            Fetched (build_request (lit "search.messages") POST []) 30100 ].
Proof. repeat split. Qed.

(* ================================================================== *)
(** * Properties of performSearch *)
(* ================================================================== *)

Lemma slackFetch_outcome_time {A} (srv : Server A) endpoint method body now :
  outcome (slackFetch srv None endpoint method body now)
  = outcome (slackFetch srv None endpoint method body 0).
Proof. unfold slackFetch, prepend. cbn [outcome]. apply slackFetch_loop_outcome_time. Qed.

Lemma slackFetch_calls {A} (srv : Server A) signal endpoint method body now :
  calls (log (slackFetch srv signal endpoint method body now))
  = [(endpoint, body)].
Proof.
  unfold slackFetch, prepend. cbn [log]. rewrite calls_app.
  pose proof (slackFetch_loop_bound srv (build_request endpoint method body)
                signal 5 0 now) as (_ & _ & _ & E).
  rewrite E. reflexivity.
Qed.

Lemma hasMore_iff page d :
  hasMore page d = true <->
  exists m pg total,
    Search.messages d = Some m /\ Search.paging m = Some pg /\
    Search.pages pg = Some total /\ (page < total)%Z.
Proof.
  unfold hasMore. split.
  - destruct (Search.messages d) as [m|] eqn:Em; [|discriminate].
    destruct (Search.paging m) as [pg|] eqn:Ep; [|discriminate].
    destruct (Search.pages pg) as [total|] eqn:Et; [|discriminate].
    intros H. apply Z.ltb_lt in H. exists m, pg, total. auto.
  - intros (m & pg & total & -> & -> & -> & H). apply Z.ltb_lt, H.
Qed.

(** The loop over the pages [page], [page + 1], ... whose payloads are
    [ds], the last of which is the first to report no further page. *)
Lemma performSearch_loop_run w query ds : forall fuel acc page now,
  ds <> [] ->
  (forall i d, nth_error ds i = Some d ->
     exists env, page_result w query (page + Z.of_nat i) = Ok env /\
                 data env = d) ->
  (forall i d, nth_error ds i = Some d ->
     hasMore (page + Z.of_nat i) d = negb (S i =? length ds)%nat) ->
  (length ds <= fuel)%nat ->
  exists r,
    performSearch_loop w None query fuel acc page now = Some r /\
    outcome r = Ok (fold_left accumulate ds acc) /\
    calls (log r)
    = map (fun i => (lit "search.messages",
                     search_params query (page + Z.of_nat i)))
        (seq 0 (length ds)).
Proof.
  induction ds as [|d ds IH]; intros fuel acc page now Hne Hres Hmore Hfuel;
    [congruence|].
  destruct fuel as [|fuel]; [simpl in Hfuel; lia|].
  destruct (Hres 0%nat d eq_refl) as (env & Eenv & Ed).
  pose proof (Hmore 0%nat d eq_refl) as Hm0.
  rewrite Z.add_0_r in Eenv, Hm0. unfold page_result in Eenv.
  cbn [performSearch_loop].
  rewrite slackFetch_outcome_time, Eenv, Ed, Hm0.
  destruct ds as [|d' ds].
  - cbn [length Nat.eqb negb]. eexists. split; [reflexivity|].
    split; [reflexivity|].
    cbn [log length seq map Z.of_nat].
    rewrite slackFetch_calls, Z.add_0_r. reflexivity.
  - assert (E : (1 =? length (d :: d' :: ds))%nat = false) by reflexivity.
    rewrite E. cbn [negb].
    destruct (IH fuel (accumulate acc d) (page + 1)%Z
                (at_time (slackFetch (search_messages w query page) None
                            (lit "search.messages") POST
                            (search_params query page) now)))
      as (r & Er & Eo & Ec).
    + discriminate.
    + intros i x Hi. destruct (Hres (S i) x Hi) as (e & ? & ?). exists e.
      replace (page + 1 + Z.of_nat i)%Z with (page + Z.of_nat (S i))%Z by lia.
      auto.
    + intros i x Hi. pose proof (Hmore (S i) x Hi) as Hx.
      replace (page + Z.of_nat (S i))%Z with (page + 1 + Z.of_nat i)%Z
        in Hx by lia.
      exact Hx.
    + simpl in Hfuel |- *. lia.
    + rewrite Er. cbn [option_map]. eexists. split; [reflexivity|].
      split; [exact Eo|].
      unfold prepend. cbn [log]. rewrite calls_app, slackFetch_calls.
      change (length (d :: d' :: ds)) with (S (length (d' :: ds))).
      rewrite <- cons_seq, <- seq_shift, map_cons, map_map, Ec.
      cbn [app Z.of_nat]. rewrite Z.add_0_r. f_equal.
      apply map_ext. intros i. do 2 f_equal. lia.
Qed.

(** C3, as the code has it. The executor requests page 1 and then page
    after page, in order, and goes on exactly while the paging metadata of
    the page just read reports a page count above the current page number;
    whether that page had matches plays no part. It returns the matches of
    the pages requested, concatenated. Three pages that each report three
    pages make three requests. *)
Theorem performSearch_pagination :
  (forall w query ds fuel now,
     ds <> [] ->
     (forall i d, nth_error ds i = Some d ->
        exists env, page_result w query (1 + Z.of_nat i) = Ok env /\
                    data env = d) ->
     (forall i d, nth_error ds i = Some d ->
        hasMore (1 + Z.of_nat i) d = negb (S i =? length ds)%nat) ->
     (length ds <= fuel)%nat ->
     exists r,
       performSearch w None query fuel now = Some r /\
       outcome r = Ok (fold_left accumulate ds []) /\
       calls (log r)
       = map (fun i => (lit "search.messages",
                        search_params query (1 + Z.of_nat i)))
           (seq 0 (length ds))) /\
  (forall page d,
     hasMore page d = true <->
     exists m pg total,
       Search.messages d = Some m /\ Search.paging m = Some pg /\
       Search.pages pg = Some total /\ (page < total)%Z) /\
  (forall w query m1 m2 m3 now,
     reply (search_messages w query 1) 0 = page_of m1 3 ->
     reply (search_messages w query 2) 0 = page_of m2 3 ->
     reply (search_messages w query 3) 0 = page_of m3 3 ->
     exists r,
       performSearch w None query 3 now = Some r /\
       outcome r = Ok (m1 ++ m2 ++ m3) /\
       calls (log r)
       = [ (lit "search.messages", search_params query 1);
           (lit "search.messages", search_params query 2);
           (lit "search.messages", search_params query 3) ]).
Proof.
  split; [|split].
  - intros. unfold performSearch. apply performSearch_loop_run; assumption.
  - exact hasMore_iff.
  - intros w query m1 m2 m3 now H1 H2 H3.
    pose (d := fun found =>
      {| Search.messages :=
           Some {| Search.matches := Some found;
                   Search.paging := Some {| Search.pages := Some 3%Z |} |} |}).
    destruct (performSearch_loop_run w query [d m1; d m2; d m3] 3 [] 1 now)
      as (r & Er & Eo & Ec).
    + discriminate.
    + intros i x Hi. unfold page_result, slackFetch.
      destruct i as [|[|[|i]]]; simpl in Hi;
        [injection Hi as <- .. | destruct i; discriminate];
        cbn [slackFetch_loop fetch Z.of_nat Z.add Pos.add Pos.of_succ_nat
             Pos.succ];
        [rewrite H1 | rewrite H2 | rewrite H3];
        eexists; split; reflexivity.
    + intros i x Hi.
      destruct i as [|[|[|i]]]; simpl in Hi;
        [injection Hi as <- .. | destruct i; discriminate]; reflexivity.
    + simpl; lia.
    + exists r. unfold performSearch. rewrite Er, Eo, Ec. simpl.
      rewrite app_assoc. repeat split.
Qed.

Lemma performSearch_pagination_witness :
  exists r,
    performSearch three_pages None (lit "deploy") 3 0 = Some r /\
    outcome r = Ok [ message "p1" "1.0" None None "C1" "first";
                     message "p2" "2.0" None None "C1" "second";
                     message "p3" "3.0" None None "C1" "third" ] /\
    length (calls (log r)) = 3%nat.
Proof.
  destruct performSearch_pagination as (H & _ & _).
  destruct (H three_pages (lit "deploy")
              [ {| Search.messages :=
                     Some {| Search.matches :=
                               Some [message "p1" "1.0" None None "C1" "first"];
                             Search.paging :=
                               Some {| Search.pages := Some 3%Z |} |} |};
                {| Search.messages :=
                     Some {| Search.matches :=
                               Some [message "p2" "2.0" None None "C1" "second"];
                             Search.paging :=
                               Some {| Search.pages := Some 3%Z |} |} |};
                {| Search.messages :=
                     Some {| Search.matches :=
                               Some [message "p3" "3.0" None None "C1" "third"];
                             Search.paging :=
                               Some {| Search.pages := Some 3%Z |} |} |} ]
              3%nat 0%N) as (r & Er & Eo & Ec).
  - discriminate.
  - intros i x Hi. destruct i as [|[|[|i]]]; simpl in Hi;
      [injection Hi as <- .. | destruct i; discriminate];
      eexists; split; reflexivity.
  - intros i x Hi. destruct i as [|[|[|i]]]; simpl in Hi;
      [injection Hi as <- .. | destruct i; discriminate]; reflexivity.
  - simpl; lia.
  - exists r. rewrite Er, Eo, Ec. repeat split.
Defined.

(** C3 as stated fails: the first of three pages has no matches, and the
    executor still requests the second and the third. *)
Lemma performSearch_continues_after_empty_page :
  exists r,
    performSearch empty_first_page None (lit "deploy") 3 0 = Some r /\
    calls (log r)
    = [ (lit "search.messages", search_params (lit "deploy") 1);
        (lit "search.messages", search_params (lit "deploy") 2);
        (lit "search.messages", search_params (lit "deploy") 3) ] /\
    ~ stops_when_specified empty_first_page (lit "deploy") r.
Proof.
  eexists. split; [reflexivity|]. split; [reflexivity|].
  intros H.
  eapply (H 1%Z); [left; reflexivity | reflexivity | reflexivity |].
  right; left; reflexivity.
Qed.

(* ================================================================== *)
(** * Maps in insertion order *)
(* ================================================================== *)

Section MapFacts.
Context {K V : Type}.
Variable dec : forall a b : K, {a = b} + {a <> b}.

Lemma Map_get_set k v k' (m : list (K * V)) :
  Map_get dec k' (Map_set dec k v m)
  = if dec k' k then Some v else Map_get dec k' m.
Proof.
  induction m as [|[k0 v0] m IH]; simpl.
  - destruct (dec k' k); reflexivity.
  - destruct (dec k k0) as [->|Hne]; simpl.
    + destruct (dec k' k0); reflexivity.
    + destruct (dec k' k0) as [->|Hne'].
      * destruct (dec k0 k); [congruence | reflexivity].
      * exact IH.
Qed.

Lemma Map_set_keys k v (m : list (K * V)) :
  map fst (Map_set dec k v m)
  = if in_dec dec k (map fst m) then map fst m else map fst m ++ [k].
Proof.
  induction m as [|[k0 v0] m IH]; simpl; [reflexivity|].
  destruct (dec k k0) as [->|Hne]; simpl.
  - destruct (dec k0 k0); [|congruence].
    destruct (in_dec dec k0 (map fst m)); reflexivity.
  - rewrite IH. destruct (dec k0 k); [congruence|].
    destruct (in_dec dec k (map fst m)); reflexivity.
Qed.

Lemma Map_set_keys_In k v (m : list (K * V)) k' :
  In k' (map fst (Map_set dec k v m)) <-> k' = k \/ In k' (map fst m).
Proof.
  rewrite Map_set_keys. destruct (in_dec dec k (map fst m)).
  - intuition congruence.
  - rewrite in_app_iff. simpl. intuition.
Qed.

Lemma Map_set_NoDup k v (m : list (K * V)) :
  NoDup (map fst m) -> NoDup (map fst (Map_set dec k v m)).
Proof.
  intros H. rewrite Map_set_keys.
  destruct (in_dec dec k (map fst m)); [assumption|].
  apply NoDup_app; [assumption | repeat constructor; simpl; tauto|].
  intros x Hx [<-|[]]. contradiction.
Qed.

(** With distinct keys, the entries are what [get] returns. *)
Lemma Map_get_In k v (m : list (K * V)) :
  NoDup (map fst m) -> (In (k, v) m <-> Map_get dec k m = Some v).
Proof.
  induction m as [|[k0 v0] m IH]; simpl; intros Hnd.
  - split; [tauto | discriminate].
  - inversion Hnd as [|? ? Hk0 Hm]; subst.
    destruct (dec k k0) as [->|Hne].
    + split.
      * intros [E|Hin]; [congruence|].
        exfalso. apply Hk0. apply in_map_iff. exists (k0, v). auto.
      * intros E. left. congruence.
    + rewrite <- (IH Hm). intuition congruence.
Qed.

Lemma Map_of_snoc (es : list (K * V)) e :
  Map_of dec (es ++ [e]) = Map_set dec (fst e) (snd e) (Map_of dec es).
Proof. unfold Map_of. rewrite fold_left_app. reflexivity. Qed.

Lemma Map_of_NoDup (es : list (K * V)) : NoDup (map fst (Map_of dec es)).
Proof.
  induction es as [|e es IH] using rev_ind; [constructor|].
  rewrite Map_of_snoc. apply Map_set_NoDup, IH.
Qed.

Lemma Map_of_keys (es : list (K * V)) k :
  In k (map fst (Map_of dec es)) <-> In k (map fst es).
Proof.
  induction es as [|e es IH] using rev_ind; [reflexivity|].
  rewrite Map_of_snoc, Map_set_keys_In, IH, map_app, in_app_iff.
  simpl. intuition.
Qed.

(** [new Map(entries)] maps a key to the value of its last entry. *)
Lemma Map_of_get (es : list (K * V)) k v :
  Map_get dec k (Map_of dec es) = Some v <->
  exists es1 es2,
    es = es1 ++ (k, v) :: es2 /\ ~ In k (map fst es2).
Proof.
  induction es as [|[k0 v0] es IH] using rev_ind.
  - simpl. split; [discriminate|].
    intros (es1 & es2 & E & _). destruct es1; discriminate.
  - rewrite Map_of_snoc, Map_get_set. simpl fst; simpl snd.
    destruct (dec k k0) as [->|Hne].
    + split.
      * intros E. injection E as ->. exists es, []. simpl. tauto.
      * intros (es1 & es2 & E & Hn).
        destruct es2 as [|e2 es2 _] using rev_ind.
        -- apply app_inj_tail in E as [_ E]. congruence.
        -- exfalso. apply Hn.
           rewrite app_comm_cons, app_assoc in E.
           apply app_inj_tail in E as [_ <-].
           rewrite map_app, in_app_iff. simpl. tauto.
    + rewrite IH. split.
      * intros (es1 & es2 & -> & Hn).
        exists es1, (es2 ++ [(k0, v0)]).
        rewrite <- app_assoc. split; [reflexivity|].
        rewrite map_app, in_app_iff. simpl. intuition congruence.
      * intros (es1 & es2 & E & Hn).
        destruct es2 as [|e2 es2 _] using rev_ind.
        -- apply app_inj_tail in E as [_ E]. congruence.
        -- rewrite app_comm_cons, app_assoc in E.
           apply app_inj_tail in E as [-> _].
           exists es1, es2. split; [reflexivity|].
           intros Hin. apply Hn. rewrite map_app, in_app_iff. tauto.
Qed.
End MapFacts.

(** ** Deduplication by a key *)

Section Dedup.
Context {K : Type}.
Variable dec : forall a b : K, {a = b} + {a <> b}.
Variable key : Msg -> K.
Local Abbreviation dedup := (dedup_by dec key).

Lemma dedup_entries (l : list Msg) k v :
  In (k, v) (Map_of dec (map (fun msg => (key msg, msg)) l)) -> k = key v.
Proof.
  intros H. apply Map_get_In with (dec := dec) in H;
    [|apply Map_of_NoDup].
  apply Map_of_get in H as (es1 & es2 & E & _).
  assert (Hin : In (k, v) (map (fun msg => (key msg, msg)) l))
    by (rewrite E, in_app_iff; simpl; auto).
  apply in_map_iff in Hin as (x & Ex & _). congruence.
Qed.

Lemma dedup_keys (l : list Msg) :
  map key (dedup l) = map fst (Map_of dec (map (fun msg => (key msg, msg)) l)).
Proof.
  unfold dedup_by, Map_values. rewrite map_map.
  apply map_ext_in. intros [k v] H. simpl.
  symmetry. apply (dedup_entries l), H.
Qed.

Lemma dedup_NoDup (l : list Msg) : NoDup (map key (dedup l)).
Proof. rewrite dedup_keys. apply Map_of_NoDup. Qed.

Lemma dedup_same_keys (l : list Msg) k :
  In k (map key (dedup l)) <-> In k (map key l).
Proof.
  rewrite dedup_keys, Map_of_keys, map_map. simpl. reflexivity.
Qed.

(** What survives is, for each key, the last message that has it. *)
Lemma dedup_last (l : list Msg) m :
  In m (dedup l) <->
  exists l1 l2, l = l1 ++ m :: l2 /\ ~ In (key m) (map key l2).
Proof.
  unfold dedup_by, Map_values. split.
  - intros H. apply in_map_iff in H as ([k v] & E & H). simpl in E. subst v.
    pose proof (dedup_entries l _ _ H) as ->.
    apply Map_get_In with (dec := dec) in H; [|apply Map_of_NoDup].
    apply Map_of_get in H as (es1 & es2 & E & Hn).
    apply map_eq_app in E as (l1 & l2' & -> & <- & E).
    apply map_eq_cons in E as (x & l2 & -> & Ex & <-).
    injection Ex as _ ->.
    exists l1, l2. split; [reflexivity|].
    rewrite map_map in Hn. exact Hn.
  - intros (l1 & l2 & -> & Hn).
    apply in_map_iff. exists (key m, m). split; [reflexivity|].
    apply Map_get_In with (dec := dec); [apply Map_of_NoDup|].
    apply Map_of_get.
    exists (map (fun msg => (key msg, msg)) l1),
           (map (fun msg => (key msg, msg)) l2).
    rewrite map_app. split; [reflexivity|].
    rewrite map_map. exact Hn.
Qed.

Lemma dedup_incl (l : list Msg) m : In m (dedup l) -> In m l.
Proof.
  intros H. apply dedup_last in H as (l1 & l2 & -> & _).
  rewrite in_app_iff. simpl. auto.
Qed.

Lemma dedup_covers (l : list Msg) m :
  In m l -> exists m', In m' (dedup l) /\ key m' = key m.
Proof.
  intros H. assert (Hk : In (key m) (map key (dedup l))).
  { apply dedup_same_keys, in_map, H. }
  apply in_map_iff in Hk as (m' & E & Hm'). eauto.
Qed.
End Dedup.

(* ================================================================== *)
(** * Sorting *)
(* ================================================================== *)

Section SortFacts.
Context {A : Type}.
Variable compare : A -> A -> Num.number.

Lemma sort_insert_perm x l : Permutation (sort_insert compare x l) (x :: l).
Proof.
  induction l as [|y l IH]; simpl; [reflexivity|].
  destruct (Num.positive (compare x y)); [|reflexivity].
  rewrite IH. apply perm_swap.
Qed.

Lemma Array_sort_perm l : Permutation (Array_sort compare l) l.
Proof.
  induction l as [|x l IH]; simpl; [reflexivity|].
  rewrite sort_insert_perm. apply perm_skip, IH.
Qed.

Lemma Array_sort_In l x : In x (Array_sort compare l) <-> In x l.
Proof.
  split; apply Permutation_in;
    [apply Array_sort_perm | symmetry; apply Array_sort_perm].
Qed.

Lemma Array_sort_nil l : Array_sort compare l = [] -> l = [].
Proof.
  intros H. apply Permutation_nil. rewrite <- H. apply Array_sort_perm.
Qed.

(** A comparator that is the difference of rational keys. *)
Variable key : A -> Q.

Local Abbreviation by_key_on := (by_key_on compare key).
Local Abbreviation key_le := (key_le key).

Lemma sort_insert_sorted x l :
  by_key_on (x :: l) ->
  StronglySorted key_le l -> StronglySorted key_le (sort_insert compare x l).
Proof.
  intros Hc Hs. induction Hs as [|y l Hs IH Hy]; simpl.
  - repeat constructor.
  - destruct (Num.positive (compare x y)) eqn:E.
    + assert (Hyx : (key y < key x)%Q) by (apply Hc; simpl; auto).
      constructor.
      * apply IH. intros a b Ha Hb. apply Hc; simpl in *; tauto.
      * apply Forall_forall. intros z Hz.
        apply (Permutation_in _ (sort_insert_perm x l)) in Hz.
        destruct Hz as [<-|Hz]; [apply Qlt_le_weak, Hyx|].
        rewrite Forall_forall in Hy. apply Hy, Hz.
    + assert (Hxy : (key x <= key y)%Q).
      { apply Qnot_lt_le. intros Hlt.
        apply Hc in Hlt; simpl; auto. congruence. }
      constructor; [constructor; assumption|].
      constructor; [exact Hxy|].
      rewrite Forall_forall in Hy |- *. intros z Hz.
      unfold key_le in *. eapply Qle_trans; [exact Hxy | apply Hy, Hz].
Qed.

Lemma Array_sort_sorted l :
  by_key_on l -> StronglySorted key_le (Array_sort compare l).
Proof.
  induction l as [|x l IH]; intros Hc; simpl; [constructor|].
  apply sort_insert_sorted.
  - intros a b Ha Hb. apply Hc.
    + destruct Ha as [<-|Ha]; [left; reflexivity|].
      right. apply Array_sort_In, Ha.
    + destruct Hb as [<-|Hb]; [left; reflexivity|].
      right. apply Array_sort_In, Hb.
  - apply IH. intros a b Ha Hb. apply Hc; right; assumption.
Qed.
End SortFacts.

(** Adjacent elements of a sorted list. *)
Lemma StronglySorted_adjacent {A} (R : A -> A -> Prop) l i a b :
  StronglySorted R l ->
  nth_error l i = Some a -> nth_error l (S i) = Some b -> R a b.
Proof.
  intros Hs. revert i. induction Hs as [|x l Hs IH Hx]; intros i Ha Hb.
  - destruct i; discriminate.
  - destruct i as [|i]; simpl in Ha, Hb.
    + injection Ha as <-. rewrite Forall_forall in Hx.
      apply Hx. exact (nth_error_In l 0 Hb).
    + eapply IH; eassumption.
Qed.

(** The comparator on timestamps, where they are finite numbers. *)
Lemma by_ts_key a b :
  finite_ts a -> finite_ts b ->
  (Num.positive (by_ts a b) = true <-> (ts_value b < ts_value a)%Q).
Proof.
  intros [qa Ea] [qb Eb]. unfold by_ts, ts_value. rewrite Ea, Eb. simpl.
  rewrite negb_true_iff. split.
  - intros H. apply Qnot_le_lt. intros Hle.
    assert (Hb : Qle_bool (qa - qb)%Q 0%Q = true).
    { apply Qle_bool_iff. unfold Qminus. 
      apply Qle_minus_iff in Hle. apply Qle_minus_iff.
      rewrite Qplus_0_l. 
      setoid_replace (- (qa + - qb))%Q with (qb + - qa)%Q by ring. exact Hle. }
    congruence.
  - intros Hlt. destruct (Qle_bool (qa - qb)%Q 0%Q) eqn:E; [|reflexivity].
    apply Qle_bool_iff in E. exfalso.
    apply (Qlt_not_le _ _ Hlt).
    apply Qle_minus_iff in E. apply Qle_minus_iff.
    rewrite Qplus_0_l in E.
    setoid_replace (qb + - qa)%Q with (- (qa - qb))%Q by ring. exact E.
Qed.

(* ================================================================== *)
(** * Grouping and assembling *)
(* ================================================================== *)

Lemma thread_push_get m msg k :
  Map_get jsstring_eq_dec k (thread_push m msg)
  = if jsstring_eq_dec k (threadKey msg) then
      Some (match Map_get jsstring_eq_dec k m with
            | Some g => g ++ [msg]
            | None => [msg]
            end)
    else Map_get jsstring_eq_dec k m.
Proof.
  unfold thread_push, Map_has. cbv zeta.
  destruct (Map_get jsstring_eq_dec (threadKey msg) m) as [g|] eqn:E.
  - rewrite E, Map_get_set.
    destruct (jsstring_eq_dec k (threadKey msg)) as [->|]; [rewrite E|];
      reflexivity.
  - rewrite Map_get_set.
    destruct (jsstring_eq_dec (threadKey msg) (threadKey msg)); [|congruence].
    rewrite !Map_get_set.
    destruct (jsstring_eq_dec k (threadKey msg)) as [->|];
      [rewrite E|]; reflexivity.
Qed.

Lemma thread_push_NoDup m msg :
  NoDup (map fst m) -> NoDup (map fst (thread_push m msg)).
Proof.
  intros H. unfold thread_push. cbv zeta.
  destruct (Map_has jsstring_eq_dec (threadKey msg) m);
    destruct (Map_get jsstring_eq_dec (threadKey msg) _);
    repeat apply Map_set_NoDup; assumption.
Qed.

Lemma threads_snoc l msg : threads (l ++ [msg]) = thread_push (threads l) msg.
Proof. unfold threads. rewrite fold_left_app. reflexivity. Qed.

Lemma threads_NoDup l : NoDup (map fst (threads l)).
Proof.
  induction l as [|x l IH] using rev_ind; [constructor|].
  rewrite threads_snoc. apply thread_push_NoDup, IH.
Qed.

Lemma with_key_In k l m : In m (with_key k l) <-> In m l /\ threadKey m = k.
Proof.
  unfold with_key. rewrite filter_In.
  destruct (jsstring_eq_dec (threadKey m) k); intuition congruence.
Qed.

(** The array of a key holds the messages of that key, in their order. *)
Lemma threads_get l k :
  Map_get jsstring_eq_dec k (threads l)
  = match with_key k l with
    | [] => None
    | g => Some g
    end.
Proof.
  induction l as [|x l IH] using rev_ind; [reflexivity|].
  rewrite threads_snoc, thread_push_get, IH. unfold with_key.
  rewrite filter_app. simpl.
  destruct (jsstring_eq_dec k (threadKey x)) as [->|Hne].
  - destruct (jsstring_eq_dec (threadKey x) (threadKey x)); [|congruence].
    destruct (filter _ l); reflexivity.
  - destruct (jsstring_eq_dec (threadKey x) k); [congruence|].
    rewrite app_nil_r. reflexivity.
Qed.

Lemma threads_In l k g :
  In (k, g) (threads l) <-> g = with_key k l /\ g <> [].
Proof.
  rewrite (Map_get_In jsstring_eq_dec) by apply threads_NoDup.
  rewrite threads_get. destruct (with_key k l) eqn:E.
  - split; [discriminate | intros [-> H]; congruence].
  - split; [intros H; injection H as <-; split; [reflexivity | discriminate]
           | intros [-> _]; reflexivity].
Qed.

Lemma to_conversation_members g c :
  to_conversation g = Ok c -> members c = Array_sort by_ts g.
Proof.
  unfold to_conversation, members.
  destruct (Array_sort by_ts g); [discriminate|].
  intros H. injection H as <-. reflexivity.
Qed.

Lemma to_conversation_total g :
  g <> [] -> exists c, to_conversation g = Ok c.
Proof.
  intros H. unfold to_conversation.
  destruct (Array_sort by_ts g) eqn:E; [|eauto].
  apply Array_sort_nil in E. contradiction.
Qed.

Lemma map_result_Ok {A B} (f : A -> Result B) l ys :
  map_result f l = Ok ys -> Forall2 (fun x y => f x = Ok y) l ys.
Proof.
  revert ys; induction l as [|x l IH]; simpl; intros ys H.
  - injection H as <-. constructor.
  - destruct (f x) eqn:Ex; [|discriminate].
    destruct (map_result f l); [|discriminate].
    injection H as <-. constructor; auto.
Qed.

Lemma map_result_total {A B} (f : A -> Result B) l :
  (forall x, In x l -> exists y, f x = Ok y) ->
  exists ys, map_result f l = Ok ys.
Proof.
  induction l as [|x l IH]; simpl; intros H; [eauto|].
  destruct (H x (or_introl eq_refl)) as (y & ->).
  destruct IH as (ys & ->); [intros; apply H; auto|]. eauto.
Qed.

Lemma Forall2_In_r {A B} (R : A -> B -> Prop) l l' y :
  Forall2 R l l' -> In y l' -> exists x, In x l /\ R x y.
Proof.
  induction 1 as [|x0 y0 l l' H0 _ IH]; simpl; [tauto|].
  intros [<-|Hy]; [eauto|]. destruct (IH Hy) as (x & ? & ?). eauto.
Qed.

Lemma Forall2_In_l {A B} (R : A -> B -> Prop) l l' x :
  Forall2 R l l' -> In x l -> exists y, In y l' /\ R x y.
Proof.
  induction 1 as [|x0 y0 l l' H0 _ IH]; simpl; [tauto|].
  intros [<-|Hx]; [eauto|]. destruct (IH Hx) as (y & ? & ?). eauto.
Qed.

(** The returned array: it always exists; each of its elements is the
    sorted group of one thread key of the deduplicated messages, and each
    of those messages is in one of them. *)
Lemma conversations_spec allMessages :
  let final := finalUniqueMessages allMessages in
  exists cs,
    map_result to_conversation (Map_values (threads final)) = Ok cs /\
    conversations allMessages
    = Ok (Array_sort (fun a b => by_ts (parent a) (parent b)) cs) /\
    (forall c, In c cs ->
       exists k, members c = Array_sort by_ts (with_key k final) /\
                 with_key k final <> []) /\
    (forall m, In m final -> exists c, In c cs /\ In m (members c)).
Proof.
  intros final. unfold conversations. fold final.
  destruct (map_result_total to_conversation (Map_values (threads final)))
    as (cs & E).
  { intros g Hg. apply in_map_iff in Hg as ([k g'] & <- & Hg).
    apply threads_In in Hg as [_ Hne]. apply to_conversation_total, Hne. }
  exists cs. rewrite E. split; [reflexivity|]. split; [reflexivity|].
  apply map_result_Ok in E. split.
  - intros c Hc. destruct (Forall2_In_r _ _ _ _ E Hc) as (g & Hg & Hgc).
    apply in_map_iff in Hg as ([k g'] & <- & Hg). simpl in Hgc.
    apply threads_In in Hg as [-> Hne]. exists k.
    split; [apply to_conversation_members, Hgc | exact Hne].
  - intros m Hm.
    assert (Hg : In (threadKey m, with_key (threadKey m) final) (threads final)).
    { apply threads_In. split; [reflexivity|].
      intros E0. assert (Hin : In m (with_key (threadKey m) final))
        by (apply with_key_In; auto).
      rewrite E0 in Hin. destruct Hin. }
    assert (Hv : In (with_key (threadKey m) final) (Map_values (threads final))).
    { apply in_map_iff. eexists. split; [|exact Hg]. reflexivity. }
    destruct (Forall2_In_l _ _ _ _ E Hv) as (c & Hc & Hgc).
    exists c. split; [exact Hc|].
    rewrite (to_conversation_members _ _ Hgc). apply Array_sort_In.
    apply with_key_In. auto.
Qed.

(* ================================================================== *)
(** * Properties of searchMessages *)
(* ================================================================== *)

Lemma first_rejection_None {A} (ps : list (Settled A)) :
  first_rejection ps = None ->
  Forall2 (fun p a => outcome p = Ok a) ps (fulfilled ps).
Proof.
  induction ps as [|p ps IH]; simpl; [constructor|].
  destruct (outcome p) eqn:E.
  - intros H. constructor; auto.
  - destruct (first_rejection ps) as [[e' t']|];
      [destruct (t' <? at_time p)%N|]; discriminate.
Qed.

Lemma first_rejection_Some {A} (ps : list (Settled A)) e t :
  first_rejection ps = Some (e, t) -> exists p, In p ps /\ outcome p = Err e.
Proof.
  revert e t. induction ps as [|p ps IH]; simpl; intros e t; [discriminate|].
  destruct (outcome p) eqn:E.
  - intros H. destruct (IH _ _ H) as (q & ? & ?). eauto.
  - destruct (first_rejection ps) as [[e' t']|] eqn:F.
    + destruct (t' <? at_time p)%N; intros H; injection H as <- <-.
      * destruct (IH _ _ eq_refl) as (q & ? & ?). eauto.
      * eauto.
    + intros H. injection H as <- <-. eauto.
Qed.

Lemma all_fulfilled {A} (ps : list (Settled A)) :
  (forall p, In p ps -> exists a, outcome p = Ok a) ->
  first_rejection ps = None.
Proof.
  induction ps as [|p ps IH]; simpl; intros H; [reflexivity|].
  destruct (H p (or_introl eq_refl)) as (a & ->). apply IH. auto.
Qed.

Lemma Promise_all_Ok {A} now (ps : list (Settled A)) rs :
  outcome (Promise_all now ps) = Ok rs ->
  Forall2 (fun p a => outcome p = Ok a) ps rs.
Proof.
  unfold Promise_all. destruct (first_rejection ps) as [[e t]|] eqn:E.
  - discriminate.
  - simpl. intros H. injection H as <-. apply first_rejection_None, E.
Qed.

Lemma Promise_all_log {A} now (ps : list (Settled A)) :
  log (Promise_all now ps) = concat (map (@log A) ps).
Proof.
  unfold Promise_all. destruct (first_rejection ps) as [[e t]|]; reflexivity.
Qed.

Lemma fulfilled_concat_In {A B} (f : A -> Result (list B)) l l' y :
  Forall2 (fun x ys => f x = Ok ys) l l' ->
  (In y (concat l') <-> exists x ys, In x l /\ f x = Ok ys /\ In y ys).
Proof.
  induction 1 as [|x0 ys0 l l' H0 _ IH]; simpl.
  - split; [tauto | intros (? & ? & [] & _)].
  - rewrite in_app_iff, IH. split.
    + intros [H|(x & ys & ? & ? & ?)]; [exists x0, ys0 | exists x, ys]; auto.
    + intros (x & ys & [<-|Hx] & HR & Hy).
      * left. congruence.
      * right. exists x, ys. auto.
Qed.

(** ** The merge of the search results *)

Lemma searchPhase_merged w signal fuel params now found u :
  searchPhase w signal fuel params now = Some found ->
  outcome found = Ok u ->
  exists tasks, u = uniqueMessages (concat tasks).
Proof.
  unfold searchPhase. destruct (all_some _) as [ps|]; [|discriminate].
  simpl. intros H. injection H as <-. simpl.
  destruct (outcome (Promise_all now ps)) as [tasks|]; [|discriminate].
  intros H. injection H as <-. eauto.
Qed.

(** C9. The merge of the results of the search tasks holds one match for
    every permalink that occurs in them and no other: the last one that
    carries it. Of several matches with one permalink, from whichever tasks,
    exactly one is kept. What the search phase of [searchMessages] yields
    is such a merge. *)
Theorem uniqueMessages_one_per_permalink :
  (forall tasks : list (list Msg),
     let merged := uniqueMessages (concat tasks) in
     NoDup (map permalink merged) /\
     (forall p, In p (map permalink merged) <->
                In p (map permalink (concat tasks))) /\
     (forall m, In m merged <->
                exists l1 l2, concat tasks = l1 ++ m :: l2 /\
                              ~ In (permalink m) (map permalink l2)) /\
     (forall m, In m (concat tasks) ->
        count_occ opt_jsstring_eq_dec (map permalink merged) (permalink m)
        = 1%nat)) /\
  (forall w signal fuel params now found u,
     searchPhase w signal fuel params now = Some found ->
     outcome found = Ok u ->
     exists tasks, u = uniqueMessages (concat tasks)).
Proof.
  split; [|exact searchPhase_merged].
  intros tasks merged.
  assert (Hnd : NoDup (map permalink merged))
    by apply (dedup_NoDup opt_jsstring_eq_dec permalink).
  assert (Hk : forall p, In p (map permalink merged) <->
                         In p (map permalink (concat tasks)))
    by apply (dedup_same_keys opt_jsstring_eq_dec permalink).
  split; [exact Hnd|]. split; [exact Hk|]. split.
  - apply (dedup_last opt_jsstring_eq_dec permalink).
  - intros m Hm.
    assert (Hin : In (permalink m) (map permalink merged))
      by (apply Hk, in_map, Hm).
    apply (count_occ_In opt_jsstring_eq_dec) in Hin.
    pose proof (proj1 (NoDup_count_occ opt_jsstring_eq_dec _) Hnd
                  (permalink m)).
    lia.
Qed.

Lemma uniqueMessages_one_per_permalink_witness :
  uniqueMessages (concat found_twice)
  = [ message "p1" "1.0" None None "C1" "first";
      message "p2" "2.0" None None "C1" "second" ] /\
  count_occ opt_jsstring_eq_dec
    (map permalink (uniqueMessages (concat found_twice)))
    (Some (lit "p2")) = 1%nat.
Proof.
  split; [reflexivity|].
  destruct uniqueMessages_one_per_permalink as (H & _).
  destruct (H found_twice) as (_ & _ & _ & Hc).
  apply (Hc (message "p2" "2.0" None None "C1" "second")).
  simpl. auto.
Defined.

(** ** The threads that are fetched *)

Lemma threadTsToFetch_entries u :
  threadTsToFetch u = Map_of jsstring_eq_dec (flat_map fetch_entry u).
Proof.
  unfold threadTsToFetch, Map_of. generalize (@nil (jsstring * jsstring)).
  induction u as [|msg u IH]; intros m; simpl; [reflexivity|].
  rewrite fold_left_app, <- IH. f_equal.
  unfold fetch_entry, fetch_key.
  destruct (truthy_thread_ts msg); [reflexivity|].
  destruct (Num.gt0 (reply_count msg)); reflexivity.
Qed.

Lemma threadTsToFetch_NoDup u : NoDup (map fst (threadTsToFetch u)).
Proof. rewrite threadTsToFetch_entries. apply Map_of_NoDup. Qed.

Lemma fetch_entry_In msg k c :
  In (k, c) (fetch_entry msg) <-> fetch_key msg = Some k /\ channel_id msg = c.
Proof.
  unfold fetch_entry. destruct (fetch_key msg) as [k'|]; simpl.
  - split; [intros [E|[]]; injection E as <- <-; auto
           | intros [E <-]; injection E as <-; auto].
  - split; [tauto | intros [E _]; discriminate].
Qed.

Lemma fetch_entries_split u es1 e es2 :
  flat_map fetch_entry u = es1 ++ e :: es2 ->
  exists u1 m u2,
    u = u1 ++ m :: u2 /\ fetch_entry m = [e] /\
    flat_map fetch_entry u1 = es1 /\ flat_map fetch_entry u2 = es2.
Proof.
  revert es1. induction u as [|x u IH]; intros es1 H; simpl in H.
  - destruct es1; discriminate.
  - destruct (fetch_entry x) as [|e0 [|e1 l]] eqn:Ex.
    + simpl in H. destruct (IH es1 H) as (u1 & m & u2 & -> & Em & E1 & E2).
      exists (x :: u1), m, u2. simpl. rewrite Ex, E1. auto.
    + simpl in H. destruct es1 as [|e1 es1]; simpl in H.
      * injection H as <- <-. exists [], x, u. auto.
      * injection H as <- H.
        destruct (IH es1 H) as (u1 & m & u2 & -> & Em & E1 & E2).
        exists (x :: u1), m, u2. simpl. rewrite Ex, E1. auto.
    + exfalso. unfold fetch_entry in Ex.
      destruct (fetch_key x); discriminate.
Qed.

Lemma threadFetch_calls w signal now entry :
  calls (log (threadFetch w signal now entry)) = [replies_call entry].
Proof.
  destruct entry as [t c]. unfold threadFetch. cbn [log].
  apply slackFetch_calls.
Qed.

Lemma threadPhase_calls w signal u now :
  calls (log (threadPhase w signal u now))
  = map replies_call (threadTsToFetch u).
Proof.
  unfold threadPhase. cbv zeta.
  assert (E : calls (log (Promise_all now
                (map (threadFetch w signal now) (threadTsToFetch u))))
              = map replies_call (threadTsToFetch u)).
  { rewrite Promise_all_log. induction (threadTsToFetch u) as [|e es IH];
      [reflexivity|].
    simpl. rewrite calls_app, threadFetch_calls, IH. reflexivity. }
  destruct (outcome (Promise_all now _)); exact E.
Qed.

(** C4, as the code has it. The thread phase calls [conversations.replies]
    once for every distinct thread key among the thread-bearing matches
    (the thread timestamp of a match that has one, else the own timestamp of
    a match with replies), and asks the channel of the last such match:
    matches that share a thread key in different channels get one fetch. *)
Theorem threadPhase_one_fetch_per_thread_key w signal u now :
  let entries := threadTsToFetch u in
  calls (log (threadPhase w signal u now)) = map replies_call entries /\
  NoDup (map fst entries) /\
  (forall k, In k (map fst entries) <->
             exists m, In m u /\ fetch_key m = Some k) /\
  (forall k c, In (k, c) entries <->
     exists u1 m u2,
       u = u1 ++ m :: u2 /\ fetch_key m = Some k /\ channel_id m = c /\
       forall m', In m' u2 -> fetch_key m' <> Some k).
Proof.
  intros entries. unfold entries. split; [apply threadPhase_calls|].
  rewrite threadTsToFetch_entries.
  split; [apply Map_of_NoDup|]. split.
  - intros k. rewrite Map_of_keys, in_map_iff. split.
    + intros ([k' c] & <- & H). apply in_flat_map in H as (m & Hm & H).
      apply fetch_entry_In in H as [H _]. eauto.
    + intros (m & Hm & Hk). exists (k, channel_id m). split; [reflexivity|].
      apply in_flat_map. exists m. split; [exact Hm|].
      apply fetch_entry_In. auto.
  - intros k c.
    rewrite (Map_get_In jsstring_eq_dec) by apply Map_of_NoDup.
    rewrite Map_of_get. split.
    + intros (es1 & es2 & E & Hn).
      apply fetch_entries_split in E as (u1 & m & u2 & -> & Em & _ & <-).
      exists u1, m, u2. split; [reflexivity|].
      assert (Hin : In (k, c) (fetch_entry m)) by (rewrite Em; left; reflexivity).
      apply fetch_entry_In in Hin as [Hk Hc]. repeat split; auto.
      intros m' Hm' Hk'. apply Hn. apply in_map_iff.
      exists (k, channel_id m'). split; [reflexivity|].
      apply in_flat_map. exists m'. split; [exact Hm'|].
      apply fetch_entry_In. auto.
    + intros (u1 & m & u2 & -> & Hk & Hc & Hn).
      exists (flat_map fetch_entry u1), (flat_map fetch_entry u2).
      rewrite flat_map_app. simpl. split.
      * f_equal. unfold fetch_entry at 1. rewrite Hk, Hc. reflexivity.
      * intros Hin. apply in_map_iff in Hin as ([k' c'] & E & Hin).
        simpl in E. subst k'. apply in_flat_map in Hin as (m' & Hm' & Hin).
        apply fetch_entry_In in Hin as [Hk' _]. exact (Hn m' Hm' Hk').
Qed.

Lemma threadPhase_one_fetch_per_thread_key_witness :
  threadTsToFetch [hit_C1; hit_C2] = [(lit "100.0", lit "C2")] /\
  calls (log (threadPhase two_channels None [hit_C1; hit_C2] 50))
  = [replies_call (lit "100.0", lit "C2")] /\
  In (lit "100.0", lit "C2") (threadTsToFetch [hit_C1; hit_C2]).
Proof.
  split; [reflexivity|].
  destruct (threadPhase_one_fetch_per_thread_key two_channels None
              [hit_C1; hit_C2] 50) as (Hc & _ & _ & He).
  split; [exact Hc|].
  apply He. exists [hit_C1], hit_C2, []. repeat split.
  intros m' [].
Defined.

(** C4 as stated fails: two replies with the thread timestamp 100.0, one
    in channel C1 and one in C2, make two pairs and one fetch, in C2. *)
Lemma searchMessages_one_fetch_for_two_channels :
  exists r,
    searchMessages two_channels None 3 deploy_query 0 = Some r /\
    thread_pairs (uniqueMessages [hit_C1; hit_C2])
    = [(lit "100.0", lit "C1"); (lit "100.0", lit "C2")] /\
    calls (log r)
    = [ (lit "search.messages",
         search_params (lit "deploy after:2024-01-01 before:2024-02-01") 1);
        replies_call (lit "100.0", lit "C2") ] /\
    ~ fetches_every_pair (uniqueMessages [hit_C1; hit_C2]) r.
Proof.
  eexists. split; [reflexivity|]. split; [reflexivity|].
  split; [reflexivity|].
  intros H. specialize (H (lit "100.0", lit "C1") (or_introl eq_refl)).
  simpl in H. destruct H as [H|[H|[]]]; discriminate.
Qed.

(** ** The result *)

(** A result is assembled from the standalone matches and the messages of
    the thread fetches, which all settled without abort. *)
Lemma searchMessages_Ok w signal fuel params now r out :
  searchMessages w signal fuel params now = Some r ->
  outcome r = Ok out ->
  exists found u results,
    searchPhase w signal fuel params now = Some found /\
    outcome found = Ok u /\
    Forall2 (fun e rs => outcome (threadFetch w signal (at_time found) e) = Ok rs)
      (threadTsToFetch u) results /\
    conversations (standaloneMessages u ++ concat results) = Ok out.
Proof.
  unfold searchMessages.
  destruct (searchPhase w signal fuel params now) as [found|]; [|discriminate].
  destruct (outcome found) as [u|] eqn:Eu.
  - intros H. injection H as <-. unfold prepend, threadPhase. cbn [outcome].
    destruct (outcome (Promise_all _ _)) as [results|] eqn:E;
      cbn [outcome]; [|discriminate].
    intros Hc. exists found, u, results. repeat split; auto.
    apply Promise_all_Ok in E.
    clear -E. revert results E.
    induction (threadTsToFetch u) as [|e es IH]; intros results E;
      inversion E; subst; constructor; auto.
  - intros H. injection H as <-. discriminate.
Qed.

Lemma threadFetch_Ok w signal now thread channelId rs :
  outcome (threadFetch w signal now (thread, channelId)) = Ok rs ->
  (exists response,
     thread_result w signal now thread channelId = Ok response /\
     rs = match Replies.messages (data response) with
          | Some found => found
          | None => []
          end) \/
  (rs = [] /\ exists e, thread_result w signal now thread channelId = Err e).
Proof.
  unfold threadFetch, thread_result. cbn [outcome].
  destruct (outcome (slackFetch _ _ _ _ _ _)) as [response|e].
  - intros H. injection H as <-. left. eauto.
  - destruct e; intros H; try discriminate; injection H as <-; right; eauto.
Qed.

Lemma threadFetch_settles w signal now thread channelId :
  thread_result w signal now thread channelId <> Err AbortError ->
  exists rs, outcome (threadFetch w signal now (thread, channelId)) = Ok rs.
Proof.
  unfold threadFetch, thread_result. cbn [outcome].
  destruct (outcome (slackFetch _ _ _ _ _ _)) as [response|e]; [eauto|].
  destruct e; intros H; try congruence; eauto.
Qed.

(** The members of the conversations are the deduplicated messages. *)
Lemma conversations_members allMessages out :
  conversations allMessages = Ok out ->
  (forall c, In c out ->
     exists k, members c
               = Array_sort by_ts (with_key k (finalUniqueMessages allMessages)) /\
               with_key k (finalUniqueMessages allMessages) <> []) /\
  (forall m, In m (flat_map members out) <->
             In m (finalUniqueMessages allMessages)).
Proof.
  destruct (conversations_spec allMessages) as (cs & _ & E & Hc & Hm).
  rewrite E. intros H. injection H as <-.
  split.
  - intros c H. apply Array_sort_In in H. apply Hc, H.
  - intros m. rewrite in_flat_map. split.
    + intros (c & Hin & Hmem). apply Array_sort_In in Hin.
      destruct (Hc c Hin) as (k & Ek & _). rewrite Ek in Hmem.
      apply Array_sort_In, with_key_In in Hmem. tauto.
    + intros H. destruct (Hm m H) as (c & ? & ?). exists c.
      split; [apply Array_sort_In|]; assumption.
Qed.



(** ** The threads of a result *)

Lemma standalone_key u m :
  In m (standaloneMessages u) -> threadKey m = ts m.
Proof.
  unfold standaloneMessages. rewrite filter_In. intros [_ H].
  apply andb_true_iff in H as [H _]. apply negb_true_iff in H.
  unfold has_thread_ts, truthy_thread_ts in H. unfold threadKey, or_else.
  destruct (thread_ts m) as [t|]; [|reflexivity].
  destruct (truthy t); [discriminate | reflexivity].
Qed.

Lemma NoDup_map_eq {A B} (f : A -> B) l x y :
  NoDup (map f l) -> In x l -> In y l -> f x = f y -> x = y.
Proof.
  induction l as [|a l IH]; simpl; intros Hnd Hx Hy E; [tauto|].
  inversion Hnd as [|? ? Ha Hl]; subst.
  destruct Hx as [<-|Hx], Hy as [<-|Hy]; auto.
  - exfalso. apply Ha. rewrite E. apply in_map, Hy.
  - exfalso. apply Ha. rewrite <- E. apply in_map, Hx.
Qed.

Lemma NoDup_map_filter {A B} (f : A -> B) (p : A -> bool) l :
  NoDup (map f l) -> NoDup (map f (filter p l)).
Proof.
  induction l as [|a l IH]; simpl; intros H; [constructor|].
  inversion H as [|? ? Ha Hl]; subst.
  destruct (p a); simpl; auto. constructor; auto.
  intros Hin. apply Ha. apply in_map_iff in Hin as (x & <- & Hx).
  apply in_map. apply filter_In in Hx. tauto.
Qed.

(** Where an element of a concatenation lies. *)
Lemma app_split_In {A} (a b l1 l2 : list A) m :
  a ++ b = l1 ++ m :: l2 ->
  In m b \/ (In m a /\ exists l, l2 = l ++ b).
Proof.
  revert l1. induction a as [|x a IH]; intros l1 H; simpl in H.
  - left. rewrite H, in_app_iff. simpl. auto.
  - destruct l1 as [|y l1]; simpl in H; injection H as -> H.
    + right. split; [left; reflexivity | eauto].
    + destruct (IH l1 H) as [Hb|[Ha Hl]]; [left | right; split];
        simpl; auto.
Qed.

Lemma Forall2_map_left {A B C} (f : A -> B) (R : B -> C -> Prop) l l' :
  Forall2 R (map f l) l' -> Forall2 (fun x y => R (f x) y) l l'.
Proof.
  revert l'. induction l as [|x l IH]; intros l' H; inversion H; subst;
    constructor; auto.
Qed.

Section ThreadsOfAResult.
Variables (w : World) (signal : option N) (now : N).
Variable u : list Msg.
Variable results : list (list Msg).

Hypothesis Hresults :
  Forall2 (fun e rs => outcome (threadFetch w signal now e) = Ok rs)
    (threadTsToFetch u) results.

Local Abbreviation allMessages := (standaloneMessages u ++ concat results).
Local Abbreviation final := (finalUniqueMessages allMessages).

(** What the fetches contribute is what the fetches that succeeded
    returned. *)
Lemma fetched_In m :
  In m (concat results) <->
  fetched_message w signal now (threadTsToFetch u) m.
Proof.
  rewrite (fulfilled_concat_In
             (fun e => outcome (threadFetch w signal now e)) _ _ _ Hresults).
  unfold fetched_message. split.
  - intros ([thread channelId] & rs & He & Hrs & Hm).
    apply threadFetch_Ok in Hrs as [(response & Er & ->)|[-> _]];
      [|destruct Hm].
    destruct (Replies.messages (data response)) as [found|] eqn:Ef;
      [|destruct Hm].
    exists thread, channelId, response, found. auto.
  - intros (thread & channelId & response & found & He & Er & Ef & Hm).
    exists (thread, channelId), found. split; [exact He|]. split; [|exact Hm].
    unfold threadFetch. cbn [outcome]. unfold thread_result in Er.
    rewrite Er, Ef. reflexivity.
Qed.

Lemma final_NoDup : NoDup (map ts final).
Proof. apply (dedup_NoDup jsstring_eq_dec ts). Qed.

(** With faithful fetches, the messages of one thread key in the
    deduplicated collection are of one channel. *)
Lemma group_one_channel k m1 m2 :
  faithful_replies w signal now (threadTsToFetch u) ->
  In m1 (with_key k final) -> In m2 (with_key k final) ->
  channel_id m1 = channel_id m2.
Proof.
  intros Hf H1 H2.
  apply with_key_In in H1 as [H1 K1]. apply with_key_In in H2 as [H2 K2].
  (* what a fetched message of key [k] tells *)
  assert (Hfetched : forall m, In m (concat results) -> threadKey m = k ->
            exists c, In (k, c) (threadTsToFetch u) /\ channel_id m = c /\
                      exists root, In root (concat results) /\ ts root = k).
  { intros m Hm Km.
    apply fetched_In in Hm
      as (thread & channelId & response & found & He & Er & Ef & Hm).
    destruct (Hf _ _ _ _ He Er Ef) as [Hall Hroot].
    destruct (Hall m Hm) as [Hc Hk].
    assert (Et : thread = k) by congruence.
rewrite Et in He, Er, Hroot.
    exists channelId. split; [exact He|]. split; [exact Hc|].
    destruct Hroot as (root & Hr & Ets);
      [intros ->; destruct Hm|].
    exists root. split; [|exact Ets].
    apply fetched_In. exists k, channelId, response, found. auto. }
  (* a standalone message of key [k] that survives excludes fetched ones *)
  assert (Hlast : forall m, In m final -> threadKey m = k ->
            In m (concat results) \/
            (ts m = k /\ forall x, In x (concat results) -> ts x <> k)).
  { intros m Hm Km.
    apply (dedup_last jsstring_eq_dec ts) in Hm as (l1 & l2 & E & Hn).
    apply app_split_In in E as [Hb|[Ha (l & ->)]]; [left; exact Hb|].
    right. pose proof (standalone_key u m Ha) as Ek.
    split; [congruence|].
    intros x Hx Ex. apply Hn. rewrite map_app, in_app_iff. right.
    apply in_map_iff. exists x. split; [congruence | exact Hx]. }
  destruct (Hlast m1 H1 K1) as [F1|[T1 N1]],
           (Hlast m2 H2 K2) as [F2|[T2 N2]].
  - destruct (Hfetched m1 F1 K1) as (c1 & E1 & <- & _).
    destruct (Hfetched m2 F2 K2) as (c2 & E2 & <- & _).
    exact (f_equal snd
             (NoDup_map_eq fst _ _ _ (threadTsToFetch_NoDup u) E1 E2
                eq_refl)).
  - destruct (Hfetched m1 F1 K1) as (_ & _ & _ & root & Hr & Er).
    exfalso. exact (N2 root Hr Er).
  - destruct (Hfetched m2 F2 K2) as (_ & _ & _ & root & Hr & Er).
    exfalso. exact (N1 root Hr Er).
  - f_equal. apply (NoDup_map_eq ts final); auto using final_NoDup.
    congruence.
Qed.
End ThreadsOfAResult.

(** C5, as the code has it. In every conversation of a result the replies
    do not contain the parent (no two members have one timestamp) and all
    members have the thread key of the parent. The members are grouped by
    thread key alone; they are of one channel when the thread fetches are
    faithful: each returns only messages of the channel and thread asked
    for, the root among them. *)
Theorem searchMessages_thread_members w signal fuel params now found u r out c :
  searchPhase w signal fuel params now = Some found ->
  outcome found = Ok u ->
  searchMessages w signal fuel params now = Some r ->
  outcome r = Ok out ->
  In c out ->
  ~ In (parent c) (replies c) /\
  NoDup (map ts (members c)) /\
  (forall m, In m (members c) -> threadKey m = threadKey (parent c)) /\
  (faithful_replies w signal (at_time found) (threadTsToFetch u) ->
   forall m, In m (members c) -> channel_id m = channel_id (parent c)).
Proof.
  intros Hs Hu Hr Ho Hc.
  destruct (searchMessages_Ok _ _ _ _ _ _ _ Hr Ho)
    as (found' & u' & results & Hs' & Hu' & Hres & Hconv).
  rewrite Hs in Hs'. injection Hs' as <-.
  rewrite Hu in Hu'. injection Hu' as <-.
  destruct (conversations_members _ _ Hconv) as (Hgroups & _).
  destruct (Hgroups c Hc) as (k & Ek & _).
  set (final := finalUniqueMessages (standaloneMessages u ++ concat results))
    in *.
  assert (Hmem : forall m, In m (members c) <-> In m (with_key k final)).
  { intros m. rewrite Ek. apply Array_sort_In. }
  assert (Hnd : NoDup (map ts (members c))).
  { rewrite Ek.
    apply (Permutation_NoDup
             (l := map ts (with_key k final))).
    - apply Permutation_map. symmetry. apply Array_sort_perm.
    - apply NoDup_map_filter. apply (dedup_NoDup jsstring_eq_dec ts). }
  split; [|split; [exact Hnd|split]].
  - intros Hin. unfold members in Hnd. simpl in Hnd.
    inversion Hnd as [|? ? Hp _]; subst. apply Hp, in_map, Hin.
  - intros m Hm.
    assert (Hp : In (parent c) (with_key k final))
      by (apply Hmem; left; reflexivity).
    apply Hmem in Hm. apply with_key_In in Hm as [_ ->].
    apply with_key_In in Hp as [_ ->]. reflexivity.
  - intros Hf m Hm.
    apply (group_one_channel w signal (at_time found) u results Hres k);
      [exact Hf | apply Hmem, Hm | apply Hmem; left; reflexivity].
Qed.

Lemma both_threads_faithful :
  faithful_replies both_threads None 50
    [(lit "1.5", lit "C1"); (lit "9.5", lit "C1")].
Proof.
  intros thread channelId response found [E|[E|[]]] Er Ef;
    injection E as <- <-; vm_compute in Er; injection Er as <-;
    vm_compute in Ef; injection Ef as <-.
  - split.
    + intros m [<-|[]]. split; reflexivity.
    + intros _. exists root_one. split; [left|]; reflexivity.
  - split.
    + intros m [<-|[<-|[]]]; split; reflexivity.
    + intros _. exists root_two. split; [left|]; reflexivity.
Qed.

Lemma searchMessages_thread_members_witness :
  exists r out c,
    searchMessages both_threads None 3 deploy_query 0 = Some r /\
    outcome r = Ok out /\ In c out /\
    parent c = root_two /\ replies c = [reply_two] /\
    forall m, In m (members c) -> channel_id m = channel_id (parent c).
Proof.
  eexists. eexists.
  exists {| parent := root_two; replies := [reply_two] |}.
  split; [reflexivity|]. split; [reflexivity|].
  split; [right; right; left; reflexivity|].
  split; [reflexivity|]. split; [reflexivity|].
  refine (proj2 (proj2 (proj2
    (searchMessages_thread_members both_threads None 3 deploy_query 0
       _ _ _ _ _ eq_refl eq_refl eq_refl eq_refl _))) both_threads_faithful).
  right; right; left; reflexivity.
Defined.

(** C5 as stated fails for the channel: a thread fetch that lists a
    message of channel C9 under the thread 9.5 of channel C1 yields a
    conversation with members of both channels. *)
Lemma searchMessages_mixed_channels :
  exists r out,
    searchMessages mixed_channels None 3 deploy_query 0 = Some r /\
    outcome r = Ok out /\
    out = [ {| parent := root_two; replies := [stray; reply_two] |} ] /\
    ~ (forall c, In c out ->
         forall m, In m (members c) -> channel_id m = channel_id (parent c)).
Proof.
  eexists. eexists. split; [reflexivity|]. split; [reflexivity|].
  split; [reflexivity|].
  intros H.
  specialize (H _ (or_introl eq_refl) stray (or_intror (or_introl eq_refl))).
  discriminate.
Qed.

(** ** Thread fetches that fail *)




(** ** Cancellation of the thread fetches *)

(** The only rejection of a thread fetch is an abort, which it passes on. *)
Lemma threadFetch_Err w signal now thread channelId e :
  outcome (threadFetch w signal now (thread, channelId)) = Err e ->
  e = AbortError /\
  thread_result w signal now thread channelId = Err AbortError.
Proof.
  unfold threadFetch, thread_result. cbn [outcome].
  destruct (outcome (slackFetch _ _ _ _ _ _)) as [response|e']; [discriminate|].
  destruct e'; intros H; try discriminate. injection H as <-. auto.
Qed.

(** An aborted thread fetch rejects the whole call with the abort. *)
Lemma searchMessages_abort_propagates w signal fuel params now found u
    thread channelId :
  searchPhase w signal fuel params now = Some found ->
  outcome found = Ok u ->
  In (thread, channelId) (threadTsToFetch u) ->
  thread_result w signal (at_time found) thread channelId = Err AbortError ->
  exists r, searchMessages w signal fuel params now = Some r /\
            outcome r = Err AbortError.
Proof.
  intros Hs Hu He Ha. unfold searchMessages. rewrite Hs, Hu.
  eexists. split; [reflexivity|]. unfold prepend, threadPhase. cbn [outcome].
  set (ps := map (threadFetch w signal (at_time found)) (threadTsToFetch u)).
  destruct (first_rejection ps) as [[e t]|] eqn:E.
  - unfold Promise_all. rewrite E. cbn [outcome].
    apply first_rejection_Some in E as (p & Hp & Ep).
    apply in_map_iff in Hp as ([t' c'] & <- & _).
    apply threadFetch_Err in Ep as [-> _]. reflexivity.
  - exfalso. apply first_rejection_None in E.
    assert (Hp : In (threadFetch w signal (at_time found) (thread, channelId)) ps)
      by (apply in_map, He).
    destruct (Forall2_In_l _ _ _ _ E Hp) as (rs & _ & Ers).
    unfold threadFetch, thread_result in *. cbn [outcome] in Ers.
    rewrite Ha in Ers. discriminate.
Qed.

(* ================================================================== *)
(** * More on generateQueryVariations *)
(* ================================================================== *)

Lemma split_go_concat b s : concat (split_go b s) = strip_ws s.
Proof.
  revert b; induction s as [|c s IH]; intros b; simpl; [reflexivity|].
  destruct (is_ws c); simpl.
  - destruct b; simpl; apply IH.
  - specialize (IH false).
    destruct (split_go false s) as [|p ps] eqn:E;
      [exfalso; eapply split_go_nonempty; eauto|].
    simpl in *. rewrite IH. reflexivity.
Qed.

Lemma concat_filter_truthy (l : list jsstring) :
  concat (filter truthy l) = concat l.
Proof.
  induction l as [|[|c w] l IH]; simpl; [reflexivity | exact IH |].
  rewrite IH. reflexivity.
Qed.

Lemma words_of_concat keyword : concat (words_of keyword) = strip_ws keyword.
Proof.
  unfold words_of, split_ws. rewrite concat_filter_truthy.
  apply split_go_concat.
Qed.

Lemma split_go_no_ws b s :
  Forall (fun w => forallb (fun c => negb (is_ws c)) w = true) (split_go b s).
Proof.
  revert b; induction s as [|c s IH]; intros b; simpl.
  - repeat constructor.
  - destruct (is_ws c) eqn:Ec.
    + destruct b; [apply IH | constructor; [reflexivity | apply IH]].
    + specialize (IH false).
      destruct (split_go false s) as [|p ps]; [repeat constructor; simpl; rewrite Ec; reflexivity|].
      inversion IH; subst. constructor; [|assumption].
      simpl. rewrite Ec. simpl. assumption.
Qed.

(** The words of a keyword are not empty and hold no white space. *)
Lemma words_of_words keyword w :
  In w (words_of keyword) ->
  w <> [] /\ forallb (fun c => negb (is_ws c)) w = true.
Proof.
  unfold words_of, split_ws. rewrite filter_In. intros [Hin Ht].
  split; [destruct w; [discriminate | discriminate]|].
  pose proof (split_go_no_ws false keyword) as H.
  rewrite Forall_forall in H. apply H, Hin.
Qed.

Lemma strip_ws_app a b : strip_ws (a ++ b) = strip_ws a ++ strip_ws b.
Proof. apply filter_app. Qed.

Lemma strip_ws_word w :
  forallb (fun c => negb (is_ws c)) w = true -> strip_ws w = w.
Proof.
  induction w as [|c w IH]; simpl; [reflexivity|].
  intros H. apply andb_true_iff in H as [Hc Hw]. rewrite Hc, IH by assumption.
  reflexivity.
Qed.

Lemma strip_ws_concat_words (ws : list jsstring) :
  Forall (fun w => forallb (fun c => negb (is_ws c)) w = true) ws ->
  strip_ws (concat ws) = concat ws.
Proof.
  induction 1 as [|w ws Hw _ IH]; simpl; [reflexivity|].
  rewrite strip_ws_app, IH, strip_ws_word by assumption. reflexivity.
Qed.

Lemma map_nth_seq {A} (l : list A) d k :
  (k <= length l)%nat -> map (fun j => nth j l d) (seq 0 k) = firstn k l.
Proof.
  revert k; induction l as [|x l IH]; intros k Hk; simpl in *.
  - replace k with 0%nat by lia. reflexivity.
  - destruct k; [reflexivity|]. simpl. rewrite <- seq_shift, map_map.
    f_equal. apply IH. lia.
Qed.

Lemma fold_variation_strip words i js : forall acc,
  Forall (fun w => forallb (fun c => negb (is_ws c)) w = true) words ->
  Forall (fun j => (j + 1 < length words)%nat) js ->
  strip_ws
    (fold_left
       (fun currentVariation j =>
          (if (and32 (sar32 i (Z.of_nat j)) 1 =? 0)%Z
           then currentVariation
           else currentVariation ++ [space])
          ++ nth (j + 1) words []) js acc)
  = strip_ws acc ++ concat (map (fun j => nth (j + 1) words []) js).
Proof.
  induction js as [|j js IH]; intros acc Hw Hjs; simpl.
  - symmetry. apply app_nil_r.
  - inversion Hjs as [|? ? Hj Hjs']; subst.
    rewrite IH by assumption. rewrite strip_ws_app.
    rewrite (strip_ws_word (nth (j + 1) words []))
      by (rewrite Forall_forall in Hw; apply Hw, nth_In; exact Hj).
    rewrite <- app_assoc. f_equal.
    destruct (and32 _ _ =? 0)%Z; [reflexivity|].
    rewrite strip_ws_app. simpl. apply app_nil_r.
Qed.

(** Whatever the bitmask, a variation is the words in their order with
    white space between some of them. *)
Lemma variation_of_strip words k i :
  Forall (fun w => forallb (fun c => negb (is_ws c)) w = true) words ->
  (k < length words)%nat ->
  strip_ws (variation_of words k i) = concat (firstn (S k) words).
Proof.
  intros Hw Hk. unfold variation_of.
  rewrite fold_variation_strip; [|assumption|].
  - destruct words as [|w0 rest]; [simpl in Hk; lia|].
    simpl nth at 1. inversion Hw as [|? ? Hw0 _]; subst.
    rewrite strip_ws_word by assumption. simpl. f_equal. f_equal.
    rewrite <- (map_nth_seq rest [] k) by (simpl in Hk; lia).
    apply map_ext. intros j. replace (j + 1)%nat with (S j) by lia.
    reflexivity.
  - apply Forall_forall. intros j Hj. apply in_seq in Hj. lia.
Qed.

(** X1. For every keyword the variations are pairwise distinct, and each
    is the keyword up to white space: without its white space it reads as
    the keyword does without its own. *)
Theorem generateQueryVariations_respects_words keyword :
  NoDup (generateQueryVariations keyword) /\
  (forall v, In v (generateQueryVariations keyword) ->
             strip_ws v = strip_ws keyword).
Proof.
  unfold generateQueryVariations.
  destruct (length (words_of keyword) <=? 1)%nat eqn:E.
  - split; [repeat constructor; simpl; tauto|].
    intros v [<-|[]]. reflexivity.
  - apply Nat.leb_gt in E. cbv zeta.
    set (words := words_of keyword) in *.
    set (k := (length words - 1)%nat).
    pose proof (fold_Set_add (variation_of words k)
                  (map Z.of_nat (seq 0 (Z.to_nat (shl32 1 (Z.of_nat k))))) [])
      as (Hin & Hnd & _).
    split; [apply Hnd; constructor|].
    intros v Hv. apply Hin in Hv as [[]|Hv].
    apply in_map_iff in Hv as (i & <- & _).
    assert (Hw : Forall (fun w => forallb (fun c => negb (is_ws c)) w = true)
                   words).
    { apply Forall_forall. intros w Hw. apply (words_of_words keyword), Hw. }
    assert (Hk : (k < length words)%nat /\ S k = length words).
    { unfold k. clearbody words. lia. }
    destruct Hk as [Hk Hk'].
    rewrite variation_of_strip by assumption. rewrite Hk'.
    rewrite firstn_all. apply words_of_concat.
Qed.

(** ** The number of variations *)

Lemma join_with_first r rest bits c tl :
  r = c :: tl -> exists tl', join_with r rest bits = c :: tl'.
Proof.
  intros ->. destruct rest as [|r' rest], bits as [|b bits]; simpl; eauto.
Qed.

(** Words without white space can be read back from a spacing
    permutation, and so can the choice of separators. *)
Lemma join_with_inj rest : forall w bits bits',
  length bits = length rest -> length bits' = length rest ->
  Forall (fun r => r <> [] /\ forallb (fun c => negb (is_ws c)) r = true)
    rest ->
  join_with w rest bits = join_with w rest bits' -> bits = bits'.
Proof.
  induction rest as [|r rest IH]; intros w [|b bits] [|b' bits'] Hl Hl' Hw E;
    simpl in Hl, Hl'; try discriminate; [reflexivity|].
  inversion Hw as [|? ? [Hne Hr] Hrest]; subst.
  simpl in E. apply app_inv_head in E.
  destruct r as [|c tl]; [congruence|].
  simpl in Hr. apply andb_true_iff in Hr as [Hc _].
  apply negb_true_iff in Hc.
  destruct (join_with_first (c :: tl) rest bits c tl eq_refl) as (t1 & E1).
  destruct (join_with_first (c :: tl) rest bits' c tl eq_refl) as (t2 & E2).
  destruct b, b'; simpl in E.
  - injection E as E. f_equal. eapply IH; eauto.
  - exfalso. rewrite E2 in E. injection E as E _. subst c. discriminate.
  - exfalso. rewrite E1 in E. injection E as E _. subst c. discriminate.
  - f_equal. eapply IH; eauto.
Qed.

Lemma bits_of_inj i j k :
  (0 <= i < 2 ^ Z.of_nat k)%Z -> (0 <= j < 2 ^ Z.of_nat k)%Z ->
  bits_of i k = bits_of j k -> i = j.
Proof.
  intros Hi Hj E. unfold bits_of in E.
  apply Z.bits_inj'. intros n Hn.
  destruct (Z_lt_le_dec n (Z.of_nat k)) as [Hlt|Hge].
  - pose proof (proj1 map_ext_in_iff E (Z.to_nat n)) as H. cbv beta in H.
    rewrite Z2Nat.id in H by lia. apply H, in_seq. lia.
  - rewrite <- (Z.mod_small i (2 ^ Z.of_nat k)) by lia.
    rewrite <- (Z.mod_small j (2 ^ Z.of_nat k)) by lia.
    rewrite !Z.mod_pow2_bits_high by lia. reflexivity.
Qed.

Lemma fold_Set_add_distinct {I} (f : I -> jsstring) (L : list I) :
  forall init,
    NoDup (init ++ map f L) ->
    fold_left (fun v i => Set_add (f i) v) L init = init ++ map f L.
Proof.
  induction L as [|i L IH]; intros init H; simpl.
  - symmetry. apply app_nil_r.
  - assert (Hn : ~ In (f i) init).
    { intros Hin. apply NoDup_remove_2 in H. apply H.
      apply in_or_app. left. exact Hin. }
    unfold Set_add at 2.
    destruct (in_dec jsstring_eq_dec (f i) init); [contradiction|].
    rewrite IH; rewrite <- app_assoc; [reflexivity | exact H].
Qed.

(** X2. A keyword of two to thirty-one words has exactly
    [2 ^ (words.length - 1)] variations: no two choices of separators
    give one string. The words joined by single spaces and the words
    joined without separator are among them. *)
Theorem generateQueryVariations_count keyword :
  let words := words_of keyword in
  (2 <= length words <= 31)%nat ->
  length (generateQueryVariations keyword) = (2 ^ (length words - 1))%nat /\
  In (join_space words) (generateQueryVariations keyword) /\
  In (concat words) (generateQueryVariations keyword).
Proof.
  intros words Hlen.
  assert (Hw : Forall (fun r => r <> [] /\
                         forallb (fun c => negb (is_ws c)) r = true) words).
  { apply Forall_forall. intros w Hw. apply (words_of_words keyword), Hw. }
  destruct (generateQueryVariations_permutations keyword Hlen)
    as (Hin & _ & _). fold words in Hin.
  split; [|split].
  - unfold generateQueryVariations. fold words.
    destruct (length words <=? 1)%nat eqn:E; [apply Nat.leb_le in E; lia|].
    destruct words as [|w0 rest] eqn:Ew; [simpl in Hlen; lia|].
    cbv zeta.
    replace (length (w0 :: rest) - 1)%nat with (length rest) by (simpl; lia).
    simpl length in Hlen. rewrite shl32_one by lia.
    set (k := length rest).
    assert (Hpow : (0 < 2 ^ Z.of_nat k <= 2 ^ 30)%Z).
    { split; [apply Z.pow_pos_nonneg; lia | apply Z.pow_le_mono_r; lia]. }
    rewrite (fold_Set_add_distinct (variation_of (w0 :: rest) k) _ []).
    + simpl. rewrite !length_map, length_seq.
      apply Nat2Z.inj. rewrite Z2Nat.id by lia.
      rewrite Nat2Z.inj_pow. reflexivity.
    + simpl. apply NoDup_map_NoDup_ForallPairs.
      * intros a b Ha Hb E'.
        apply in_map_iff in Ha as (na & <- & Ha). apply in_seq in Ha.
        apply in_map_iff in Hb as (nb & <- & Hb). apply in_seq in Hb.
        rewrite !variation_of_join in E' by (unfold k; lia).
        unfold k in E' at 1 3. rewrite !firstn_all in E'.
        inversion Hw as [|? ? _ Hrest]; subst.
        apply join_with_inj in E';
          [|unfold bits_of; rewrite length_map, length_seq; reflexivity ..
           | exact Hrest].
        apply bits_of_inj in E'; [exact E' | lia | lia].
      * apply NoDup_map_NoDup_ForallPairs; [|apply seq_NoDup].
        intros a b _ _. apply Nat2Z.inj.
  - apply Hin. exists (repeat true (length words - 1)).
    split; [apply repeat_length|].
    clear. induction words as [|w [|w' rest] IH]; try reflexivity.
    simpl in *. rewrite Nat.sub_0_r in IH. rewrite IH. reflexivity.
  - apply Hin. exists (repeat false (length words - 1)).
    split; [apply repeat_length|].
    clear. induction words as [|w [|w' rest] IH]; simpl;
      [reflexivity | rewrite app_nil_r; reflexivity |].
    simpl in IH. rewrite Nat.sub_0_r in IH. rewrite IH. reflexivity.
Qed.

Lemma generateQueryVariations_count_witness :
  length (generateQueryVariations (lit "shot band design")) = 4%nat /\
  In (lit "shot band design") (generateQueryVariations (lit "shot band design")) /\
  In (lit "shotbanddesign") (generateQueryVariations (lit "shot band design")).
Proof.
  apply (generateQueryVariations_count (lit "shot band design")).
  vm_compute. lia.
Defined.

Lemma generateQueryVariations_respects_words_witness :
  strip_ws (lit "ab c") = strip_ws (lit "a b c").
Proof.
  apply (proj2 (generateQueryVariations_respects_words (lit "a b c"))).
  simpl. auto.
Defined.

(* ================================================================== *)
(** * More on slackFetch *)
(* ================================================================== *)

Lemma slackFetch_loop_Ok {A} (srv : Server A) signal request retries :
  forall attempt now env,
    outcome (slackFetch_loop srv signal request retries attempt now) = Ok env ->
    ok env = true /\
    exists k r, (attempt <= k < attempt + retries)%nat /\
                reply srv k = Responds r /\ status r <> 429%Z /\
                is_json r = true /\ json r = Some env.
Proof.
  induction retries as [|retries IH]; intros attempt now env;
    [discriminate|].
  cbn [slackFetch_loop]. unfold fetch.
  destruct (reply srv attempt) as [r|] eqn:Er.
  - assert (Hstep :
      outcome
        (if (status r =? 429)%Z
         then match retries with
              | O => {| outcome := Err Ratelimited;
                        at_time := (now + latency srv attempt)%N;
                        log := [Fetched request now] |}
              | S _ =>
                  prepend [Fetched request now;
                           SetTimeout (retryAfterMs (retry_after r))
                             (now + latency srv attempt)%N]
                    (slackFetch_loop srv signal request retries (S attempt)
                       (now + latency srv attempt
                        + timer_delay (retryAfterMs (retry_after r)))%N)
              end
         else if is_json r
              then match json r with
                   | Some data =>
                       {| outcome := if ok data then Ok data
                                     else Err (SlackApiError (error data));
                          at_time := (now + latency srv attempt)%N;
                          log := [Fetched request now] |}
                   | None =>
                       {| outcome := Err JsonSyntaxError;
                          at_time := (now + latency srv attempt)%N;
                          log := [Fetched request now] |}
                   end
              else {| outcome := Err NonJsonResponse;
                      at_time := (now + latency srv attempt)%N;
                      log := [Fetched request now] |}) = Ok env ->
      ok env = true /\
      exists k r0, (attempt <= k < attempt + S retries)%nat /\
                   reply srv k = Responds r0 /\ status r0 <> 429%Z /\
                   is_json r0 = true /\ json r0 = Some env).
    { destruct (status r =? 429)%Z eqn:Es.
      - destruct retries as [|retries']; [discriminate|].
        unfold prepend. cbn [outcome]. intros H.
        apply IH in H as (Hok & k & r0 & Hk & H).
        split; [exact Hok|]. exists k, r0. split; [lia | exact H].
      - apply Z.eqb_neq in Es.
        destruct (is_json r) eqn:Ej; [|discriminate].
        destruct (json r) as [d|] eqn:Ed; [|discriminate].
        cbn [outcome]. destruct (ok d) eqn:Eo; [|discriminate].
        intros H. injection H as <-. split; [exact Eo|].
        exists attempt, r. repeat split; auto; lia. }
    destruct signal as [fired|]; [|exact Hstep].
    destruct (fired <=? now)%N; [discriminate|].
    destruct (fired <? now + latency srv attempt)%N; [discriminate|].
    exact Hstep.
  - destruct signal as [fired|]; [|discriminate].
    destruct (fired <=? now)%N; [discriminate|].
    destruct (fired <? now + latency srv attempt)%N; discriminate.
Qed.

(** X3. What a call returns is the JSON object of a reply that was not
    rate-limited, that announced JSON and whose [ok] flag is set; it is
    one of the first five replies. *)
Theorem slackFetch_returns_accepted_reply {A} (srv : Server A) signal
    endpoint method body now env :
  outcome (slackFetch srv signal endpoint method body now) = Ok env ->
  ok env = true /\
  exists k r, (k < 5)%nat /\ reply srv k = Responds r /\
              status r <> 429%Z /\ is_json r = true /\ json r = Some env.
Proof.
  unfold slackFetch, prepend. cbn [outcome]. intros H.
  apply slackFetch_loop_Ok in H as (Hok & k & r & Hk & H).
  split; [exact Hok|]. exists k, r. split; [lia | exact H].
Qed.

Lemma slackFetch_returns_accepted_reply_witness :
  ok {| ok := true; error := None; data := 7%nat |} = true /\
  exists k r, (k < 5)%nat /\ reply three_429_server k = Responds r /\
              status r <> 429%Z /\ is_json r = true /\
              json r = Some {| ok := true; error := None; data := 7%nat |}.
Proof.
  apply (slackFetch_returns_accepted_reply three_429_server None
           (lit "search.messages") POST [] 0).
  reflexivity.
Defined.

(** X4. Only a rate-limited reply is retried. When the first reply is
    anything else, or there is none, the call ends with that one request
    and no timer: a failed request, a reply that is not JSON, a body that
    does not parse and an object without the [ok] flag are errors, the
    last with the error code of the object. *)
Theorem slackFetch_no_retry_but_429 {A} (srv : Server A)
    endpoint method body now :
  let s := slackFetch srv None endpoint method body now in
  let once :=
    [Called endpoint body now;
     Fetched (build_request endpoint method body) now] in
  (reply srv 0 = Unreachable ->
   outcome s = Err FetchFailed /\ log s = once) /\
  (forall r, reply srv 0 = Responds r -> status r <> 429%Z ->
     log s = once /\ at_time s = (now + latency srv 0)%N /\
     (is_json r = false -> outcome s = Err NonJsonResponse) /\
     (is_json r = true -> json r = None -> outcome s = Err JsonSyntaxError) /\
     (forall env, is_json r = true -> json r = Some env ->
        outcome s = if ok env then Ok env
                    else Err (SlackApiError (error env)))).
Proof.
  cbv zeta. unfold slackFetch. split.
  - intros E. cbn [slackFetch_loop fetch]. rewrite E. split; reflexivity.
  - intros r E Hs. apply Z.eqb_neq in Hs.
    cbn [slackFetch_loop fetch]. rewrite E, Hs.
    destruct (is_json r) eqn:Ej.
    + destruct (json r) as [env|] eqn:Ed; cbn.
      * repeat split; try discriminate.
        intros env' _ H. injection H as <-. reflexivity.
      * repeat split; try discriminate.
    + cbn. repeat split; try discriminate.
Qed.

Lemma slackFetch_no_retry_but_429_witness :
  outcome (slackFetch rejected_server None (lit "auth.test") POST [] 0)
  = Err (SlackApiError (Some (lit "missing_scope"))).
Proof.
  destruct (slackFetch_no_retry_but_429 rejected_server (lit "auth.test")
              POST [] 0) as (_ & H).
  destruct (H _ eq_refl ltac:(simpl; lia)) as (_ & _ & _ & _ & H').
  exact (H' _ eq_refl eq_refl).
Defined.

(** X5. A [Retry-After] header that [parseInt] does not read as a positive
    number (a date, say) gives no delay: the request is repeated as soon
    as the rate-limited reply has arrived. *)
Theorem slackFetch_retry_without_delay {A} (srv : Server A) r header payload
    endpoint method body now :
  reply srv 0 = Responds r -> status r = 429%Z ->
  retry_after r = Some header -> header <> [] ->
  match Num.parseInt header with
  | Some seconds => (seconds <= 0)%Z
  | None => True
  end ->
  reply srv 1 = success payload ->
  let s := slackFetch srv None endpoint method body now in
  outcome s = Ok {| ok := true; error := None; data := payload |} /\
  at_time s = (now + latency srv 0 + latency srv 1)%N /\
  fetches (log s)
  = [ Fetched (build_request endpoint method body) now;
      Fetched (build_request endpoint method body) (now + latency srv 0) ].
Proof.
  intros Er Es Eh Hne Hp E1. cbv zeta. unfold slackFetch.
  rewrite (slackFetch_loop_429 srv _ 3 0 now r Er Es).
  assert (Hd : timer_delay (retryAfterMs (retry_after r)) = 0%N).
  { rewrite Eh. unfold retryAfterMs, or_else.
    destruct header as [|c h]; [congruence|]. cbn [truthy].
    destruct (Num.parseInt (c :: h)) as [seconds|]; [|reflexivity].
    unfold timer_delay. destruct seconds; try reflexivity. lia. }
  rewrite Hd, N.add_0_r.
  cbn [slackFetch_loop fetch]. rewrite E1. unfold success.
  cbn. repeat split.
Qed.

Lemma slackFetch_retry_without_delay_witness :
  let s := slackFetch dated_retry_server None (lit "search.messages") POST [] 0 in
  outcome s = Ok {| ok := true; error := None; data := 7%nat |} /\
  at_time s = 200%N.
Proof.
  destruct (slackFetch_retry_without_delay dated_retry_server _
              (lit "Wed, 21 Oct 2015 07:28:00 GMT") 7%nat
              (lit "search.messages") POST [] 0 eq_refl eq_refl eq_refl)
    as (Ho & Ht & _).
  - discriminate.
  - vm_compute. exact I.
  - reflexivity.
  - split; [exact Ho | exact Ht].
Defined.

(** X6. A signal that has fired before the call rejects it at once; a
    signal that fires while the first request is in flight rejects it at
    that moment. Either way the one request is the only one. *)
Theorem slackFetch_abort_first_request {A} (srv : Server A) fired
    endpoint method body now :
  (fired < now + latency srv 0)%N ->
  let s := slackFetch srv (Some fired) endpoint method body now in
  outcome s = Err AbortError /\
  at_time s = N.max now fired /\
  log s = [Called endpoint body now;
           Fetched (build_request endpoint method body) now].
Proof.
  intros H. cbv zeta. unfold slackFetch. cbn [slackFetch_loop fetch].
  destruct (fired <=? now)%N eqn:E1.
  - apply N.leb_le in E1. cbn. repeat split. lia.
  - apply N.leb_gt in E1.
    destruct (fired <? now + latency srv 0)%N eqn:E2;
      [|apply N.ltb_ge in E2; lia].
    cbn. repeat split. lia.
Qed.

Lemma slackFetch_abort_first_request_witness :
  let s := slackFetch three_429_server (Some 40%N)
             (lit "search.messages") POST [] 0 in
  outcome s = Err AbortError /\ at_time s = 40%N.
Proof.
  destruct (slackFetch_abort_first_request three_429_server 40
              (lit "search.messages") POST [] 0) as (Ho & Ht & _).
  - vm_compute. reflexivity.
  - split; [exact Ho | exact Ht].
Defined.

(* ================================================================== *)
(** * More on performSearch *)
(* ================================================================== *)

(** The loop over pages that report a further page, up to a page whose
    request fails. *)
Lemma performSearch_loop_fails w query ds e : forall fuel acc page now,
  (forall i d, nth_error ds i = Some d ->
     exists env, page_result w query (page + Z.of_nat i) = Ok env /\
                 data env = d /\
                 hasMore (page + Z.of_nat i) d = true) ->
  page_result w query (page + Z.of_nat (length ds)) = Err e ->
  (length ds < fuel)%nat ->
  exists r,
    performSearch_loop w None query fuel acc page now = Some r /\
    outcome r = Err e /\
    calls (log r)
    = map (fun i => (lit "search.messages",
                     search_params query (page + Z.of_nat i)))
        (seq 0 (S (length ds))).
Proof.
  induction ds as [|d ds IH]; intros fuel acc page now Hres Hfail Hfuel.
  - destruct fuel as [|fuel]; [simpl in Hfuel; lia|].
    simpl in Hfail. rewrite Z.add_0_r in Hfail. unfold page_result in Hfail.
    cbn [performSearch_loop]. rewrite slackFetch_outcome_time, Hfail.
    eexists. split; [reflexivity|]. split; [reflexivity|].
    cbn [log length seq map Z.of_nat].
    rewrite slackFetch_calls, Z.add_0_r. reflexivity.
  - destruct fuel as [|fuel]; [simpl in Hfuel; lia|].
    destruct (Hres 0%nat d eq_refl) as (env & Eenv & Ed & Hm).
    rewrite Z.add_0_r in Eenv, Hm. unfold page_result in Eenv.
    cbn [performSearch_loop].
    rewrite slackFetch_outcome_time, Eenv, Ed, Hm.
    destruct (IH fuel (accumulate acc d) (page + 1)%Z
                (at_time (slackFetch (search_messages w query page) None
                            (lit "search.messages") POST
                            (search_params query page) now)))
      as (r & Er & Eo & Ec).
    + intros i x Hi. destruct (Hres (S i) x Hi) as (e' & ? & ? & ?).
      exists e'.
      replace (page + 1 + Z.of_nat i)%Z with (page + Z.of_nat (S i))%Z by lia.
      auto.
    + replace (page + 1 + Z.of_nat (length ds))%Z
        with (page + Z.of_nat (length (d :: ds)))%Z by (simpl length; lia).
      exact Hfail.
    + simpl in Hfuel. lia.
    + rewrite Er. cbn [option_map]. eexists. split; [reflexivity|].
      split; [exact Eo|].
      unfold prepend. cbn [log]. rewrite calls_app, slackFetch_calls.
      change (length (d :: ds)) with (S (length ds)).
      rewrite <- (cons_seq _ 0), <- seq_shift, map_cons, map_map, Ec.
      cbn [app Z.of_nat]. rewrite Z.add_0_r. f_equal.
      apply map_ext. intros i. do 2 f_equal. lia.
Qed.

(** X7. When the pages before it are read and report further pages, a
    page whose request fails fails the whole search with the error of
    that request: the matches read so far are not returned, and no page
    is requested after it. *)
Theorem performSearch_page_failure w query ds e fuel now :
  (forall i d, nth_error ds i = Some d ->
     exists env, page_result w query (1 + Z.of_nat i) = Ok env /\
                 data env = d /\
                 hasMore (1 + Z.of_nat i) d = true) ->
  page_result w query (1 + Z.of_nat (length ds)) = Err e ->
  (length ds < fuel)%nat ->
  exists r,
    performSearch w None query fuel now = Some r /\
    outcome r = Err e /\
    calls (log r)
    = map (fun i => (lit "search.messages",
                     search_params query (1 + Z.of_nat i)))
        (seq 0 (S (length ds))).
Proof. intros. unfold performSearch. apply performSearch_loop_fails; assumption. Qed.

Lemma performSearch_page_failure_witness :
  exists r,
    performSearch third_page_fails None (lit "deploy") 5 0 = Some r /\
    outcome r = Err NonJsonResponse /\
    length (calls (log r)) = 3%nat.
Proof.
  destruct (performSearch_page_failure third_page_fails (lit "deploy")
              [ {| Search.messages :=
                     Some {| Search.matches :=
                               Some [message "p1" "1.0" None None "C1" "first"];
                             Search.paging :=
                               Some {| Search.pages := Some 3%Z |} |} |};
                {| Search.messages :=
                     Some {| Search.matches :=
                               Some [message "p2" "2.0" None None "C1" "second"];
                             Search.paging :=
                               Some {| Search.pages := Some 3%Z |} |} |} ]
              NonJsonResponse 5%nat 0%N) as (r & Er & Eo & Ec).
  - intros i x Hi. destruct i as [|[|i]]; simpl in Hi;
      [injection Hi as <- .. | destruct i; discriminate];
      eexists; repeat split; reflexivity.
  - reflexivity.
  - simpl; lia.
  - exists r. rewrite Er, Eo, Ec. repeat split.
Defined.

(** X8. The executor has no bound of its own on the pages: against an
    upstream that answers every page and always reports a further one, no
    number of iterations brings the loop to its end. *)
Theorem performSearch_unbounded w query :
  (forall page, (1 <= page)%Z ->
     exists env, page_result w query page = Ok env /\
                 hasMore page (data env) = true) ->
  forall fuel now, performSearch w None query fuel now = None.
Proof.
  intros H fuel now. unfold performSearch.
  assert (Hgen : forall page acc t, (1 <= page)%Z ->
            performSearch_loop w None query fuel acc page t = None).
  { induction fuel as [|fuel IH]; intros page acc t Hp; [reflexivity|].
    destruct (H page Hp) as (env & Eenv & Hm). unfold page_result in Eenv.
    cbn [performSearch_loop]. rewrite slackFetch_outcome_time, Eenv, Hm.
    rewrite IH by lia. reflexivity. }
  apply Hgen. lia.
Qed.

Lemma performSearch_unbounded_witness :
  performSearch endless_pages None (lit "deploy") 50 0 = None.
Proof.
  apply (performSearch_unbounded endless_pages (lit "deploy")).
  intros page Hp. unfold page_result, slackFetch.
  cbn [slackFetch_loop fetch endless_pages search_messages scripted reply
       nth page_of success status Z.eqb Pos.eqb is_json content_type json
       outcome prepend ok data].
  eexists. split; [reflexivity|].
  cbn. apply Z.ltb_lt. lia.
Defined.

(* ================================================================== *)
(** * More on the search phase of searchMessages *)
(* ================================================================== *)

Lemma all_some_Forall2 {A B} (f : A -> option B) l ps :
  all_some (map f l) = Some ps -> Forall2 (fun x p => f x = Some p) l ps.
Proof.
  revert ps; induction l as [|x l IH]; simpl; intros ps H.
  - injection H as <-. constructor.
  - destruct (f x) as [p|] eqn:E; [|discriminate].
    destruct (all_some (map f l)) as [r|]; [|discriminate].
    injection H as <-. constructor; auto.
Qed.

Lemma first_page_queries_app a b :
  first_page_queries (a ++ b) = first_page_queries a ++ first_page_queries b.
Proof. unfold first_page_queries. rewrite calls_app. apply flat_map_app. Qed.

Lemma search_call_first_page query page :
  first_page_query (lit "search.messages", search_params query page)
  = if (page =? 1)%Z then [query] else [].
Proof.
  unfold first_page_query, search_params. cbn [snd].
  destruct page as [|[p|p|]|p]; reflexivity.
Qed.

(** A search asks once for a first page, at its start. *)
Lemma performSearch_loop_first_page w signal query fuel :
  forall acc page now r,
    performSearch_loop w signal query fuel acc page now = Some r ->
    (1 <= page)%Z ->
    first_page_queries (log r) = (if (page =? 1)%Z then [query] else []) /\
    (forall c, In c (calls (log r)) -> fst c = lit "search.messages").
Proof.
  induction fuel as [|fuel IH]; intros acc page now r H Hp; [discriminate|].
  cbn [performSearch_loop] in H.
  assert (Hs : first_page_queries
                 (log (slackFetch (search_messages w query page) signal
                         (lit "search.messages") POST
                         (search_params query page) now))
               = (if (page =? 1)%Z then [query] else []) /\
               calls
                 (log (slackFetch (search_messages w query page) signal
                         (lit "search.messages") POST
                         (search_params query page) now))
               = [(lit "search.messages", search_params query page)]).
  { unfold first_page_queries. rewrite slackFetch_calls. simpl flat_map.
    rewrite app_nil_r. split; [apply search_call_first_page | reflexivity]. }
  remember (slackFetch (search_messages w query page) signal
              (lit "search.messages") POST (search_params query page) now)
    as s eqn:Es. clear Es.
  destruct Hs as [Hs Hc].
  destruct (outcome s) as [response|e].
  - destruct (hasMore page (data response)).
    + destruct (performSearch_loop w signal query fuel _ (page + 1) (at_time s))
        as [r'|] eqn:E; [|discriminate].
      injection H as <-. unfold prepend. cbn [log].
      destruct (IH _ _ _ _ E ltac:(lia)) as [IH1 IH2].
      rewrite first_page_queries_app, Hs, IH1, calls_app, Hc.
      destruct (page + 1 =? 1)%Z eqn:E1; [apply Z.eqb_eq in E1; lia|].
      rewrite app_nil_r. split; [reflexivity|].
      intros c [<-|Hin]; [reflexivity | apply IH2, Hin].
    + injection H as <-. cbn [log]. rewrite Hc. split; [exact Hs|].
      intros c [<-|[]]. reflexivity.
  - injection H as <-. cbn [log]. rewrite Hc. split; [exact Hs|].
    intros c [<-|[]]. reflexivity.
Qed.

Lemma performSearch_first_page w signal query fuel now r :
  performSearch w signal query fuel now = Some r ->
  first_page_queries (log r) = [query] /\
  (forall c, In c (calls (log r)) -> fst c = lit "search.messages").
Proof.
  intros H. apply performSearch_loop_first_page in H; [exact H | lia].
Qed.

Lemma searches_first_pages w signal fuel now (queries : list jsstring) ps :
  Forall2 (fun q p => performSearch w signal q fuel now = Some p) queries ps ->
  first_page_queries (concat (map (@log (list Msg)) ps)) = queries /\
  (forall c, In c (calls (concat (map (@log (list Msg)) ps))) ->
             fst c = lit "search.messages").
Proof.
  induction 1 as [|q p queries ps Hp _ [IH1 IH2]]; simpl.
  - split; [reflexivity | intros c []].
  - apply performSearch_first_page in Hp as [H1 H2].
    rewrite first_page_queries_app, calls_app, H1, IH1.
    split; [reflexivity|].
    intros c Hc. apply in_app_or in Hc as [Hc|Hc]; auto.
Qed.

Lemma Forall2_map_l {A B C} (f : A -> B) (R : B -> C -> Prop) l l' :
  Forall2 (fun x y => R (f x) y) l l' -> Forall2 R (map f l) l'.
Proof. induction 1; simpl; constructor; auto. Qed.

Lemma rejection_exists {A} (ps : list (Settled A)) p e :
  In p ps -> outcome p = Err e ->
  exists e' t, first_rejection ps = Some (e', t).
Proof.
  induction ps as [|q ps IH]; simpl; [tauto|].
  intros [->|Hin] He.
  - rewrite He. destruct (first_rejection ps) as [[e' t']|];
      [destruct (t' <? at_time p)%N|]; eauto.
  - destruct (IH Hin He) as (e' & t & ->).
    destruct (outcome q); [eauto|].
    destruct (t <? at_time q)%N; eauto.
Qed.

Lemma Promise_all_rejects {A} now (ps : list (Settled A)) p e :
  In p ps -> outcome p = Err e ->
  exists e', outcome (Promise_all now ps) = Err e'.
Proof.
  intros Hin He. destruct (rejection_exists ps p e Hin He) as (e' & t & E).
  unfold Promise_all. rewrite E. exists e'. reflexivity.
Qed.

(** The searches of one variation. *)
Lemma variationSearch_tasks w signal fuel params now variation pv :
  variationSearch w signal fuel params now variation = Some pv ->
  exists ps,
    Forall2 (fun q p => performSearch w signal q fuel now = Some p)
      (variation_queries params variation) ps /\
    log pv = concat (map (@log (list Msg)) ps) /\
    (forall p e, In p ps -> outcome p = Err e ->
                 exists e', outcome pv = Err e').
Proof.
  unfold variationSearch, variation_queries. cbv zeta.
  destruct (channels params) as [|c cs] eqn:Ec.
  - intros H. exists [pv]. split; [repeat constructor; exact H|].
    split; [simpl; symmetry; apply app_nil_r|].
    intros p e [<-|[]] He. eauto.
  - destruct (all_some _) as [ps|] eqn:E; [|discriminate].
    cbn [option_map]. intros H. injection H as <-.
    apply all_some_Forall2 in E. exists ps.
    split; [apply Forall2_map_l with
              (R := fun q p => performSearch w signal q fuel now = Some p);
            exact E|].
    split; [unfold then_; cbn [log]; apply Promise_all_log|].
    intros p e Hin He.
    destruct (Promise_all_rejects now ps p e Hin He) as (e' & E').
    exists e'. unfold then_. cbn [outcome]. rewrite E'. reflexivity.
Qed.

(** The searches of all variations. *)
Lemma searchPhase_tasks w signal fuel params now found :
  searchPhase w signal fuel params now = Some found ->
  first_page_queries (log found) = planned_queries params /\
  (forall c, In c (calls (log found)) -> fst c = lit "search.messages") /\
  (forall q p e, In q (planned_queries params) ->
     performSearch w signal q fuel now = Some p -> outcome p = Err e ->
     exists e', outcome found = Err e').
Proof.
  unfold searchPhase, planned_queries. cbv zeta.
  destruct (all_some _) as [pvs|] eqn:E; [|discriminate].
  cbn [option_map]. intros H. injection H as <-.
  apply all_some_Forall2 in E.
  unfold then_. cbn [log outcome]. rewrite Promise_all_log.
  assert (Hlog : first_page_queries (concat (map (@log (list Msg)) pvs))
                 = flat_map (variation_queries params)
                     (generateQueryVariations (keyword params)) /\
                 (forall c, In c (calls (concat (map (@log (list Msg)) pvs))) ->
                            fst c = lit "search.messages")).
  { induction E as [|v pv vs pvs Hv _ [IH1 IH2]]; simpl.
    - split; [reflexivity | intros c []].
    - destruct (variationSearch_tasks _ _ _ _ _ _ _ Hv) as (ps & Hps & Hl & _).
      apply searches_first_pages in Hps as [H1 H2].
      rewrite first_page_queries_app, calls_app, Hl, H1, IH1.
      split; [reflexivity|].
      intros c Hc. apply in_app_or in Hc as [Hc|Hc]; auto. }
  destruct Hlog as [Hl1 Hl2]. split; [exact Hl1|]. split; [exact Hl2|].
  intros q p e Hq Hp He.
  apply in_flat_map in Hq as (v & Hv & Hq).
  destruct (Forall2_In_l _ _ _ _ E Hv) as (pv & Hpv & Epv).
  destruct (variationSearch_tasks _ _ _ _ _ _ _ Epv) as (ps & Hps & _ & Hrej).
  destruct (Forall2_In_l _ _ _ _ Hps Hq) as (p' & Hp' & Ep').
  rewrite Hp in Ep'. injection Ep' as <-.
  destruct (Hrej p e Hp' He) as (e1 & E1).
  destruct (Promise_all_rejects now pvs pv e1 Hpv E1) as (e' & E').
  exists e'. rewrite E'. reflexivity.
Qed.

Lemma variation_queries_length params v :
  length (variation_queries params v)
  = Nat.max 1 (length (channels params)).
Proof.
  unfold variation_queries. destruct (channels params) as [|c cs];
    [reflexivity|].
  rewrite length_map. reflexivity.
Qed.

Lemma planned_queries_length params :
  length (planned_queries params)
  = (length (generateQueryVariations (keyword params))
     * Nat.max 1 (length (channels params)))%nat.
Proof.
  unfold planned_queries.
  induction (generateQueryVariations (keyword params)) as [|v vs IH];
    [reflexivity|].
  cbn [flat_map length]. rewrite length_app, IH, variation_queries_length.
  lia.
Qed.

(** X9. The search phase starts one search for every variation of the
    keyword and, when channels are given, for every channel: the first
    pages it asks for are those of the queries
    [<variation> after:<startDate> before:<endDate>], with [ in:<channel>]
    appended for a channel, variation by variation; their number is the
    number of variations times the number of channels, or of variations
    when no channel is given. *)
Theorem searchPhase_fan_out w signal fuel params now found :
  searchPhase w signal fuel params now = Some found ->
  first_page_queries (log found) = planned_queries params /\
  length (first_page_queries (log found))
  = (length (generateQueryVariations (keyword params))
     * Nat.max 1 (length (channels params)))%nat.
Proof.
  intros H. apply searchPhase_tasks in H as (H & _).
  rewrite H. split; [reflexivity | apply planned_queries_length].
Qed.

Lemma searchPhase_fan_out_witness :
  exists found,
    searchPhase nothing_found None 2 two_by_two 0 = Some found /\
    first_page_queries (log found)
    = [ lit "shotband after:2024-01-01 before:2024-02-01 in:C1";
        lit "shotband after:2024-01-01 before:2024-02-01 in:C2";
        lit "shot band after:2024-01-01 before:2024-02-01 in:C1";
        lit "shot band after:2024-01-01 before:2024-02-01 in:C2" ].
Proof.
  eexists. split; [reflexivity|].
  apply (proj1 (searchPhase_fan_out nothing_found None 2 two_by_two 0 _
                  eq_refl)).
Defined.



(** X11. When the searches find nothing, the call resolves with an empty
    array as soon as they are done, without a further request. *)
Theorem searchMessages_nothing_found w signal fuel params now found :
  searchPhase w signal fuel params now = Some found ->
  outcome found = Ok [] ->
  exists r, searchMessages w signal fuel params now = Some r /\
            outcome r = Ok [] /\ at_time r = at_time found /\
            log r = log found.
Proof.
  intros Hs Ho. unfold searchMessages. rewrite Hs, Ho.
  eexists. split; [reflexivity|]. unfold prepend, threadPhase. cbn.
  rewrite app_nil_r. repeat split.
Qed.

Lemma searchMessages_nothing_found_witness :
  exists r, searchMessages nothing_found None 2 deploy_query 0 = Some r /\
            outcome r = Ok [] /\ at_time r = 50%N /\
            length (calls (log r)) = 1%nat.
Proof.
  destruct (searchMessages_nothing_found nothing_found None 2 deploy_query 0
              _ eq_refl eq_refl) as (r & Er & Eo & Et & El).
  exists r. rewrite Er, Eo, Et, El. repeat split.
Defined.

(** X12. A keyword of thirty-two words has no variation, so the call
    resolves at once with an empty array and sends no request, whatever
    the workspace holds. *)
Theorem searchMessages_32_words_no_request w signal fuel params now :
  length (words_of (keyword params)) = 32%nat ->
  searchMessages w signal fuel params now
  = Some {| outcome := Ok []; at_time := now; log := [] |}.
Proof.
  intros H32.
  assert (Ev : generateQueryVariations (keyword params) = []).
  { unfold generateQueryVariations. rewrite H32. reflexivity. }
  unfold searchMessages, searchPhase. rewrite Ev. reflexivity.
Qed.

Lemma searchMessages_32_words_no_request_witness :
  searchMessages both_threads None 2 long_query 0
  = Some {| outcome := Ok []; at_time := 0%N; log := [] |}.
Proof.
  apply (searchMessages_32_words_no_request both_threads None 2 long_query 0).
  reflexivity.
Defined.

(* ================================================================== *)
(** * The assembled result *)
(* ================================================================== *)

(** ** Grouping neither drops nor repeats a message *)

Lemma Map_set_present {V} k (g g' : V) (m : list (jsstring * V)) :
  Map_get jsstring_eq_dec k m = Some g ->
  exists m1 m2, m = m1 ++ (k, g) :: m2 /\
                Map_set jsstring_eq_dec k g' m = m1 ++ (k, g') :: m2.
Proof.
  induction m as [|[k' v'] m IH]; simpl; [discriminate|].
  destruct (jsstring_eq_dec k k') as [<-|Hne].
  - intros H. injection H as <-. exists [], m. split; reflexivity.
  - intros H. destruct (IH H) as (m1 & m2 & -> & ->).
    exists ((k', v') :: m1), m2. split; reflexivity.
Qed.

Lemma Map_set_absent {V} k (v : V) (m : list (jsstring * V)) :
  Map_get jsstring_eq_dec k m = None ->
  Map_set jsstring_eq_dec k v m = m ++ [(k, v)].
Proof.
  induction m as [|[k' v'] m IH]; simpl; [reflexivity|].
  destruct (jsstring_eq_dec k k'); [discriminate|].
  intros H. rewrite (IH H). reflexivity.
Qed.

Lemma Map_set_push k g msg (m : list (jsstring * list Msg)) :
  Map_get jsstring_eq_dec k m = Some g ->
  Permutation
    (concat (Map_values (Map_set jsstring_eq_dec k (g ++ [msg]) m)))
    (msg :: concat (Map_values m)).
Proof.
  intros H.
  destruct (Map_set_present k g (g ++ [msg]) m H) as (m1 & m2 & -> & ->).
  unfold Map_values. rewrite !map_app, !concat_app. simpl.
  rewrite <- (app_assoc g [msg]). simpl.
  rewrite !(app_assoc (concat (map snd m1)) g).
  symmetry. apply Permutation_middle.
Qed.

Lemma thread_push_concat m msg :
  Permutation (concat (Map_values (thread_push m msg)))
              (msg :: concat (Map_values m)).
Proof.
  unfold thread_push, Map_has. cbv zeta.
  destruct (Map_get jsstring_eq_dec (threadKey msg) m) as [g|] eqn:E.
  - rewrite E. apply Map_set_push, E.
  - rewrite Map_get_set.
    destruct (jsstring_eq_dec (threadKey msg) (threadKey msg)); [|congruence].
    etransitivity; [apply Map_set_push; rewrite Map_get_set;
                    destruct (jsstring_eq_dec (threadKey msg) (threadKey msg));
                    [reflexivity | congruence]|].
    rewrite (Map_set_absent _ _ _ E).
    unfold Map_values. rewrite map_app, concat_app. simpl.
    rewrite app_nil_r. reflexivity.
Qed.

Lemma threads_concat l : Permutation (concat (Map_values (threads l))) l.
Proof.
  induction l as [|x l IH] using rev_ind; [reflexivity|].
  rewrite threads_snoc, thread_push_concat, IH.
  apply Permutation_cons_append.
Qed.

Lemma to_conversations_concat gs cs :
  Forall2 (fun g c => to_conversation g = Ok c) gs cs ->
  Permutation (flat_map members cs) (concat gs).
Proof.
  induction 1 as [|g c gs cs H _ IH]; cbn [flat_map concat]; [reflexivity|].
  apply Permutation_app; [|exact IH].
  rewrite (to_conversation_members _ _ H). apply Array_sort_perm.
Qed.

(** The messages of the conversations are the deduplicated messages, each
    of them once. *)
Lemma conversations_permutation allMessages out :
  conversations allMessages = Ok out ->
  Permutation (flat_map members out) (finalUniqueMessages allMessages).
Proof.
  destruct (conversations_spec allMessages) as (cs & Ecs & E & _).
  rewrite E. intros H. injection H as <-.
  rewrite (Permutation_flat_map members
             (Array_sort_perm (fun a b => by_ts (parent a) (parent b)) cs)).
  rewrite (to_conversations_concat _ _ (map_result_Ok _ _ _ Ecs)).
  apply threads_concat.
Qed.

(** X13. No two messages of a result have the same timestamp, be they
    parents or replies, of one conversation or of two. *)
Theorem searchMessages_timestamps_unique w signal fuel params now r out :
  searchMessages w signal fuel params now = Some r ->
  outcome r = Ok out ->
  NoDup (map ts (flat_map members out)).
Proof.
  intros Hr Ho.
  destruct (searchMessages_Ok _ _ _ _ _ _ _ Hr Ho)
    as (found & u & results & _ & _ & _ & Hc).
  apply conversations_permutation in Hc.
  apply (Permutation_NoDup (Permutation_map ts (Permutation_sym Hc))).
  apply (dedup_NoDup jsstring_eq_dec ts).
Qed.

Lemma searchMessages_timestamps_unique_witness :
  exists r out,
    searchMessages both_threads None 3 deploy_query 0 = Some r /\
    outcome r = Ok out /\
    NoDup (map ts (flat_map members out)).
Proof.
  eexists. eexists. split; [reflexivity|]. split; [reflexivity|].
  apply (searchMessages_timestamps_unique both_threads None 3 deploy_query 0
           _ _ eq_refl eq_refl).
Defined.



(** X15. Once the searches have succeeded the call settles, and the only
    way it can fail is by cancellation: it is rejected, with the abort,
    exactly when the fetch of one of the threads is aborted. *)
Theorem searchMessages_rejects_only_on_abort w signal fuel params now found u :
  searchPhase w signal fuel params now = Some found ->
  outcome found = Ok u ->
  exists r,
    searchMessages w signal fuel params now = Some r /\
    ((exists out, outcome r = Ok out) \/ outcome r = Err AbortError) /\
    (outcome r = Err AbortError <->
     exists thread channelId,
       In (thread, channelId) (threadTsToFetch u) /\
       thread_result w signal (at_time found) thread channelId
       = Err AbortError).
Proof.
  intros Hs Hu. unfold searchMessages. rewrite Hs, Hu.
  eexists. split; [reflexivity|]. unfold prepend, threadPhase. cbn [outcome].
  set (ps := map (threadFetch w signal (at_time found)) (threadTsToFetch u)).
  destruct (first_rejection ps) as [[e t]|] eqn:E.
  - unfold Promise_all. rewrite E. cbn [outcome].
    apply first_rejection_Some in E as (p & Hp & Ep).
    apply in_map_iff in Hp as ([thread channelId] & <- & Hin).
    apply threadFetch_Err in Ep as [-> Ha].
    split; [right; reflexivity|]. split; [eauto | reflexivity].
  - unfold Promise_all. rewrite E. cbn [outcome].
    destruct (conversations_spec
                (standaloneMessages u ++ concat (fulfilled ps)))
      as (cs & _ & Ec & _).
    rewrite Ec. split; [left; eauto|]. split; [discriminate|].
    intros (thread & channelId & Hin & Ha). exfalso.
    apply first_rejection_None in E.
    assert (Hp : In (threadFetch w signal (at_time found) (thread, channelId)) ps)
      by (apply in_map, Hin).
    destruct (Forall2_In_l _ _ _ _ E Hp) as (rs & _ & Ers).
    unfold threadFetch, thread_result in *. cbn [outcome] in Ers.
    rewrite Ha in Ers. discriminate.
Qed.

Lemma searchMessages_rejects_only_on_abort_witness :
  exists r,
    searchMessages both_threads (Some 60%N) 3 deploy_query 0 = Some r /\
    outcome r = Err AbortError.
Proof.
  destruct (searchMessages_rejects_only_on_abort both_threads (Some 60%N) 3
              deploy_query 0 _ _ eq_refl eq_refl) as (r & Er & _ & Hiff).
  exists r. split; [exact Er|].
  apply Hiff. exists (lit "1.5"), (lit "C1").
  split; [left; reflexivity | reflexivity].
Defined.

(* ================================================================== *)
(** * The keyword that the dashboard searches for *)
(* ================================================================== *)

Lemma head_cons_app (x : N) (l l' : list jsstring) :
  l <> [] ->
  match l ++ l' with p :: ps => (x :: p) :: ps | [] => [[x]] end
  = match l with p :: ps => (x :: p) :: ps | [] => [[x]] end ++ l'.
Proof. destruct l; [congruence | reflexivity]. Qed.

(** Splitting at a separator: the pieces before it, without a last empty
    piece that the separator continues, then the pieces after it. *)
Lemma split_go_separator c b : is_ws c = true -> forall a pb,
  split_go pb (a ++ c :: b) = split_go pb a ++ split_go true b \/
  exists init,
    split_go pb a = init ++ [[]] /\ (pb = false -> init <> []) /\
    split_go pb (a ++ c :: b) = init ++ split_go true b.
Proof.
  intros Hc. induction a as [|x a IH]; intros pb.
  - simpl. rewrite Hc. destruct pb.
    + right. exists []. repeat split. discriminate.
    + left. reflexivity.
  - simpl. destruct (is_ws x).
    + destruct pb; [apply IH|].
      destruct (IH true) as [E|(init & E1 & _ & E2)].
      * left. rewrite E. reflexivity.
      * right. exists ([] :: init). rewrite E1, E2.
        repeat split. discriminate.
    + destruct (IH false) as [E|(init & E1 & Hn & E2)].
      * left. rewrite E. apply head_cons_app, split_go_nonempty.
      * right. specialize (Hn eq_refl).
        exists (match init with p :: ps => (x :: p) :: ps | [] => [[x]] end).
        rewrite E1, E2. rewrite !head_cons_app by assumption.
        repeat split. destruct init; discriminate.
Qed.

Lemma split_go_after_separator s :
  filter truthy (split_go true s) = filter truthy (split_go false s).
Proof.
  destruct s as [|c s]; [reflexivity|]. simpl.
  destruct (is_ws c); reflexivity.
Qed.

Lemma words_of_separator a c b :
  is_ws c = true -> words_of (a ++ c :: b) = words_of a ++ words_of b.
Proof.
  intros Hc. unfold words_of, split_ws.
  rewrite <- (split_go_after_separator b).
  destruct (split_go_separator c b Hc a false) as [E|(init & E1 & _ & E2)].
  - rewrite E. apply filter_app.
  - rewrite E1, E2, !filter_app. simpl. rewrite app_nil_r. reflexivity.
Qed.

(** X16. The dashboard searches for the keywords joined by spaces, and the
    search takes that keyword apart at every white space: its words are
    the words of all the keywords, so a keyword of several words counts
    as several. *)
Theorem joined_keywords_words (keywords : list jsstring) :
  words_of (join_space keywords) = flat_map words_of keywords.
Proof.
  induction keywords as [|k [|k' rest] IH].
  - reflexivity.
  - simpl. symmetry. apply app_nil_r.
  - change (join_space (k :: k' :: rest))
      with (k ++ space :: join_space (k' :: rest)).
    rewrite words_of_separator by reflexivity.
    rewrite IH. reflexivity.
Qed.

(* ================================================================== *)
(** * Properties of getPublicChannels *)
(* ================================================================== *)

Lemma prepend_nil {A} (s : Settled A) : prepend [] s = s.
Proof. destruct s. reflexivity. Qed.

Lemma copied_channels (listed : list Channels.Channel) :
  map (fun c => {| Channels.id := Channels.id c;
                   Channels.name := Channels.name c |}) listed
  = listed.
Proof.
  induction listed as [|[i n] l IH]; simpl; [reflexivity|].
  rewrite IH. reflexivity.
Qed.

(** Sorting with a comparator that orders the elements. *)
Section SortByOrder.
Context {A : Type}.
Variable compare : A -> A -> Num.number.
Variable le : A -> A -> Prop.
Hypothesis le_after : forall x y, Num.positive (compare x y) = true -> le y x.
Hypothesis le_not_after :
  forall x y, Num.positive (compare x y) = false -> le x y.
Hypothesis le_trans : forall x y z, le x y -> le y z -> le x z.

Lemma sort_insert_ordered x l :
  StronglySorted le l -> StronglySorted le (sort_insert compare x l).
Proof.
  intros Hs. induction Hs as [|y l Hs IH Hy]; simpl.
  - repeat constructor.
  - destruct (Num.positive (compare x y)) eqn:E.
    + constructor; [exact IH|].
      apply Forall_forall. intros z Hz.
      apply (Permutation_in _ (sort_insert_perm compare x l)) in Hz.
      destruct Hz as [<-|Hz]; [apply le_after, E|].
      rewrite Forall_forall in Hy. apply Hy, Hz.
    + constructor; [constructor; assumption|].
      constructor; [apply le_not_after, E|].
      rewrite Forall_forall in Hy |- *. intros z Hz.
      apply le_trans with y; [apply le_not_after, E | apply Hy, Hz].
Qed.

Lemma Array_sort_ordered l : StronglySorted le (Array_sort compare l).
Proof.
  induction l as [|x l IH]; simpl; [constructor|].
  apply sort_insert_ordered, IH.
Qed.
End SortByOrder.

Section GetPublicChannelsFacts.
Variable conversations_list : option jsstring -> Server Channels.Data.
Variable localeCompare : jsstring -> jsstring -> Z.
Local Abbreviation loop := (getPublicChannels_loop conversations_list).
Local Abbreviation result := (list_result conversations_list).
Local Abbreviation read := (pages_read conversations_list).

(** The iterations that read the pages [ds] lead to the request with the
    cursor of the last of them. *)
Lemma getPublicChannels_loop_pages ds : forall acc cursor final now,
  read cursor ds final ->
  exists evs t,
    calls evs ++ [list_call final]
    = map list_call (cursor :: map next_cursor_of ds) /\
    forall fuel,
      loop (length ds + fuel) acc cursor now
      = option_map (prepend evs)
          (loop fuel (acc ++ flat_map listed_channels ds) final t).
Proof.
  induction ds as [|d ds IH]; intros acc cursor final now H.
  - simpl in H. subst final. exists [], now. split; [reflexivity|].
    intros fuel. simpl. rewrite app_nil_r.
    destruct (loop fuel acc cursor now) as [s|]; [|reflexivity].
    simpl. rewrite prepend_nil. reflexivity.
  - destruct H as ((env & Eenv & Ed) & Hch & Hc & Hrest).
    destruct (Channels.channels d) as [listed|] eqn:El; [|congruence].
    set (r := slackFetch (conversations_list cursor) None
                (lit "conversations.list") GET (list_params cursor) now).
    destruct (IH (acc ++ listed) (next_cursor_of d) final (at_time r) Hrest)
      as (evs & t & Ecalls & Hloop).
    exists (log r ++ evs), t. split.
    + rewrite calls_app. unfold r. rewrite slackFetch_calls.
      simpl. f_equal. exact Ecalls.
    + intros fuel. cbn [length Nat.add getPublicChannels_loop].
      fold r. unfold list_result in Eenv.
      unfold r at 1. rewrite slackFetch_outcome_time, Eenv, Ed, El, Hc.
      rewrite copied_channels, Hloop.
      cbn [flat_map]. unfold listed_channels at 2. rewrite El, app_assoc.
      destruct (loop fuel _ final t) as [s|]; [|reflexivity].
      simpl. rewrite prepend_prepend. reflexivity.
Qed.

(** X17. The listing follows the cursors: it asks for the first page
    without a cursor and for every further page with the cursor of the
    page before, up to the first page that has no cursor or an empty one,
    and it returns the channels of all those pages, each as often as it
    is listed. *)
Theorem getPublicChannels_all_pages ds final env listed fuel now :
  read None ds final ->
  result final = Ok env ->
  Channels.channels (data env) = Some listed ->
  truthy_cursor (next_cursor_of (data env)) = false ->
  (length ds < fuel)%nat ->
  exists r out,
    getPublicChannels conversations_list localeCompare fuel now = Some r /\
    outcome r = Ok out /\
    Permutation out (flat_map listed_channels ds ++ listed) /\
    calls (log r) = map list_call (None :: map next_cursor_of ds).
Proof.
  intros Hread Eenv El Hc Hfuel.
  destruct (getPublicChannels_loop_pages ds [] None final now Hread)
    as (evs & t & Ecalls & Hloop).
  unfold getPublicChannels.
  replace fuel with (length ds + S (fuel - length ds - 1))%nat by lia.
  rewrite Hloop. cbn [getPublicChannels_loop].
  unfold list_result in Eenv.
  rewrite slackFetch_outcome_time, Eenv, El, Hc, copied_channels.
  cbn [option_map]. eexists. eexists. split; [reflexivity|].
  unfold then_, prepend. cbn [outcome log].
  split; [reflexivity|]. split; [apply Array_sort_perm|].
  rewrite calls_app, slackFetch_calls. exact Ecalls.
Qed.

(** X18. The channels come back in the order of their names, as the
    comparison of the locale has it, when that comparison is an order. *)
Theorem getPublicChannels_sorted fuel now r out :
  (forall a b, (0 < localeCompare a b)%Z -> (localeCompare b a <= 0)%Z) ->
  (forall a b c, (localeCompare a b <= 0)%Z -> (localeCompare b c <= 0)%Z ->
                 (localeCompare a c <= 0)%Z) ->
  getPublicChannels conversations_list localeCompare fuel now = Some r ->
  outcome r = Ok out ->
  StronglySorted (name_le localeCompare) out.
Proof.
  intros Hanti Htrans. unfold getPublicChannels.
  destruct (getPublicChannels_loop _ _ _ _ _) as [s|]; [|discriminate].
  cbn [option_map]. intros H. injection H as <-.
  unfold then_. cbn [outcome]. destruct (outcome s) as [l|]; [|discriminate].
  intros H. injection H as <-.
  assert (Hpos : forall x y,
            Num.positive (by_name localeCompare x y) = true <->
            (0 < localeCompare (Channels.name x) (Channels.name y))%Z).
  { intros x y. unfold by_name, Num.positive. rewrite negb_true_iff.
    destruct (Qle_bool _ _) eqn:E.
    - apply Qle_bool_iff in E. unfold Qle in E. simpl in E.
      split; [discriminate | lia].
    - split; [intros _ | reflexivity].
      destruct (Z_lt_le_dec 0 (localeCompare (Channels.name x)
                                 (Channels.name y))) as [Hlt|Hle];
        [exact Hlt|].
      assert (Hb : Qle_bool (inject_Z (localeCompare (Channels.name x)
                                         (Channels.name y))) 0 = true).
      { apply Qle_bool_iff. unfold Qle. simpl. lia. }
      congruence. }
  apply Array_sort_ordered.
  - intros x y H. apply Hpos in H. apply Hanti, H.
  - intros x y H. unfold name_le.
    destruct (Z_lt_le_dec 0 (localeCompare (Channels.name x)
                               (Channels.name y))) as [Hlt|Hle];
      [|exact Hle].
    apply Hpos in Hlt. congruence.
  - intros x y z. apply Htrans.
Qed.

(** X19. A page that cannot be read fails the listing: when its request
    is rejected, or its reply has no array of channels, the call is
    rejected and the channels of the pages before are not returned. *)
Theorem getPublicChannels_page_failure ds final e fuel now :
  read None ds final ->
  result final = Err e \/
  (exists env, result final = Ok env /\
               Channels.channels (data env) = None /\ e = TypeError) ->
  (length ds < fuel)%nat ->
  exists r,
    getPublicChannels conversations_list localeCompare fuel now = Some r /\
    outcome r = Err e /\
    calls (log r) = map list_call (None :: map next_cursor_of ds).
Proof.
  intros Hread Hfail Hfuel.
  destruct (getPublicChannels_loop_pages ds [] None final now Hread)
    as (evs & t & Ecalls & Hloop).
  unfold getPublicChannels.
  replace fuel with (length ds + S (fuel - length ds - 1))%nat by lia.
  rewrite Hloop. cbn [getPublicChannels_loop].
  unfold list_result in Hfail.
  destruct Hfail as [Ee|(env & Eenv & El & ->)].
  - rewrite slackFetch_outcome_time, Ee. cbn [option_map].
    eexists. split; [reflexivity|]. unfold then_, prepend. cbn [outcome log].
    split; [reflexivity|].
    rewrite calls_app, slackFetch_calls. exact Ecalls.
  - rewrite slackFetch_outcome_time, Eenv, El. cbn [option_map].
    eexists. split; [reflexivity|]. unfold then_, prepend. cbn [outcome log].
    split; [reflexivity|].
    rewrite calls_app, slackFetch_calls. exact Ecalls.
Qed.
End GetPublicChannelsFacts.

Lemma getPublicChannels_all_pages_witness :
  exists r out,
    getPublicChannels two_channel_pages by_first_unit 5 0 = Some r /\
    outcome r = Ok out /\
    Permutation out
      [channel "C2" "random"; channel "C1" "general"; channel "C3" "dev"] /\
    calls (log r) = [list_call None; list_call (Some (lit "next"))].
Proof.
  eapply (getPublicChannels_all_pages two_channel_pages by_first_unit
            [channel_page [channel "C2" "random"; channel "C1" "general"]
               (Some "next"%string)]
            (Some (lit "next")) _ [channel "C3" "dev"] 5 0).
  - split; [eexists; split; reflexivity|].
    split; [discriminate|]. split; reflexivity.
  - reflexivity.
  - reflexivity.
  - reflexivity.
  - simpl; lia.
Defined.

Lemma getPublicChannels_sorted_witness :
  exists r out,
    getPublicChannels two_channel_pages by_first_unit 5 0 = Some r /\
    outcome r = Ok out /\
    out = [channel "C3" "dev"; channel "C1" "general"; channel "C2" "random"] /\
    StronglySorted (name_le by_first_unit) out.
Proof.
  eexists. eexists. split; [reflexivity|]. split; [reflexivity|].
  split; [reflexivity|].
  eapply (getPublicChannels_sorted two_channel_pages by_first_unit 5 0);
    [| | reflexivity | reflexivity]; unfold by_first_unit; intros; lia.
Defined.

Lemma getPublicChannels_page_failure_witness :
  exists r,
    getPublicChannels second_list_fails by_first_unit 5 0 = Some r /\
    outcome r = Err NonJsonResponse /\
    calls (log r) = [list_call None; list_call (Some (lit "next"))].
Proof.
  apply (getPublicChannels_page_failure second_list_fails by_first_unit
           [channel_page [channel "C2" "random"] (Some "next"%string)]
           (Some (lit "next")) NonJsonResponse 5 0).
  - split; [eexists; split; reflexivity|].
    split; [discriminate|]. split; reflexivity.
  - left. reflexivity.
  - simpl; lia.
Defined.

(* ================================================================== *)
(** * Properties of verifyToken *)
(* ================================================================== *)

Section VerifyTokenFacts.
Variable u : Upstream.

Lemma history_check_outcome now :
  outcome (history_check u now)
  = Ok (match first_public_channel u with
        | Some channelId =>
            if succeeds (history_call u channelId)
            then Some (lit "channels:history") else None
        | None => None
        end).
Proof.
  unfold history_check, first_public_channel, list_public_call. cbv zeta.
  rewrite (slackFetch_outcome_time _ _ _ _ now).
  destruct (outcome (slackFetch _ None _ _ _ 0)) as [channelsData|e];
    [|reflexivity].
  destruct (Channels.channels (data channelsData)) as [[|first rest]|];
    try reflexivity.
  cbn [outcome]. unfold succeeds, history_call.
  rewrite slackFetch_outcome_time.
  destruct (outcome (slackFetch _ None _ _ _ 0)); reflexivity.
Qed.

(** The checks never reject, and their results are those of the calls. *)
Lemma scope_checks_outcome team_id now :
  exists results,
    outcome (Promise_all now (scopeCheckPromises u team_id now)) = Ok results /\
    non_null results = checked_scopes u team_id.
Proof.
  unfold Promise_all, scopeCheckPromises.
  pose proof (history_check_outcome now) as Hh.
  cbn [first_rejection fulfilled scope_check outcome]. rewrite Hh.
  cbn [outcome]. eexists. split; [reflexivity|].
  unfold non_null, checked_scopes, succeeds,
    team_info_call, list_any_call, search_check_call.
  rewrite !(slackFetch_outcome_time _ _ _ _ now).
  cbn [flat_map].
  destruct (outcome (slackFetch (team_info u team_id) _ _ _ _ 0));
    destruct (outcome (slackFetch (conversations_list_any u) _ _ _ _ 0));
    destruct (outcome (slackFetch (search_messages_check u) _ _ _ _ 0));
    destruct (first_public_channel u) as [c|];
    try destruct (match outcome (history_call u c 0) with
                  | Ok _ => true | Err _ => false end);
    reflexivity.
Qed.

Lemma checked_scopes_team_read team_id :
  Array_includes (lit "team:read") (checked_scopes u team_id)
  = succeeds (team_info_call u team_id).
Proof.
  unfold checked_scopes.
  destruct (succeeds (team_info_call u team_id));
    destruct (succeeds (list_any_call u));
    destruct (succeeds (search_check_call u));
    destruct (first_public_channel u) as [c|];
    try destruct (succeeds (history_call u c)); reflexivity.
Qed.

(** The run after [auth.test] has answered in time. *)
Lemma verifyToken_checked now env :
  verdict (withTimeout (auth_call u now) 20000 now) = inl env ->
  let team_id := Auth.team_id (data env) in
  verdict (verifyToken u now)
  = if succeeds (team_info_call u team_id) then
      match outcome (team_icon_call u team_id 0) with
      | Ok response =>
          inl {| Workspace.id := team_id;
                 Workspace.name := Auth.team (data env);
                 Workspace.teamIcon := icon_of (data response);
                 Workspace.scopes := checked_scopes u team_id |}
      | Err e => inr (Thrown e)
      end
    else
      inl {| Workspace.id := team_id;
             Workspace.name := Auth.team (data env);
             Workspace.teamIcon := [];
             Workspace.scopes := checked_scopes u team_id |}.
Proof.
  intros Ha team_id. unfold verifyToken. cbv zeta. rewrite Ha.
  fold team_id.
  destruct (scope_checks_outcome team_id
              (settled_at (withTimeout (auth_call u now) 20000 now)))
    as (results & Er & En).
  rewrite Er, En, checked_scopes_team_read.
  destruct (succeeds (team_info_call u team_id)); [|reflexivity].
  cbn [verdict]. unfold team_icon_call.
  rewrite slackFetch_outcome_time. reflexivity.
Qed.

(** X20. The scopes of a verified workspace are those whose checks
    succeeded, in the order [team:read], [channels:read], [search:read],
    [channels:history] whatever the order in which the checks end; the
    last one is granted only when a public channel is listed and its
    history can be read. The workspace carries the team of [auth.test]. *)
Theorem verifyToken_scopes now ws :
  verdict (verifyToken u now) = inl ws ->
  Workspace.scopes ws = checked_scopes u (Workspace.id ws) /\
  exists env,
    verdict (withTimeout (auth_call u now) 20000 now) = inl env /\
    Workspace.id ws = Auth.team_id (data env) /\
    Workspace.name ws = Auth.team (data env).
Proof.
  intros H.
  destruct (verdict (withTimeout (auth_call u now) 20000 now))
    as [env|f] eqn:Ea.
  - rewrite (verifyToken_checked now env Ea) in H. cbv zeta in H.
    destruct (succeeds (team_info_call u (Auth.team_id (data env)))).
    + destruct (outcome (team_icon_call u _ 0)); [|discriminate].
      injection H as <-. cbn. eauto.
    + injection H as <-. cbn. eauto.
  - unfold verifyToken in H. cbv zeta in H. rewrite Ea in H. discriminate.
Qed.

(** X21. The failure of a check never fails the verification. It fails
    when [auth.test] fails or takes too long, and when the second
    [team.info], which fetches the icon once [team:read] is granted,
    fails; it does not fail otherwise. *)
Theorem verifyToken_rejections now failure :
  verdict (verifyToken u now) = inr failure <->
  verdict (withTimeout (auth_call u now) 20000 now) = inr failure \/
  exists env e,
    verdict (withTimeout (auth_call u now) 20000 now) = inl env /\
    succeeds (team_info_call u (Auth.team_id (data env))) = true /\
    outcome (team_icon_call u (Auth.team_id (data env)) 0) = Err e /\
    failure = Thrown e.
Proof.
  destruct (verdict (withTimeout (auth_call u now) 20000 now))
    as [env|f] eqn:Ea.
  - rewrite (verifyToken_checked now env Ea). cbv zeta.
    destruct (succeeds (team_info_call u (Auth.team_id (data env)))) eqn:Es.
    + destruct (outcome (team_icon_call u _ 0)) as [response|e] eqn:Ei.
      * split; [discriminate|].
        intros [H|(env' & e & H & _ & He & _)]; [discriminate|].
        injection H as <-. congruence.
      * split.
        -- intros H. injection H as <-. right. exists env, e. auto.
        -- intros [H|(env' & e' & H & _ & He & ->)]; [discriminate|].
           injection H as <-. congruence.
    + split; [discriminate|].
      intros [H|(env' & e & H & Hs & _)]; [discriminate|].
      injection H as <-. congruence.
  - unfold verifyToken. cbv zeta. rewrite Ea. cbn [verdict]. split.
    + intros H. left. congruence.
    + intros [H|(env & e & H & _)]; [congruence | discriminate].
Qed.

(** X22. When [auth.test] has not settled twenty seconds after the call,
    the verification fails then with the error of the timer, and no check
    is started; the requests of [auth.test] are not cancelled. *)
Theorem verifyToken_timeout now :
  (now + 20000 < at_time (auth_call u now))%N ->
  verdict (verifyToken u now) = inr TimeoutError /\
  settled_at (verifyToken u now) = (now + 20000)%N /\
  calls (events (verifyToken u now)) = [(lit "auth.test", [])] /\
  fetches (events (verifyToken u now)) = fetches (log (auth_call u now)).
Proof.
  intros Hlate. unfold verifyToken, withTimeout. cbv zeta.
  change (timer_delay (Some 20000%Z)) with 20000%N.
  destruct (at_time (auth_call u now) <=? now + 20000)%N eqn:E;
    [apply N.leb_le in E; lia|].
  cbn [verdict settled_at events]. repeat split.
  - rewrite calls_app. unfold auth_call. rewrite slackFetch_calls.
    reflexivity.
  - rewrite fetches_app. simpl. apply app_nil_r.
Qed.

(** The scopes that [handleConnect] requires are all there exactly when
    all four checks succeeded. *)
Lemma allPermissionsMet_checked team_id :
  allPermissionsMet (checked_scopes u team_id) = true <->
  succeeds (team_info_call u team_id) = true /\
  succeeds (list_any_call u) = true /\
  succeeds (search_check_call u) = true /\
  exists channelId,
    first_public_channel u = Some channelId /\
    succeeds (history_call u channelId) = true.
Proof.
  unfold checked_scopes.
  destruct (succeeds (team_info_call u team_id));
    destruct (succeeds (list_any_call u));
    destruct (succeeds (search_check_call u));
    destruct (first_public_channel u) as [c|];
    try destruct (succeeds (history_call u c)) eqn:Eh;
    (split;
     [ intros H; try (vm_compute in H; discriminate);
       repeat split; eauto
     | intros (H1 & H2 & H3 & c' & H4 & H5);
       try discriminate;
       try (injection H4 as <-; congruence);
       vm_compute; reflexivity ]).
Qed.

(** X23. [handleConnect] finds all permissions met exactly when the four
    checks of [verifyToken] succeeded; so it never does for a workspace
    in which no public channel is listed. *)
Theorem handleConnect_all_permissions now ws :
  verdict (verifyToken u now) = inl ws ->
  (allPermissionsMet (Workspace.scopes ws) = true <->
   succeeds (team_info_call u (Workspace.id ws)) = true /\
   succeeds (list_any_call u) = true /\
   succeeds (search_check_call u) = true /\
   exists channelId,
     first_public_channel u = Some channelId /\
     succeeds (history_call u channelId) = true) /\
  (first_public_channel u = None ->
   allPermissionsMet (Workspace.scopes ws) = false).
Proof.
  intros H.
  assert (Es : Workspace.scopes ws = checked_scopes u (Workspace.id ws)).
  { destruct (verdict (withTimeout (auth_call u now) 20000 now))
      as [env|f] eqn:Ea.
    - rewrite (verifyToken_checked now env Ea) in H. cbv zeta in H.
      destruct (succeeds (team_info_call u (Auth.team_id (data env)))).
      + destruct (outcome (team_icon_call u _ 0)); [|discriminate].
        injection H as <-. reflexivity.
      + injection H as <-. reflexivity.
    - unfold verifyToken in H. cbv zeta in H. rewrite Ea in H.
      discriminate. }
  rewrite Es. split; [apply allPermissionsMet_checked|].
  intros Hnone.
  destruct (allPermissionsMet (checked_scopes u (Workspace.id ws))) eqn:E;
    [|reflexivity].
  apply allPermissionsMet_checked in E as (_ & _ & _ & c & Hc & _).
  congruence.
Qed.
End VerifyTokenFacts.

Lemma verifyToken_scopes_witness :
  exists ws,
    verdict (verifyToken full_access 0) = inl ws /\
    Workspace.scopes ws
    = [lit "team:read"; lit "channels:read"; lit "search:read";
       lit "channels:history"].
Proof.
  eexists. split; [reflexivity|].
  apply (proj1 (verifyToken_scopes full_access 0 _ eq_refl)).
Defined.

Lemma verifyToken_rejections_witness :
  verdict (verifyToken icon_unreachable 0) = inr (Thrown FetchFailed).
Proof.
  apply (proj2 (verifyToken_rejections icon_unreachable 0
                  (Thrown FetchFailed))).
  right. eexists. exists FetchFailed.
  split; [reflexivity|]. repeat split; reflexivity.
Defined.

Lemma verifyToken_timeout_witness :
  verdict (verifyToken slow_auth 0) = inr TimeoutError /\
  settled_at (verifyToken slow_auth 0) = 20000%N /\
  calls (events (verifyToken slow_auth 0)) = [(lit "auth.test", [])] /\
  length (fetches (events (verifyToken slow_auth 0))) = 2%nat.
Proof.
  destruct (verifyToken_timeout slow_auth 0) as (Hv & Ht & Hc & Hf);
    [reflexivity|].
  rewrite Hv, Ht, Hc, Hf. repeat split.
Defined.

Lemma handleConnect_all_permissions_witness :
  exists ws,
    verdict (verifyToken no_public_channel 0) = inl ws /\
    Workspace.scopes ws
    = [lit "team:read"; lit "channels:read"; lit "search:read"] /\
    allPermissionsMet (Workspace.scopes ws) = false.
Proof.
  eexists. split; [reflexivity|]. split; [reflexivity|].
  apply (proj2 (handleConnect_all_permissions no_public_channel 0 _ eq_refl)).
  reflexivity.
Defined.
